(** * AKDB: transaction lock manager and projection rewriter

    A shallow embedding of [src/trans/transaction.c] (lock table, lock
    acquisition and release, transaction executor and manager) and of
    [src/opti/rel_eq_projection.c] (attribute-set utilities and the
    projection rewriter), with the properties of the specification stated
    and settled against the embedded code, followed by the list
    utilities of [src/auxiliary.c] and by further properties of the three
    files.

    Conventions of the embedding.
    - A C pointer that may be [NULL] is an [option]; [None] is [NULL].
    - An operation of the C code that dereferences [NULL] or indexes
      outside an array has no defined behaviour: the embedded operation
      returns [None] (or [Fault]) there, which says that the model does
      not follow the execution any further, not what a compiled program
      does.
    - A circular doubly linked list is the [list] of its nodes in
      [next] order, starting at the head pointer of the list; an empty
      list is a [NULL] head.  Inserting a node before the head of a
      circular list is appending it at the end of the [list].
    - The nodes of a waiter queue are compared by address in the C code
      ([tmp == lock]); a node carries its address as [lock_ptr].  Nodes
      are never freed by the code, so a fresh address is a counter. *)

From Stdlib Require Import ZArith Lia Bool String Ascii.
From stdpp Require Import base option list strings.

Open Scope Z_scope.

(** ** Data model of [transaction.h] *)

Module Trans.

Definition pthread_t := Z.

(** Modelled from the spec: [constants.h] is not among the sources.  The
    lock mode is the enumeration shared, exclusive: [SHARED_LOCK] and
    [EXCLUSIVE_LOCK] are two distinct [int] constants; [LOCK_OTHER n] is
    any other [int] passed as a lock type. *)
Inductive lock_mode : Type :=
  | SHARED_LOCK
  | EXCLUSIVE_LOCK
  | LOCK_OTHER (n : Z).

(** Modelled from the spec: [constants.h] is not among the sources.  A
    waiter is waiting or granted: these are the two values stored in
    [isWaiting].  The wait loop of [AK_acquire_lock] is
    [while (!lock->isWaiting)]: the flag is zero, [WAIT_FOR_UNLOCK],
    while the waiter has to wait and [PASS_LOCK_QUEUE] once the lock is
    granted. *)
Inductive wait_status : Type :=
  | WAIT_FOR_UNLOCK
  | PASS_LOCK_QUEUE.

(** Modelled from the spec: [constants.h] is not among the sources.
    [OK] and [NOT_OK] are success and failure of a call.  The executor
    tests [!AK_get_memory_blocks(..)] for failure, so [NOT_OK] is zero. *)
Inductive status : Type := OK | NOT_OK.

(** Modelled from the spec: [constants.h] is not among the sources.  The
    outcome of a transaction is commit or abort. *)
Inductive tx_result : Type := COMMIT | ABORT.

(** [struct transaction_locks_list_elem]: one waiter of a resource.
    [nextLock]/[prevLock] are the position in the queue. *)
Record AK_transaction_lock_elem : Type := mk_lock {
  lock_ptr : nat;
  TransactionId : pthread_t;
  lock_type : lock_mode;
  isWaiting : wait_status
}.

(** [struct transaction_list_elem]: the lock record of one block.
    [DLLLocks] is the circular list hanging from [DLLLocksHead]. *)
Record AK_transaction_elem : Type := mk_elem {
  address : Z;
  elem_lock_type : lock_mode;
  DLLLocks : list AK_transaction_lock_elem
}.

(** The global [LockTable]: an array of [NUMBER_OF_KEYS] bucket heads,
    each the circular list of the records that hash to it; together with
    the allocator: the next fresh node address and the number of
    allocations [malloc] will still serve. *)
Record lock_manager : Type := mk_manager {
  LockTable : list (list AK_transaction_elem);
  next_lock : nat;
  heap_left : nat
}.

Definition set_isWaiting (w : wait_status) (l : AK_transaction_lock_elem) :=
  mk_lock (lock_ptr l) (TransactionId l) (lock_type l) w.

Definition set_elem_lock_type (t : lock_mode) (e : AK_transaction_elem) :=
  mk_elem (address e) t (DLLLocks e).

Definition set_DLLLocks (q : list AK_transaction_lock_elem) (e : AK_transaction_elem) :=
  mk_elem (address e) (elem_lock_type e) q.

(** Writing [lock->isWaiting = w] through the node address [p]. *)
Definition store_isWaiting (p : nat) (w : wait_status)
    (q : list AK_transaction_lock_elem) : list AK_transaction_lock_elem :=
  map (fun l => if decide (lock_ptr l = p) then set_isWaiting w l else l) q.

(** The do-while scan of a bucket for the record of [blockAddress]. *)
Fixpoint find_elem (blockAddress : Z) (b : list AK_transaction_elem)
    : option AK_transaction_elem :=
  match b with
  | [] => None
  | e :: b' => if decide (address e = blockAddress) then Some e
               else find_elem blockAddress b'
  end.

(** Writing a record back through the pointer the scan returned. *)
Fixpoint store_elem (e' : AK_transaction_elem) (b : list AK_transaction_elem)
    : list AK_transaction_elem :=
  match b with
  | [] => []
  | e :: b' => if decide (address e = address e') then e' :: b'
               else e :: store_elem e' b'
  end.

(** Unlinking the record of [blockAddress] from its bucket. *)
Fixpoint unlink_elem (blockAddress : Z) (b : list AK_transaction_elem)
    : list AK_transaction_elem :=
  match b with
  | [] => []
  | e :: b' => if decide (address e = blockAddress) then b'
               else e :: unlink_elem blockAddress b'
  end.

(** Unlinking the node at address [p] from a waiter queue; when it is
    the head, the head pointer moves to [nextLock]. *)
Definition unlink_lock (p : nat) (q : list AK_transaction_lock_elem) :=
  filter (fun l => lock_ptr l <> p) q.

(** The outcome of a call that may sleep on a condition variable or
    dereference [NULL]. *)
Inductive outcome (A : Type) : Type :=
  | Returned (a : A)
  | Blocked (m : lock_manager)
  | Fault.
Arguments Returned {A} a.
Arguments Blocked {A} m.
Arguments Fault {A}.

(** The compatibility oracle in the words of the specification: the
    head of the queue is granted; behind a head that is granted and
    shared a shared request is granted; behind a head that is granted
    and exclusive a request of the head's transaction is granted; every
    other request waits. *)
Definition spec_oracle (record : AK_transaction_elem) (type : lock_mode)
    (transactionId : pthread_t) (p : nat) : option wait_status :=
  match DLLLocks record with
  | [] => None
  | hd :: _ =>
      Some
        (if decide (lock_ptr hd = p) then PASS_LOCK_QUEUE
         else
           match isWaiting hd, lock_type hd with
           | PASS_LOCK_QUEUE, SHARED_LOCK =>
               match type with
               | SHARED_LOCK => PASS_LOCK_QUEUE
               | _ => WAIT_FOR_UNLOCK
               end
           | PASS_LOCK_QUEUE, EXCLUSIVE_LOCK =>
               if decide (TransactionId hd = transactionId)
               then PASS_LOCK_QUEUE else WAIT_FOR_UNLOCK
           | _, _ => WAIT_FOR_UNLOCK
           end)
  end.

Section LockTable.

(** [NUMBER_OF_KEYS] of [constants.h], the number of buckets, a
    positive constant. *)
Variable NUMBER_OF_KEYS : Z.

Definition AK_memory_block_hash (blockMemoryAddress : Z) : Z :=
  Z.rem blockMemoryAddress NUMBER_OF_KEYS.

(** [LockTable[hash]].  The code does not test the index.  For an
    index outside of the array the access reads what lies next to the
    table, which the C language leaves open and the model does not
    describe: [None] there says that the model does not follow the
    execution, not what the program does.  The hash of an address that
    is not negative is inside the array. *)
Definition bucket_at (T : list (list AK_transaction_elem)) (hash : Z)
    : option (list AK_transaction_elem) :=
  if decide (0 <= hash) then T !! Z.to_nat hash else None.

Definition set_bucket (T : list (list AK_transaction_elem)) (hash : Z)
    (b : list AK_transaction_elem) : list (list AK_transaction_elem) :=
  <[Z.to_nat hash := b]> T.

(** [AK_search_existing_link_for_hook]: the outer [option] is the array
    access, the inner one the returned pointer. *)
Definition AK_search_existing_link_for_hook
    (T : list (list AK_transaction_elem)) (blockAddress : Z)
    : option (option AK_transaction_elem) :=
  b ← bucket_at T (AK_memory_block_hash blockAddress);
  Some (find_elem blockAddress b).

(** [malloc] followed by [memset]: a failed allocation returns [NULL]
    and the [memset] faults. *)
Definition malloc (m : lock_manager) : option lock_manager :=
  match heap_left m with
  | O => None
  | S h => Some (mk_manager (LockTable m) (next_lock m) h)
  end.

(** [AK_add_hash_entry_list], with [AK_search_empty_link_for_hook]
    inlined: an existing record is returned as it is; otherwise a new
    record is allocated (the bucket head itself when the bucket is empty,
    a node linked before the head otherwise) and its observer lock is
    allocated by [AK_init_observer_lock].  The fields [transactionId]
    and [observer_lock] written here are read by no function of the
    file and are left out of the record. *)
Definition AK_add_hash_entry_list (blockAddress : Z) (type : lock_mode)
    (m : lock_manager) : option (AK_transaction_elem * lock_manager) :=
  b ← bucket_at (LockTable m) (AK_memory_block_hash blockAddress);
  match find_elem blockAddress b with
  | Some root => Some (root, m)
  | None =>
      m1 ← malloc m;
      m2 ← malloc m1;
      let bucket := mk_elem blockAddress type [] in
      Some (bucket,
            mk_manager
              (set_bucket (LockTable m2) (AK_memory_block_hash blockAddress)
                 (b ++ [bucket]))
              (next_lock m2) (heap_left m2))
  end.

(** [AK_delete_hash_entry_list]. *)
Definition AK_delete_hash_entry_list (blockAddress : Z) (m : lock_manager)
    : option (status * lock_manager) :=
  b ← bucket_at (LockTable m) (AK_memory_block_hash blockAddress);
  match find_elem blockAddress b with
  | Some elemDelete =>
      Some (OK,
            mk_manager
              (set_bucket (LockTable m) (AK_memory_block_hash blockAddress)
                 (unlink_elem blockAddress b))
              (next_lock m) (heap_left m))
  | None => Some (NOT_OK, m)
  end.

(** The successor of position [i] in a circular list. *)
Definition next_pos {A} (q : list A) (i : nat) : nat :=
  if decide (S i < length q)%nat then S i else O.

(** The loop [while (counter++ <= NUMBER_OF_KEYS)] of
    [AK_search_lock_entry_list_by_key], [counter] iterations left, the
    cursor at position [i] of the circular queue. *)
Fixpoint search_lock_loop (counter : nat) (q : list AK_transaction_lock_elem)
    (i : nat) (id : pthread_t) : option AK_transaction_lock_elem :=
  match counter with
  | O => None
  | S c =>
      match q !! i with
      | Some tmpElem =>
          if decide (TransactionId tmpElem = id) then Some tmpElem
          else search_lock_loop c q (next_pos q i) id
      | None => None
      end
  end.

Definition AK_search_lock_entry_list_by_key (Lockslist : AK_transaction_elem)
    (id : pthread_t) : option AK_transaction_lock_elem :=
  match DLLLocks Lockslist with
  | [] => None
  | tmpElem :: _ =>
      if decide (TransactionId tmpElem = id) then Some tmpElem
      else search_lock_loop (Z.to_nat (NUMBER_OF_KEYS + 1))
             (DLLLocks Lockslist) 0 id
  end.

(** The do-while loop of [AK_delete_lock_entry_list]: unlink
    [elemDelete], search again, repeat while a node is found.  Every
    round unlinks a node, so as many rounds as the queue is long are
    enough ([delete_lock_loop_rounds] below). *)
Fixpoint delete_lock_loop (rounds : nat) (holder : AK_transaction_elem)
    (elemDelete : AK_transaction_lock_elem) (id : pthread_t)
    : AK_transaction_elem :=
  let holder' :=
    set_DLLLocks (unlink_lock (lock_ptr elemDelete) (DLLLocks holder)) holder in
  match rounds with
  | O => holder'
  | S r =>
      match AK_search_lock_entry_list_by_key holder' id with
      | Some elemDelete' => delete_lock_loop r holder' elemDelete' id
      | None => holder'
      end
  end.

Definition store_record (e : AK_transaction_elem) (m : lock_manager)
    : lock_manager :=
  match bucket_at (LockTable m) (AK_memory_block_hash (address e)) with
  | Some b =>
      mk_manager
        (set_bucket (LockTable m) (AK_memory_block_hash (address e))
           (store_elem e b))
        (next_lock m) (heap_left m)
  | None => m
  end.

(** [AK_delete_lock_entry_list]: [NULL] is dereferenced when the block
    has no record. *)
Definition AK_delete_lock_entry_list (blockAddress : Z) (id : pthread_t)
    (m : lock_manager) : option (status * lock_manager) :=
  r ← AK_search_existing_link_for_hook (LockTable m) blockAddress;
  elemListHolder ← r;
  match AK_search_lock_entry_list_by_key elemListHolder id with
  | None => Some (NOT_OK, m)
  | Some elemDelete =>
      Some (OK,
            store_record
              (delete_lock_loop (length (DLLLocks elemListHolder))
                 elemListHolder elemDelete id) m)
  end.

(** [AK_isLock_waiting]: the oracle.  [lock] is the address of the
    waiter under test.  The result carries the record, whose
    [lock_type] is overwritten when the waiter is the head.  The head is
    dereferenced, so an empty queue faults. *)
Definition AK_isLock_waiting (lockHolder : AK_transaction_elem)
    (type : lock_mode) (transactionId : pthread_t) (lock : nat)
    : option (AK_transaction_elem * wait_status) :=
  match DLLLocks lockHolder with
  | [] => None
  | tmp :: _ =>
      if decide (lock_ptr tmp = lock) then
        Some (set_elem_lock_type type lockHolder, PASS_LOCK_QUEUE)
      else
        match lock_type tmp with
        | SHARED_LOCK =>
            match type with
            | SHARED_LOCK => Some (lockHolder, PASS_LOCK_QUEUE)
            | EXCLUSIVE_LOCK => Some (lockHolder, WAIT_FOR_UNLOCK)
            | LOCK_OTHER _ => Some (lockHolder, WAIT_FOR_UNLOCK)
            end
        | EXCLUSIVE_LOCK =>
            if decide (TransactionId tmp = transactionId)
            then Some (lockHolder, PASS_LOCK_QUEUE)
            else Some (lockHolder, WAIT_FOR_UNLOCK)
        | LOCK_OTHER _ => Some (lockHolder, WAIT_FOR_UNLOCK)
        end
  end.

(** [AK_add_lock]: a zeroed node is linked before the head (at the end
    of the queue), then the oracle sets its [isWaiting]. *)
Definition AK_add_lock (HashList : AK_transaction_elem) (type : lock_mode)
    (transactionId : pthread_t) (m : lock_manager)
    : option (nat * AK_transaction_elem * lock_manager) :=
  m1 ← malloc m;
  let lock := next_lock m1 in
  let node := mk_lock lock transactionId type WAIT_FOR_UNLOCK in
  let linked := set_DLLLocks (DLLLocks HashList ++ [node]) HashList in
  '(holder, w) ← AK_isLock_waiting linked type transactionId lock;
  Some (lock,
        set_DLLLocks (store_isWaiting lock w (DLLLocks holder)) holder,
        mk_manager (LockTable m1) (S lock) (heap_left m1)).

(** [AK_create_lock]. *)
Definition AK_create_lock (blockAddress : Z) (type : lock_mode)
    (transactionId : pthread_t) (m : lock_manager)
    : option (nat * lock_manager) :=
  r ← AK_search_existing_link_for_hook (LockTable m) blockAddress;
  '(elem, m1) ← match r with
                | Some elem => Some (elem, m)
                | None => AK_add_hash_entry_list blockAddress type m
                end;
  '(lock, elem', m2) ← AK_add_lock elem type transactionId m1;
  Some (lock, store_record elem' m2).


(** [AK_release_locks].  [addresses] are the nodes of the address list
    before its end marker (the loop runs [while (nextElement != NULL)]).
    For each block all entries of the transaction are unlinked; the
    record is then looked up again and its head read.  The walk over the
    waiters that follows in the C code writes nothing (its assignment to
    [isWaiting] is commented out) and ends at the first granted waiter
    or back at the head.  [AK_lock_released] then broadcasts
    [cond_lock].  The record itself is left in its bucket. *)
Fixpoint AK_release_locks (addresses : list Z) (transactionId : pthread_t)
    (m : lock_manager) : option lock_manager :=
  match addresses with
  | [] => Some m
  | adresa :: addressesTmp =>
      '(_, m1) ← AK_delete_lock_entry_list adresa transactionId m;
      r ← AK_search_existing_link_for_hook (LockTable m1) adresa;
      _ ← r;
      AK_release_locks addressesTmp transactionId m1
  end.

(** One round of the wait loop of [AK_acquire_lock] after a wake-up:
    [lock->isWaiting = AK_isLock_waiting(tmp, type, transactionId, lock)].
    [tmp] was looked up once before the loop; records are never unlinked
    by acquire or release, so looking it up again finds the same one. *)
Definition AK_acquire_lock_recheck (memoryAddress : Z) (type : lock_mode)
    (transactionId : pthread_t) (lock : nat) (m : lock_manager)
    : option (wait_status * lock_manager) :=
  r ← AK_search_existing_link_for_hook (LockTable m) memoryAddress;
  tmp ← r;
  '(holder, w) ← AK_isLock_waiting tmp type transactionId lock;
  Some (w, store_record
             (set_DLLLocks (store_isWaiting lock w (DLLLocks holder)) holder) m).

(** ** Interleaved executions

    The threads of the program interleave at three kinds of steps: the
    region of [AK_acquire_lock] under [acquireLockMutex] (enqueue and
    first verdict of the oracle), one round of its wait loop for a waiter
    that is still waiting (every release broadcasts [cond_lock], and
    [pthread_cond_wait] may also wake up by itself), and
    [AK_release_locks].  Each step runs to its end before the next one
    starts. *)
Inductive action : Type :=
  | Acquire (memoryAddress : Z) (type : lock_mode) (transactionId : pthread_t)
  | Recheck (memoryAddress : Z) (lock : nat)
  | Release (addresses : list Z) (transactionId : pthread_t).

Definition find_lock (lock : nat) (q : list AK_transaction_lock_elem)
    : option AK_transaction_lock_elem :=
  List.find (fun l => Nat.eqb (lock_ptr l) lock) q.

Definition step (a : action) (m : lock_manager) : option lock_manager :=
  match a with
  | Acquire memoryAddress type transactionId =>
      '(_, m') ← AK_create_lock memoryAddress type transactionId m;
      Some m'
  | Recheck memoryAddress lock =>
      r ← AK_search_existing_link_for_hook (LockTable m) memoryAddress;
      tmp ← r;
      l ← find_lock lock (DLLLocks tmp);
      match isWaiting l with
      | PASS_LOCK_QUEUE => None
      | WAIT_FOR_UNLOCK =>
          '(_, m') ← AK_acquire_lock_recheck memoryAddress (lock_type l)
                       (TransactionId l) lock m;
          Some m'
      end
  | Release addresses transactionId =>
      AK_release_locks addresses transactionId m
  end.

Fixpoint run (acts : list action) (m : lock_manager) : option lock_manager :=
  match acts with
  | [] => Some m
  | a :: acts' => m' ← step a m; run acts' m'
  end.

(** The table after [memset(LockTable, 0, ..)], with [heap] allocations
    available. *)
Definition init (heap : nat) : lock_manager :=
  mk_manager (replicate (Z.to_nat NUMBER_OF_KEYS) []) 0 heap.

Definition reachable (m : lock_manager) : Prop :=
  exists heap acts, run acts (init heap) = Some m.

(** ** A thread calling [AK_acquire_lock]

    The call of one thread, with the steps of the other threads given as
    [others]: the actions they perform while the caller sleeps in
    [pthread_cond_wait], one list per wake-up.  The caller is [Blocked]
    when it still waits after the last of them.  The other threads run
    during a wait only: a request that passes at once returns before
    any of them moves, also between two calls of [AK_acquire_lock] of
    the same transaction, where the code holds no mutex.  So [others]
    describes some of the schedules of the program, not all of them; a
    transaction that runs alone has [others = []]. *)

Fixpoint acquire_wait_loop (others : list (list action)) (memoryAddress : Z)
    (type : lock_mode) (transactionId : pthread_t) (lock : nat)
    (isWaiting_lock : wait_status) (m : lock_manager)
    : outcome (status * list (list action) * lock_manager) :=
  match isWaiting_lock with
  | PASS_LOCK_QUEUE => Returned (OK, others, m)
  | WAIT_FOR_UNLOCK =>
      match others with
      | [] => Blocked m
      | acts :: others' =>
          match run acts m with
          | None => Fault
          | Some m1 =>
              match AK_acquire_lock_recheck memoryAddress type transactionId
                      lock m1 with
              | None => Fault
              | Some (w, m2) =>
                  acquire_wait_loop others' memoryAddress type transactionId
                    lock w m2
              end
          end
      end
  end.

Definition waiting_flag (memoryAddress : Z) (lock : nat) (m : lock_manager)
    : option wait_status :=
  r ← AK_search_existing_link_for_hook (LockTable m) memoryAddress;
  tmp ← r;
  l ← find_lock lock (DLLLocks tmp);
  Some (isWaiting l).

(** [AK_acquire_lock].  Its only [return] statement is [return OK]. *)
Definition AK_acquire_lock (memoryAddress : Z) (type : lock_mode)
    (transactionId : pthread_t) (others : list (list action))
    (m : lock_manager)
    : outcome (status * list (list action) * lock_manager) :=
  match AK_create_lock memoryAddress type transactionId m with
  | None => Fault
  | Some (lock, m1) =>
      match waiting_flag memoryAddress lock m1 with
      | None => Fault
      | Some w =>
          acquire_wait_loop others memoryAddress type transactionId lock w m1
      end
  end.

(** ** The transaction executor *)

(** Modelled from the spec: [command.h] is not among the sources.  The
    command kinds are insert, update, delete and select;
    [COMMAND_OTHER n] is an [id_command] that is none of the four, the
    [default] case of the [switch]. *)
Inductive command_kind : Type :=
  | SELECT | UPDATE | DELETE | INSERT
  | COMMAND_OTHER (n : Z).

(** [struct command]; [parameters] are opaque to the executor. *)
Record command : Type := mk_command {
  id_command : command_kind;
  tblName : string
}.

(** The storage collaborator [AK_get_table_addresses]: the first
    extent [address_from[0]], [address_to[0]] of a table. *)
Variable AK_get_table_addresses : string -> Z * Z.

(** The blocks [j] of [for (j = from; j < to; j++)]. *)
Definition block_range (from to : Z) : list Z :=
  map (fun k => from + Z.of_nat k) (seq 0 (Z.to_nat (to - from))).

(** [n] times [malloc] and [memset]. *)
Fixpoint malloc_nodes (n : nat) (m : lock_manager) : option lock_manager :=
  match n with
  | O => Some m
  | S n' => m1 ← malloc m; malloc_nodes n' m1
  end.

(** [AK_get_memory_blocks]: [NOT_OK] when the table has no first extent,
    otherwise the list of its blocks, one allocated node after each. *)
Definition AK_get_memory_blocks (tbl : string) (m : lock_manager)
    : option (status * list Z * lock_manager) :=
  let '(address_from, address_to) := AK_get_table_addresses tbl in
  if decide (address_from = 0) then Some (NOT_OK, [], m)
  else
    let blocks := block_range address_from address_to in
    m1 ← malloc_nodes (length blocks) m;
    Some (OK, blocks, m1).

(** The three [return] statements of [AK_execute_commands]. *)
Inductive exit_point : Type :=
  | abort_no_blocks
  | abort_acquire_failed
  | commit_after_release.

Definition exit_result (e : exit_point) : tx_result :=
  match e with
  | abort_no_blocks => ABORT
  | abort_acquire_failed => ABORT
  | commit_after_release => COMMIT
  end.

(** The [switch] of the inner loop: the lock type requested for a
    command kind; [None] is the [default] case, which requests nothing
    and leaves [status] as it was. *)
Definition requested_lock (k : command_kind) : option lock_mode :=
  match k with
  | UPDATE => Some EXCLUSIVE_LOCK
  | DELETE => Some EXCLUSIVE_LOCK
  | INSERT => Some EXCLUSIVE_LOCK
  | SELECT => Some SHARED_LOCK
  | COMMAND_OTHER _ => None
  end.

(** The inner [while] loop over the blocks of one command.  [addresses]
    is the whole block list of the command, [blocks] what is left of
    it.  [inl] is the abort return, [inr] the state after the loop. *)
Fixpoint lock_blocks (self : pthread_t) (k : command_kind)
    (addresses blocks : list Z) (st : status) (others : list (list action))
    (m : lock_manager)
    : outcome (exit_point * lock_manager
               + status * list (list action) * lock_manager) :=
  match blocks with
  | [] => Returned (inr (st, others, m))
  | adresa :: blocks' =>
      let after_switch :=
        match requested_lock k with
        | Some type => AK_acquire_lock adresa type self others m
        | None => Returned (st, others, m)
        end in
      match after_switch with
      | Fault => Fault
      | Blocked m1 => Blocked m1
      | Returned (NOT_OK, _, m1) =>
          match AK_release_locks addresses self m1 with
          | None => Fault
          | Some m2 => Returned (inl (abort_acquire_failed, m2))
          end
      | Returned (OK, others1, m1) =>
          lock_blocks self k addresses blocks' OK others1 m1
      end
  end.

(** The [for] loop over the commands.  [addresses] is the local block
    list, not initialised before the first command. *)
Fixpoint execute_loop (self : pthread_t) (commandArray : list command)
    (addresses : option (list Z)) (st : status)
    (others : list (list action)) (m : lock_manager)
    : outcome (exit_point * lock_manager) :=
  match commandArray with
  | [] =>
      match addresses with
      | None => Fault
      | Some held =>
          match AK_release_locks held self m with
          | None => Fault
          | Some m1 => Returned (commit_after_release, m1)
          end
      end
  | c :: commands' =>
      match AK_get_memory_blocks (tblName c) m with
      | None => Fault
      | Some (NOT_OK, _, m1) => Returned (abort_no_blocks, m1)
      | Some (OK, blocks, m1) =>
          match lock_blocks self (id_command c) blocks blocks st others m1 with
          | Fault => Fault
          | Blocked m2 => Blocked m2
          | Returned (inl aborted) => Returned aborted
          | Returned (inr (st', others', m2)) =>
              execute_loop self commands' (Some blocks) st' others' m2
          end
      end
  end.

(** [AK_execute_commands], run by the thread [self] ([pthread_self()]).
    [status] starts at [0], which is [NOT_OK].  The first [malloc], for
    [address], is not followed by a write through its result.
    [AK_command] works on the tables and not on the lock table. *)
Definition AK_execute_commands (self : pthread_t) (commandArray : list command)
    (others : list (list action)) (m : lock_manager)
    : outcome (exit_point * lock_manager) :=
  let m0 := match malloc m with Some m' => m' | None => m end in
  execute_loop self commandArray None NOT_OK others m0.

(** The record of a block, when the table has one. *)
Definition record_of (m : lock_manager) (memoryAddress : Z)
    : option AK_transaction_elem :=
  r ← AK_search_existing_link_for_hook (LockTable m) memoryAddress; r.

(** The waiter queue of a block; empty without a record. *)
Definition queue_of (m : lock_manager) (memoryAddress : Z)
    : list AK_transaction_lock_elem :=
  match record_of m memoryAddress with
  | Some e => DLLLocks e
  | None => []
  end.

(** The locks of a transaction on a block: the entries of the block's
    queue that carry its identity. *)
Definition locks_of (transactionId : pthread_t) (memoryAddress : Z)
    (m : lock_manager) : list AK_transaction_lock_elem :=
  filter (fun l => TransactionId l = transactionId) (queue_of m memoryAddress).
(** ** The properties of the lock table, as the specification words them *)

(** A waiter is granted once its flag is [PASS_LOCK_QUEUE]. *)
Definition granted (l : AK_transaction_lock_elem) : Prop :=
  isWaiting l = PASS_LOCK_QUEUE.

(** Mutual exclusion: on every record, a granted exclusive waiter
    excludes every granted waiter of another transaction. *)
Definition mutual_exclusion (m : lock_manager) : Prop :=
  forall b e l1 l2,
    b ∈ LockTable m -> e ∈ b ->
    l1 ∈ DLLLocks e -> l2 ∈ DLLLocks e ->
    granted l1 -> granted l2 ->
    lock_type l1 = EXCLUSIVE_LOCK ->
    TransactionId l2 = TransactionId l1.

(** Every record in a bucket has a waiter. *)
Definition queues_nonempty (m : lock_manager) : Prop :=
  forall b e, b ∈ LockTable m -> e ∈ b -> DLLLocks e <> [].

(** The waiter at address [p] is in the queue of the block and
    granted. *)
Definition granted_in (m : lock_manager) (memoryAddress : Z) (p : nat) : Prop :=
  exists l, l ∈ queue_of m memoryAddress /\ lock_ptr l = p /\ granted l.

(** The state after the first [t] steps of an execution. *)
Definition state_after (heap : nat) (acts : list action) (t : nat)
    : option lock_manager :=
  run (take t acts) (init heap).

(** FIFO fairness along an execution: a waiter granted at time [t]
    behind another one of the same queue implies that the one ahead was
    granted at some time up to [t], or that both requested shared. *)
Definition fifo_fair (heap : nat) (acts : list action) : Prop :=
  forall t m blk i j w1 w2,
    state_after heap acts t = Some m ->
    queue_of m blk !! i = Some w1 ->
    queue_of m blk !! j = Some w2 ->
    (i < j)%nat ->
    granted w2 ->
    (exists t' m', (t' <= t)%nat /\ state_after heap acts t' = Some m'
                   /\ granted_in m' blk (lock_ptr w1))
    \/ (lock_type w1 = SHARED_LOCK /\ lock_type w2 = SHARED_LOCK).

(** ** Invariants used in the proofs *)

(** A step that only takes waiters out of queues: the allocation
    counter stays, every record stays, and each queue is a sublist of
    what it was. *)
Definition queue_shrink (m m' : lock_manager) : Prop :=
  next_lock m' = next_lock m /\
  forall blk,
    match record_of m blk, record_of m' blk with
    | Some e, Some e' => DLLLocks e' `sublist_of` DLLLocks e
    | None, None => True
    | _, _ => False
    end.

(** Node addresses are fresh: below the allocation counter and never
    twice in a queue. *)
Definition ptr_inv (m : lock_manager) : Prop :=
  forall blk,
    NoDup (lock_ptr <$> queue_of m blk)
    /\ forall l, l ∈ queue_of m blk -> (lock_ptr l < next_lock m)%nat.

End LockTable.

(** ** The transaction manager *)

Definition MAX_ACTIVE_TRANSACTIONS_COUNT : Z := 10.

(** The globals of the manager: the slot array [activeThreads] (a slot
    holding [0] is [(pthread_t)NULL]), the two counters and
    [newTransactionLockMutex]; with them the threads of the model: the
    transaction workers created by [pthread_create] that have not yet run
    [AK_on_transaction_end], and the calls of [AK_transaction_manager]
    that sleep on the mutex. *)
Record tx_manager : Type := mk_tx {
  activeThreads : list pthread_t;
  activeTransactionsCount : Z;
  transactionsCount : Z;
  newTransactionLockMutex : bool;
  workers : list pthread_t;
  sleeping : nat
}.

(** [for (i = 0; i < MAX_ACTIVE_TRANSACTIONS_COUNT; ++i)
      if (activeThreads[i] == v) ..]: the first slot holding [v], [n]
    slots from [i] on left to test. *)
Fixpoint scan_slots (v : pthread_t) (slots : list pthread_t) (i n : nat)
    : option nat :=
  match n with
  | O => None
  | S n' =>
      match slots !! i with
      | Some x => if decide (x = v) then Some i
                  else scan_slots v slots (S i) n'
      | None => None
      end
  end.

(** [AK_create_new_transaction_thread]; [t1] is the identity
    [pthread_create] gives the new worker. *)
Definition AK_create_new_transaction_thread (t1 : pthread_t) (s : tx_manager)
    : status * tx_manager :=
  match scan_slots 0 (activeThreads s) 0
          (Z.to_nat MAX_ACTIVE_TRANSACTIONS_COUNT) with
  | Some i =>
      (OK, mk_tx (<[i := t1]> (activeThreads s))
                 (activeTransactionsCount s + 1)
                 (transactionsCount s)
                 (newTransactionLockMutex s)
                 (t1 :: workers s)
                 (sleeping s))
  | None => (NOT_OK, s)
  end.

(** [AK_remove_transaction_thread]. *)
Definition AK_remove_transaction_thread (transaction_thread : pthread_t)
    (s : tx_manager) : status * tx_manager :=
  match scan_slots transaction_thread (activeThreads s) 0
          (Z.to_nat MAX_ACTIVE_TRANSACTIONS_COUNT) with
  | Some i =>
      (OK, mk_tx (<[i := 0]> (activeThreads s))
                 (activeTransactionsCount s - 1)
                 (transactionsCount s)
                 (newTransactionLockMutex s)
                 (workers s)
                 (sleeping s))
  | None => (NOT_OK, s)
  end.

(** [AK_transaction_manager] up to its return, or up to its sleep on
    [newTransactionLockMutex] when the mutex is taken. *)
Definition AK_transaction_manager (t1 : pthread_t) (s : tx_manager)
    : tx_manager :=
  let s1 := mk_tx (activeThreads s) (activeTransactionsCount s)
              (transactionsCount s + 1) (newTransactionLockMutex s)
              (workers s) (sleeping s) in
  if decide (activeTransactionsCount s1 < MAX_ACTIVE_TRANSACTIONS_COUNT) then
    snd (AK_create_new_transaction_thread t1 s1)
  else if newTransactionLockMutex s1 then
    mk_tx (activeThreads s1) (activeTransactionsCount s1)
      (transactionsCount s1) true (workers s1) (S (sleeping s1))
  else
    snd (AK_create_new_transaction_thread t1
           (mk_tx (activeThreads s1) (activeTransactionsCount s1)
              (transactionsCount s1) true (workers s1) (sleeping s1))).

(** A sleeping call of [AK_transaction_manager] gets the mutex and goes
    on with [AK_create_new_transaction_thread]. *)
Definition AK_transaction_manager_resume (t1 : pthread_t) (s : tx_manager)
    : tx_manager :=
  snd (AK_create_new_transaction_thread t1
         (mk_tx (activeThreads s) (activeTransactionsCount s)
            (transactionsCount s) true (workers s) (pred (sleeping s)))).

(** [AK_on_transaction_end], run by the worker itself at its end, as
    one call that no other thread interrupts.  The call holds no mutex;
    its two halves, between which the other threads may run, are
    [clear_thread_slot] and [leave_after_clear] below. *)
Definition AK_on_transaction_end (transaction_thread : pthread_t)
    (s : tx_manager) : tx_manager :=
  let s1 := snd (AK_remove_transaction_thread transaction_thread s) in
  mk_tx (activeThreads s1) (activeTransactionsCount s1)
    (transactionsCount s1 - 1) false
    (filter (fun t => t <> transaction_thread) (workers s1)) (sleeping s1).

(** The steps of the manager when calls do not overlap: every call of
    [AK_transaction_manager] runs to its return or to its sleep, and
    every call of [AK_on_transaction_end] to its return, before the next
    call starts.  The program has more executions than these, see
    [tx_do] below.  A new worker gets an identity that is not [NULL]
    and not the identity of a live worker; a sleeping call resumes when
    the mutex is free; a worker that ends is a live one. *)
Inductive tx_step : tx_manager -> tx_manager -> Prop :=
  | tx_submit t1 s :
      t1 <> 0 -> t1 ∉ workers s ->
      tx_step s (AK_transaction_manager t1 s)
  | tx_resume t1 s :
      t1 <> 0 -> t1 ∉ workers s ->
      (0 < sleeping s)%nat -> newTransactionLockMutex s = false ->
      tx_step s (AK_transaction_manager_resume t1 s)
  | tx_end t s :
      t ∈ workers s ->
      tx_step s (AK_on_transaction_end t s).

(** The manager at program start; the test locks
    [newTransactionLockMutex] before the first submission, the static
    initialiser leaves it free. *)
Definition tx_init (mutex : bool) : tx_manager :=
  mk_tx (replicate (Z.to_nat MAX_ACTIVE_TRANSACTIONS_COUNT) 0) 0 0 mutex [] 0.

(** The states between calls that do not overlap. *)
Inductive tx_reachable : tx_manager -> Prop :=
  | tx_reach_init mutex : tx_reachable (tx_init mutex)
  | tx_reach_step s s' : tx_reachable s -> tx_step s s' -> tx_reachable s'.

(** The live entries of the slot array. *)
Definition live (slots : list pthread_t) : list pthread_t :=
  filter (fun t => t <> 0) slots.

Definition live_entries (s : tx_manager) : list pthread_t :=
  live (activeThreads s).

(** The invariant of the manager: the live slots are the live workers,
    each once, and the counter counts them. *)
Definition tx_inv (s : tx_manager) : Prop :=
  length (activeThreads s) = Z.to_nat MAX_ACTIVE_TRANSACTIONS_COUNT
  /\ live_entries s ≡ₚ workers s
  /\ NoDup (workers s)
  /\ activeTransactionsCount s = Z.of_nat (length (workers s)).

(** ** The threads of the manager

    [AK_remove_transaction_thread] takes no mutex.  A worker that ends
    writes [NULL] to its slot and then decrements
    [activeTransactionsCount]; the other threads can run between the two
    writes. *)

(** The scan of [AK_remove_transaction_thread] has found the worker in
    slot [i]: [activeThreads[i] = (pthread_t)NULL]. *)
Definition clear_thread_slot (i : nat) (s : tx_manager) : tx_manager :=
  mk_tx (<[i := 0]> (activeThreads s)) (activeTransactionsCount s)
    (transactionsCount s) (newTransactionLockMutex s) (workers s)
    (sleeping s).

(** What the worker does after that write: [activeTransactionsCount--]
    and [return OK], then, back in [AK_on_transaction_end], the unlock of
    [newTransactionLockMutex] and [transactionsCount--].  The worker is
    gone. *)
Definition leave_after_clear (transaction_thread : pthread_t)
    (s : tx_manager) : tx_manager :=
  mk_tx (activeThreads s) (activeTransactionsCount s - 1)
    (transactionsCount s - 1) false
    (filter (fun t => t <> transaction_thread) (workers s)) (sleeping s).

(** The globals together with the workers that stand between the two
    writes of [AK_remove_transaction_thread]. *)
Record tx_threads : Type := mk_threads {
  globals : tx_manager;
  between_writes : list pthread_t
}.

(** What a thread does in one go: a call of [AK_transaction_manager] up
    to its return or its sleep ([t1] is the identity [pthread_create]
    gives), the rest of a call that slept, a whole
    [AK_on_transaction_end], or one of its two halves. *)
Inductive tx_move : Type :=
  | Submit (t1 : pthread_t)
  | Resume (t1 : pthread_t)
  | End (transaction_thread : pthread_t)
  | ClearSlot (transaction_thread : pthread_t)
  | Leave (transaction_thread : pthread_t).

(** One move, for a thread that can make it.  Every move is a stretch
    of the code of one thread, so a sequence of moves is an execution of
    the program; the moves do not cut the code at every access to the
    globals, so the program has executions that no sequence of moves
    describes. *)
Definition tx_do (mv : tx_move) (th : tx_threads) : option tx_threads :=
  let s := globals th in
  let l := between_writes th in
  match mv with
  | Submit t1 =>
      if decide (t1 <> 0 /\ (t1 ∉ workers s))
      then Some (mk_threads (AK_transaction_manager t1 s) l)
      else None
  | Resume t1 =>
      if decide (t1 <> 0 /\ (t1 ∉ workers s) /\ (0 < sleeping s)%nat
                 /\ newTransactionLockMutex s = false)
      then Some (mk_threads (AK_transaction_manager_resume t1 s) l)
      else None
  | End t =>
      if decide (t ∈ workers s /\ (t ∉ l))
      then Some (mk_threads (AK_on_transaction_end t s) l)
      else None
  | ClearSlot t =>
      if decide (t ∈ workers s /\ (t ∉ l))
      then
        i ← scan_slots t (activeThreads s) 0
               (Z.to_nat MAX_ACTIVE_TRANSACTIONS_COUNT);
        Some (mk_threads (clear_thread_slot i s) (t :: l))
      else None
  | Leave t =>
      if decide (t ∈ l)
      then Some (mk_threads (leave_after_clear t s)
                   (filter (fun x => x <> t) l))
      else None
  end.

(** A sequence of moves. *)
Fixpoint tx_schedule (mvs : list tx_move) (th : tx_threads)
    : option tx_threads :=
  match mvs with
  | [] => Some th
  | mv :: mvs' => th' ← tx_do mv th; tx_schedule mvs' th'
  end.

(** A storage collaborator that knows one table, ["student"], in the
    blocks 5 and 6. *)
Definition student_only (tbl : string) : Z * Z :=
  if String.eqb tbl "student" then (5, 7) else (0, 0).

End Trans.

(** ** The projection rewriter of [rel_eq_projection.c] *)

Module Opti.

Open Scope nat_scope.

(** Modelled from the spec: [constants.h] is not among the sources.  The
    tag of a token is one of operator, operand, attribute-set and
    condition; any other tag is [TYPE_OTHER]. *)
Inductive node_type : Type :=
  | TYPE_OPERATOR
  | TYPE_ATTRIBS
  | TYPE_CONDITION
  | TYPE_OPERAND
  | TYPE_OTHER (n : Z).

(** [list_node]: a token of an expression.  [data] is the C string held
    in the node; [size] is [strlen(data) + 1] in every node the code
    builds and is not kept apart.  Strings are taken to fit their
    [MAX_VARCHAR_LENGTH] buffers. *)
Record list_node : Type := mk_node {
  type : node_type;
  data : string
}.

(** [EXIT_SUCCESS], which is [0], and [EXIT_FAILURE] of [stdlib.h]. *)
Inductive exit_status : Type := EXIT_SUCCESS | EXIT_FAILURE.

(** Modelled from the spec: [constants.h] is not among the sources; the
    operator symbols, the attribute delimiter and the attribute escape
    are those of the interface section of the specification. *)
Definition RO_PROJECTION : ascii := "p".
Definition RO_SELECTION : ascii := "s".
Definition RO_UNION : ascii := "u".
Definition RO_INTERSECT : ascii := "n".
Definition RO_EXCEPT : ascii := "e".
Definition RO_NAT_JOIN : ascii := "j".
Definition RO_THETA_JOIN : ascii := "t".
Definition RO_RENAME : ascii := "r".
Definition ATTR_DELIMITER : ascii := ";".
Definition ATTR_ESCAPE : ascii := "`".

(** [data[0]]; the terminator for an empty string. *)
Definition first_char (s : string) : ascii :=
  match s with
  | EmptyString => zero
  | String c _ => c
  end.

(** The tokens [strtok_r] cuts from a string at [ATTR_DELIMITER]: the
    piece before the first delimiter and the non-empty pieces after it. *)
Fixpoint split_attr (s : string) : string * list string :=
  match s with
  | EmptyString => (EmptyString, [])
  | String c s' =>
      let '(cur, rest) := split_attr s' in
      if Ascii.eqb c ATTR_DELIMITER then
        (EmptyString, match cur with EmptyString => rest | _ => cur :: rest end)
      else (String c cur, rest)
  end.

Definition tokenize (s : string) : list string :=
  let '(cur, rest) := split_attr s in
  match cur with EmptyString => rest | _ => cur :: rest end.

(** [strcat] of the pieces with [ATTR_DELIMITER] between them. *)
Fixpoint join_attr (l : list string) : string :=
  match l with
  | [] => EmptyString
  | [a] => a
  | a :: l' => (a ++ String ATTR_DELIMITER (join_attr l'))%string
  end.

(** [qsort] with [AK_strcmp]: the tokens in [strcmp] order. *)
Definition strcmp_le (a b : string) : bool :=
  match String.compare a b with
  | Gt => false
  | _ => true
  end.

Fixpoint qsort_insert (a : string) (l : list string) : list string :=
  match l with
  | [] => [a]
  | b :: l' => if strcmp_le a b then a :: b :: l' else b :: qsort_insert a l'
  end.

Fixpoint qsort (l : list string) : list string :=
  match l with
  | [] => []
  | a :: l' => qsort_insert a (qsort l')
  end.

(** The inner loop of the comparison: the entries of [tokens_set] that
    are [strcmp]-equal to one token of the subset. *)
Fixpoint count_in (token_subset : string) (tokens_set : list string) : nat :=
  match tokens_set with
  | [] => 0
  | token_set :: tokens_set' =>
      (if String.eqb token_set token_subset then 1 else 0)
      + count_in token_subset tokens_set'
  end.

(** The two nested loops: [token_id] counts the equal pairs. *)
Fixpoint count_matches (tokens_set tokens_subset : list string) : nat :=
  match tokens_subset with
  | [] => 0
  | token_subset :: tokens_subset' =>
      count_in token_subset tokens_set + count_matches tokens_set tokens_subset'
  end.

Section Rewriter.

(** [MAX_TOKENS] of [constants.h]: the token arrays have [MAX_TOKENS]
    entries and keep the first [MAX_TOKENS - 1] tokens. *)
Variable MAX_TOKENS : nat.

(** The table-header collaborator ([AK_num_attr], [AK_get_header]): the
    attribute names of a table, none for a table that does not exist. *)
Variable AK_get_header : string -> list string.

(** The root node of the output list: allocated and only its [next]
    set, so its tag and data are whatever the allocator left there. *)
Variable root : list_node.

Definition stored_tokens (s : string) : list string :=
  take (MAX_TOKENS - 1) (tokenize s).

(** [AK_rel_eq_is_subset]. *)
Definition AK_rel_eq_is_subset (list_elem_set list_elem_subset : list_node)
    : exit_status :=
  let tokens_set := stored_tokens (data list_elem_set) in
  let tokens_subset := stored_tokens (data list_elem_subset) in
  let len_set := length tokens_set in
  let len_subset := length tokens_subset in
  if len_set <? len_subset then EXIT_FAILURE
  else
    let token_id := count_matches (qsort tokens_set) (qsort tokens_subset) in
    if negb (token_id =? len_subset) then EXIT_FAILURE else EXIT_SUCCESS.

(** The characters of a C string up to the next [ATTR_ESCAPE]:
    [strcspn(temp, "`")]. *)
Fixpoint strcspn_escape (s : list ascii) : list ascii :=
  match s with
  | [] => []
  | c :: s' => if Ascii.eqb c ATTR_ESCAPE then [] else c :: strcspn_escape s'
  end.

(** The scan of the condition in [AK_rel_eq_can_commute], [rounds]
    iterations left, [next_chr] the index into the [size] bytes of the
    condition.  [temp_cond] is never cleared: a name is copied over its
    start and the rest of an earlier, longer name stays behind it. *)
Fixpoint can_commute_loop (rounds : nat) (tokens : list string)
    (cond : list ascii) (next_chr : nat) (temp_cond : list ascii)
    : exit_status :=
  match rounds with
  | O => EXIT_SUCCESS
  | S rounds' =>
      if next_chr <? S (length cond) then
        if Ascii.eqb (nth next_chr cond zero) ATTR_ESCAPE then
          let temp := drop (S next_chr) cond in
          let name := strcspn_escape temp in
          let temp_cond' := name ++ drop (length name) temp_cond in
          if existsb (String.eqb (string_of_list_ascii temp_cond')) tokens
          then can_commute_loop rounds' tokens cond
                 (next_chr + (length temp_cond' + 1) + 1) temp_cond'
          else EXIT_FAILURE
        else can_commute_loop rounds' tokens cond (S next_chr) temp_cond
      else EXIT_SUCCESS
  end.

(** [AK_rel_eq_can_commute]; every round moves [next_chr] forward, so
    [size] rounds are enough. *)
Definition AK_rel_eq_can_commute (list_elem_attribs list_elem_conds : list_node)
    : exit_status :=
  let cond := list_ascii_of_string (data list_elem_conds) in
  can_commute_loop (S (length cond)) (stored_tokens (data list_elem_attribs))
    cond 0 [].

(** [AK_rel_eq_projection_attributes]: for each stored token of
    [attribs] in turn, the attributes of the table equal to it; [NULL]
    for a table without attributes. *)
Definition AK_rel_eq_projection_attributes (attribs tblName : string)
    : option string :=
  let list_attr := AK_get_header tblName in
  match list_attr with
  | [] => None
  | _ =>
      Some (join_attr
              (flat_map (fun token => List.filter (fun a => String.eqb a token) list_attr)
                 (stored_tokens attribs)))
  end.

(** The scan of [AK_rel_eq_collect_cond_attributes] over the [size]
    bytes of the condition, terminator included.  [inside] is
    [attr_end == 0]; [attr] are the bytes written so far.  The byte
    after an escape is never tested: it is copied after an opening
    escape and skipped after a closing one. *)
Fixpoint collect_loop (temp_cond : list ascii) (inside : bool) (attr : list ascii)
    : list ascii :=
  match temp_cond with
  | [] => attr
  | c :: rest =>
      if Ascii.eqb c ATTR_ESCAPE then
        if inside then
          match rest with
          | [] => attr
          | _ :: rest' => collect_loop rest' false attr
          end
        else
          let attr' := match attr with [] => [] | _ => attr ++ [ATTR_DELIMITER] end in
          match rest with
          | [] => attr'
          | c' :: rest' => collect_loop rest' true (attr' ++ [c'])
          end
      else if inside then collect_loop rest true (attr ++ [c])
      else collect_loop rest false attr
  end.

(** A buffer read as a C string: the bytes before the first
    terminator. *)
Fixpoint c_string (buf : list ascii) : string :=
  match buf with
  | [] => EmptyString
  | c :: buf' => if Ascii.eqb c zero then EmptyString else String c (c_string buf')
  end.

Definition AK_rel_eq_collect_cond_attributes (list_elem : list_node) : string :=
  c_string (collect_loop (list_ascii_of_string (data list_elem) ++ [zero]) false []).

(** First-wins removal of repeated tokens. *)
Fixpoint remove_seen (seen : list string) (tokens : list string) : list string :=
  match tokens with
  | [] => []
  | t :: tokens' =>
      if existsb (String.eqb t) seen then remove_seen (seen ++ [t]) tokens'
      else t :: remove_seen (seen ++ [t]) tokens'
  end.

(** [AK_rel_eq_remove_duplicates]. *)
Definition AK_rel_eq_remove_duplicates (attribs : string) : string :=
  join_attr (remove_seen [] (stored_tokens attribs)).

Definition is_operand_or_attribs (n : list_node) : bool :=
  match type n with
  | TYPE_OPERAND | TYPE_ATTRIBS => true
  | _ => false
  end.

Definition is_attribs (n : list_node) : bool :=
  match type n with TYPE_ATTRIBS => true | _ => false end.

Definition is_operand (n : list_node) : bool :=
  match type n with TYPE_OPERAND => true | _ => false end.

(** [n->data[0] == RO_PROJECTION && n->type == TYPE_OPERATOR]. *)
Definition is_projection (n : list_node) : bool :=
  Ascii.eqb (first_char (data n)) RO_PROJECTION
  && match type n with TYPE_OPERATOR => true | _ => false end.

Definition is_failure (e : exit_status) : bool :=
  match e with EXIT_FAILURE => true | EXIT_SUCCESS => false end.

(** [while (tmp->type != TYPE_OPERAND) tmp = tmp->next] followed by
    [Ak_InsertAfter_L2] of [new2] and then of [new1], both after [tmp]:
    [new1], [new2] end up right after the first operand.  Running off
    the end of the list dereferences [NULL]. *)
Fixpoint insert_after_operand (l : list list_node) (new1 new2 : list_node)
    : option (list list_node) :=
  match l with
  | [] => None
  | tmp :: l' =>
      if is_operand tmp then Some (tmp :: new1 :: new2 :: l')
      else l'' ← insert_after_operand l' new1 new2; Some (tmp :: l'')
  end.

(** The element after the first operand, [tmp->next] once the walk has
    stopped. *)
Fixpoint after_operand (l : list list_node) : option (option list_node) :=
  match l with
  | [] => None
  | tmp :: l' => if is_operand tmp then Some (head l') else after_operand l'
  end.

(** The walk of [case RO_SELECTION].

    Modelled from the spec: the list utilities [Ak_First_L2],
    [Ak_End_L2], [Ak_Next_L2], [Ak_Previous_L2], [Ak_InsertBefore_L2],
    [Ak_InsertAfter_L2] and [Ak_InsertAtEnd_L3] are not among the
    sources.  The rewriter appends tokens to its output and inserts
    tokens before and after tokens it has emitted; the utilities are
    taken to do on a [list_node] what [Ak_First_L] to [Ak_InsertAtEnd_L]
    of [auxiliary.c] do: an insertion leaves the pointer it is given
    where it was, [Ak_Previous_L2] of the first element is the root node
    and of the root node [NULL].

    In the backward walks the output list is held as the elements before
    [temp_elem], nearest first ([before]), [temp_elem] itself, and the
    elements after it. *)
Fixpoint selection_walk (before : list list_node) (temp_elem : list_node)
    (after : list list_node) (list_elem list_elem_next : list_node)
    : option (list list_node) :=
  let temp := rev before ++ temp_elem :: after in
  if is_operand_or_attribs temp_elem then
    let temp_elem_prev := List.hd root before in
    if is_attribs temp_elem
       && is_failure (AK_rel_eq_can_commute temp_elem list_elem_next)
       && is_projection temp_elem_prev
    then Some (temp ++ [list_elem; list_elem_next])
    else if is_projection temp_elem_prev then
      match before with
      | [] => None
      | _ :: before' =>
          Some (rev before'
                ++ [list_elem; list_elem_next; temp_elem_prev; temp_elem]
                ++ after)
      end
    else
      match before with
      | [] =>
          if is_operand_or_attribs root then None
          else Some (temp ++ [list_elem; list_elem_next])
      | p :: before' =>
          selection_walk before' p (temp_elem :: after) list_elem list_elem_next
      end
  else Some (temp ++ [list_elem; list_elem_next]).

(** The walk of [case RO_UNION] and [case RO_INTERSECT]; [step] is the
    counter before its increment. *)
Fixpoint union_walk (before : list list_node) (temp_elem : list_node)
    (after : list list_node) (step : Z) : option (list list_node) :=
  let temp := rev before ++ temp_elem :: after in
  if is_operand_or_attribs temp_elem then
    let step' := (step + 1)%Z in
    let temp_elem_prev := List.hd root before in
    if is_projection temp_elem_prev then
      if (1 <? step')%Z then
        l ← insert_after_operand (temp_elem :: after) temp_elem_prev temp_elem;
        Some (rev before ++ l)
      else Some temp
    else
      match before with
      | [] => if is_operand_or_attribs root then None else Some temp
      | p :: before' => union_walk before' p (temp_elem :: after) step'
      end
  else Some temp.

(** The rewrite of [case RO_THETA_JOIN] once the projection is found
    with [step > 1]: [temp_elem] holds its attributes, [after] the
    elements behind it. *)
Definition theta_rewrite (temp_elem_prev temp_elem : list_node)
    (after : list list_node) (list_elem_next : list_node)
    : option (list list_node) :=
  let has_attributes := AK_rel_eq_can_commute temp_elem list_elem_next in
  temp_elem_next ← head after;
  operand2 ← head (tail after);
  let data1 := AK_rel_eq_projection_attributes (data temp_elem) (data temp_elem_next) in
  let data2 := AK_rel_eq_projection_attributes (data temp_elem) (data operand2) in
  match data1, data2 with
  | Some data1, Some data2 =>
      match has_attributes with
      | EXIT_SUCCESS =>
          let l := mk_node (type temp_elem) data1 :: after in
          insert_after_operand l temp_elem_prev (mk_node (type temp_elem) data2)
      | EXIT_FAILURE =>
          cond1 ← AK_rel_eq_projection_attributes
                    (AK_rel_eq_collect_cond_attributes list_elem_next)
                    (data temp_elem_next);
          let data1' :=
            AK_rel_eq_remove_duplicates
              (data1 ++ String ATTR_DELIMITER cond1)%string in
          let l := temp_elem :: temp_elem_prev
                   :: mk_node (type temp_elem) data1' :: after in
          r ← after_operand l;
          tmp_next ← r;
          cond2 ← AK_rel_eq_projection_attributes
                    (AK_rel_eq_collect_cond_attributes list_elem_next)
                    (data tmp_next);
          let data2' :=
            AK_rel_eq_remove_duplicates
              (data2 ++ String ATTR_DELIMITER cond2)%string in
          insert_after_operand l temp_elem_prev (mk_node (type temp_elem) data2')
      end
  | _, _ => Some (temp_elem :: after)
  end.

(** The walk of [case RO_THETA_JOIN]. *)
Fixpoint theta_walk (before : list list_node) (temp_elem : list_node)
    (after : list list_node) (step : Z) (list_elem_next : list_node)
    : option (list list_node) :=
  let temp := rev before ++ temp_elem :: after in
  if is_operand_or_attribs temp_elem then
    let step' := (step + 1)%Z in
    let temp_elem_prev := List.hd root before in
    if is_projection temp_elem_prev then
      if (1 <? step')%Z then
        l ← theta_rewrite temp_elem_prev temp_elem after list_elem_next;
        Some (rev before ++ l)
      else Some temp
    else
      match before with
      | [] => if is_operand_or_attribs root then None else Some temp
      | p :: before' =>
          theta_walk before' p (temp_elem :: after) step' list_elem_next
      end
  else Some temp.

(** A walk started at [Ak_End_L2(temp)]; [otherwise] when the output is
    still empty. *)
Definition from_end (temp : list list_node)
    (walk : list list_node -> list_node -> list list_node -> option (list list_node))
    (otherwise : option (list list_node)) : option (list list_node) :=
  match rev temp with
  | [] => otherwise
  | temp_elem :: before => walk before temp_elem []
  end.

(** The operator cases of the main loop: the new output list and
    whether the token after the operator is consumed with it.
    [list_elem_next] is [NULL] after the last token; the cases that
    read it fault there. *)
Definition rewrite_operator (temp : list list_node) (list_elem : list_node)
    (next : option list_node) : option (list list_node * bool) :=
  let c := first_char (data list_elem) in
  if Ascii.eqb c RO_PROJECTION then
    list_elem_next ← next;
    match last temp with
    | Some temp_elem =>
        if is_attribs temp_elem then
          if is_failure (AK_rel_eq_is_subset list_elem_next temp_elem)
          then Some (temp ++ [list_elem; list_elem_next], true)
          else Some (temp, true)
        else Some (temp ++ [list_elem; list_elem_next], true)
    | None => Some (temp ++ [list_elem; list_elem_next], true)
    end
  else if Ascii.eqb c RO_SELECTION then
    list_elem_next ← next;
    temp' ← from_end temp
              (fun before temp_elem after =>
                 selection_walk before temp_elem after list_elem list_elem_next)
              (Some (temp ++ [list_elem; list_elem_next]));
    Some (temp', true)
  else if Ascii.eqb c RO_UNION || Ascii.eqb c RO_INTERSECT then
    temp' ← from_end temp
              (fun before temp_elem after => union_walk before temp_elem after (-1))
              (Some temp);
    Some (temp' ++ [list_elem], false)
  else if Ascii.eqb c RO_NAT_JOIN then
    list_elem_next ← next;
    Some (temp ++ [list_elem; list_elem_next], true)
  else if Ascii.eqb c RO_THETA_JOIN then
    list_elem_next ← next;
    temp' ← from_end temp
              (fun before temp_elem after =>
                 theta_walk before temp_elem after (-1) list_elem_next)
              (Some temp);
    Some (temp' ++ [list_elem; list_elem_next], true)
  else if Ascii.eqb c RO_EXCEPT then Some (temp ++ [list_elem], false)
  else if Ascii.eqb c RO_RENAME then Some (temp ++ [list_elem], false)
  else Some (temp, false).

(** The main loop of [AK_rel_eq_projection]: [temp] is the output list,
    [list_rel_eq] what is left of the input. *)
Fixpoint rewrite_loop (temp : list list_node) (list_rel_eq : list list_node)
    : option (list list_node) :=
  match list_rel_eq with
  | [] => Some temp
  | list_elem :: rest =>
      match type list_elem with
      | TYPE_OPERATOR =>
          match rewrite_operator temp list_elem (head rest) with
          | None => None
          | Some (temp', true) =>
              match rest with
              | [] => None
              | _ :: rest' => rewrite_loop temp' rest'
              end
          | Some (temp', false) => rewrite_loop temp' rest
          end
      | TYPE_OPERAND => rewrite_loop (temp ++ [list_elem]) rest
      | TYPE_ATTRIBS => rewrite_loop temp rest
      | TYPE_CONDITION => rewrite_loop temp rest
      | TYPE_OTHER _ => rewrite_loop temp rest
      end
  end.

(** [AK_rel_eq_projection]. *)
Definition AK_rel_eq_projection (list_rel_eq : list list_node)
    : option (list list_node) :=
  rewrite_loop [] list_rel_eq.

(** An output list that a second pass reproduces token for token. *)
Definition fixed (T : list list_node) : Prop :=
  forall X, rewrite_loop [] (T ++ X)%list = rewrite_loop T X.

End Rewriter.

(** ** The properties of the rewriter, as the specification words them *)

(** Every element of the attribute list [a] occurs in [b]. *)
Definition attr_subset (a b : string) : Prop :=
  forall x, x ∈ tokenize a -> x ∈ tokenize b.

Definition attr_subsetb (a b : string) : bool :=
  forallb (fun x => existsb (String.eqb x) (tokenize b)) (tokenize a).

(** Rule 2 (cascade) in the words of the specification: with
    [prev_top] the last attribute-set token of the output, the projection
    [op] with argument [arg] is elided when the attributes of [arg] are a
    subset of those of [prev_top], and appended otherwise. *)
Definition spec_cascade (temp : list list_node) (op arg prev_top : list_node)
    : list list_node :=
  if attr_subsetb (data arg) (data prev_top) then temp
  else (temp ++ [op; arg])%list.

(** The operators whose case walks back over the output and splices
    tokens into it: selection, union, intersect and theta-join. *)
Definition splices (n : list_node) : bool :=
  match type n with
  | TYPE_OPERATOR =>
      let c := first_char (data n) in
      Ascii.eqb c RO_SELECTION || Ascii.eqb c RO_UNION
      || Ascii.eqb c RO_INTERSECT || Ascii.eqb c RO_THETA_JOIN
  | _ => false
  end.

(** The operators whose case reads the token after them. *)
Definition takes_argument (n : list_node) : bool :=
  match type n with
  | TYPE_OPERATOR =>
      let c := first_char (data n) in
      Ascii.eqb c RO_PROJECTION || Ascii.eqb c RO_SELECTION
      || Ascii.eqb c RO_NAT_JOIN || Ascii.eqb c RO_THETA_JOIN
  | _ => false
  end.

(** A stream in which every operator that reads its successor has
    one. *)
Fixpoint arguments_present (l : list list_node) : bool :=
  match l with
  | [] => true
  | n :: rest =>
      if takes_argument n then
        match rest with
        | [] => false
        | _ :: rest' => arguments_present rest'
        end
      else arguments_present rest
  end.

(** A table header without tables and a zeroed root node, for the
    examples that reach neither. *)
Definition no_tables (tblName : string) : list string := [].
Definition zeroed_root : list_node := mk_node (TYPE_OTHER 0) EmptyString.

End Opti.

(** * Shapes of lock tables and of attribute strings

    Predicates and sample values used to state the properties of the
    lock manager and of the attribute utilities. *)

Module LockShapes.
Import Trans.

(** One record for a block address in every bucket. *)
Definition distinct_records (m : lock_manager) : Prop :=
  Forall (fun b => NoDup (address <$> b)) (LockTable m).

(** The table has [NUMBER_OF_KEYS] buckets, every bucket holds one
    record for a block address at most, and every record is in the
    bucket its address hashes to. *)
Definition table_shape (N : Z) (m : lock_manager) : Prop :=
  length (LockTable m) = Z.to_nat N
  /\ forall i b, LockTable m !! i = Some b ->
       NoDup (address <$> b)
       /\ forall e, e ∈ b -> AK_memory_block_hash N (address e) = Z.of_nat i.

(** The waiters of a queue that do not belong to a transaction. *)
Definition waiters_of_others (transactionId : pthread_t)
    (q : list AK_transaction_lock_elem) : list AK_transaction_lock_elem :=
  filter (fun l => TransactionId l <> transactionId) q.

(** The two cases in which the oracle lets a request pass behind the
    head [hd] of a queue. *)
Definition passes_behind (type : lock_mode) (transactionId : pthread_t)
    (hd : AK_transaction_lock_elem) : Prop :=
  (lock_type hd = SHARED_LOCK /\ type = SHARED_LOCK)
  \/ (lock_type hd = EXCLUSIVE_LOCK /\ TransactionId hd = transactionId).

(** The heads of all queues let a request of the transaction pass. *)
Definition heads_pass (N : Z) (type : lock_mode) (transactionId : pthread_t)
    (m : lock_manager) : Prop :=
  forall blk hd,
    head (queue_of N m blk) = Some hd -> passes_behind type transactionId hd.

(** The transaction has a granted waiter of the given mode in the queue
    of the block. *)
Definition holds_lock (N : Z) (self : pthread_t) (type : lock_mode)
    (memoryAddress : Z) (m : lock_manager) : Prop :=
  exists l, l ∈ queue_of N m memoryAddress
    /\ TransactionId l = self /\ lock_type l = type /\ granted l.

(** Allocations that are enough for a transaction: the one at its
    start and, for every block of every command, the node of the address
    list and at most three for the lock (record, observer lock and
    waiter). *)
Definition allocations_bound (addr : string -> Z * Z) (cmds : list command)
    : nat :=
  S (sum_list
       (map (fun c =>
               4 * length (block_range (addr (tblName c)).1 (addr (tblName c)).2))%nat
          cmds)).

(** A storage collaborator that knows two tables: ["student"] in the
    blocks 5 and 6, ["course"] in the block 8. *)
Definition student_and_course (tbl : string) : Z * Z :=
  if String.eqb tbl "student" then (5, 7)
  else if String.eqb tbl "course" then (8, 9) else (0, 0).

(** The table with 7 buckets after transaction 1 took the shared lock
    of block 5. *)
Definition shared_by_one : lock_manager :=
  mk_manager
    [[]; []; []; []; [];
     [mk_elem 5 SHARED_LOCK [mk_lock 0 1 SHARED_LOCK PASS_LOCK_QUEUE]]; []]
    1 7.

(** The same table after transaction 2 took the shared lock too. *)
Definition shared_by_two : lock_manager :=
  mk_manager
    [[]; []; []; []; [];
     [mk_elem 5 SHARED_LOCK
        [mk_lock 0 1 SHARED_LOCK PASS_LOCK_QUEUE;
         mk_lock 1 2 SHARED_LOCK PASS_LOCK_QUEUE]]; []]
    2 6.

End LockShapes.

Module AttrShapes.
Import Opti.
Open Scope nat_scope.

(** The string holds the character [c]. *)
Fixpoint holds (c : ascii) (s : string) : bool :=
  match s with
  | EmptyString => false
  | String c' s' => Ascii.eqb c' c || holds c s'
  end.

(** An attribute name: not empty and without [ATTR_DELIMITER]. *)
Definition attribute_name (s : string) : Prop :=
  s <> EmptyString /\ holds ATTR_DELIMITER s = false.

(** The text of a condition after its first escape: every attribute
    name between two [ATTR_ESCAPE], followed by the text up to the next
    escape. *)
Fixpoint quoted (items : list (string * string)) : string :=
  match items with
  | [] => EmptyString
  | (name, sep) :: items' =>
      (String ATTR_ESCAPE name ++ String ATTR_ESCAPE sep ++ quoted items')%string
  end.

(** The names of a condition text are not longer than the names that
    follow them. *)
Fixpoint lengths_ascend (items : list (string * string)) : Prop :=
  match items with
  | [] => True
  | (name, _) :: items' =>
      match items' with
      | [] => True
      | (name', _) :: _ => String.length name <= String.length name'
      end /\ lengths_ascend items'
  end.

(** A name as it stands between two escapes: not empty, without
    escape and without terminator. *)
Definition quoted_name (name : string) : Prop :=
  name <> EmptyString /\ holds ATTR_ESCAPE name = false
  /\ holds zero name = false.

(** The texts between the names hold no escape, and a name that is
    followed by another one is separated from it. *)
Fixpoint separated (items : list (string * string)) : Prop :=
  match items with
  | [] => True
  | (_, sep) :: items' =>
      holds ATTR_ESCAPE sep = false
      /\ (items' = [] \/ sep <> EmptyString)
      /\ separated items'
  end.

(** What [temp_cond] holds after a name is copied over an earlier
    one. *)
Definition copied_over (name earlier : string) : string :=
  string_of_list_ascii
    (list_ascii_of_string name
     ++ drop (String.length name) (list_ascii_of_string earlier)).

(** The argument of an operator is an attribute list or a condition. *)
Definition is_argument (n : list_node) : bool :=
  match type n with
  | TYPE_ATTRIBS | TYPE_CONDITION => true
  | _ => false
  end.

(** A stream in which the token read as the argument of an operator is
    tagged as an attribute list or as a condition. *)
Fixpoint arguments_tagged (l : list list_node) : bool :=
  match l with
  | [] => true
  | n :: rest =>
      if takes_argument n then
        match rest with
        | [] => true
        | a :: rest' => is_argument a && arguments_tagged rest'
        end
      else arguments_tagged rest
  end.

(** In an output list every projection operator is followed by a token
    that is not an operand. *)
Fixpoint paired (l : list list_node) : Prop :=
  match l with
  | [] => True
  | a :: l' =>
      match l' with
      | [] => is_projection a = false
      | b :: _ => is_projection a = true -> is_operand b = false
      end /\ paired l'
  end.

(** The operand tokens of a stream, in their order. *)
Definition operands (l : list list_node) : list list_node :=
  List.filter is_operand l.

(** The names written to [attr], each after a delimiter but the
    first. *)
Definition add_names (attr : list ascii) (names : list string) : list ascii :=
  fold_left (fun acc n =>
               (match acc with [] => [] | _ => acc ++ [ATTR_DELIMITER] end)
               ++ list_ascii_of_string n) names attr.

(** A table-header collaborator that knows one table, ["student"], with
    three attributes. *)
Definition student_header (tblName : string) : list string :=
  if String.eqb tblName "student" then ["id"; "name"; "year"]%string else [].

End AttrShapes.

(** * The list utilities of [auxiliary.c] *)

Module Auxi.

(** The loop of [AK_chars_num_from_number], [fuel] iterations left:
    [do { len++; } while ((double) (number /= base) > 0)].  [number] and
    [base] are [int]; the division truncates towards zero and has no
    result for a zero [base] or for [INT_MIN / -1]. *)
Fixpoint chars_num_loop (fuel : nat) (number base len : Z) : option Z :=
  match fuel with
  | O => None
  | S fuel' =>
      let len := len + 1 in
      if decide (base = 0 \/ (number = - 2 ^ 31 /\ base = -1)) then None
      else
        let number := Z.quot number base in
        if decide (0 < number) then chars_num_loop fuel' number base len
        else Some len
  end.

(** [AK_chars_num_from_number].  Every iteration but the last leaves a
    positive [number]: after the first one it is [|number|] at most, and
    from then on it gets smaller with [base > 1], stays as it is with
    [base = 1] and ends the loop with [base < 0].  So the loop either
    ends within [|number| + 2] iterations or never; [None] stands for a
    call that does not return. *)
Definition AK_chars_num_from_number (number base : Z) : option Z :=
  chars_num_loop (S (S (Z.to_nat (Z.abs number)))) number base 0.

(** A pointer to a list element; [None] is [NULL]. *)
Definition ptr := option nat.

(** [struct list_elem].  [auxiliary.h], which declares it, is not among
    the sources: the record has the four fields that the functions of
    [auxiliary.c] read and write.  [data] holds the [size] bytes that
    [memcpy] wrote to the array; the rest of the array is never read.
    The root of a list ([AK_list]) is such an element too:
    [Ak_Previous_L] assigns the one to the other and compares them. *)
Record list_elem : Type := mk_list_elem {
  type : Z;
  size : Z;
  data : list ascii;
  next : ptr
}.

(** The heap: the cell at every address handed out so far, [None] once
    it is freed, and the number of allocations [malloc] will still
    serve. *)
Record memory : Type := mk_memory {
  cells : list (option list_elem);
  allocations_left : nat
}.

(** Reading through a pointer: [NULL], an address never handed out and
    a freed cell have no value. *)
Definition load (h : memory) (p : ptr) : option list_elem :=
  a ← p; c ← cells h !! a; c.

Definition store (h : memory) (a : nat) (e : list_elem) : memory :=
  mk_memory (<[a := Some e]> (cells h)) (allocations_left h).

Definition free (h : memory) (a : nat) : memory :=
  mk_memory (<[a := None]> (cells h)) (allocations_left h).

(** [p->next = n]. *)
Definition set_next (h : memory) (p n : ptr) : option memory :=
  a ← p; e ← load h p;
  Some (store h a (mk_list_elem (type e) (size e) (data e) n)).

(** [Ak_Init_L]. *)
Definition Ak_Init_L (L : ptr) (h : memory) : option memory :=
  set_next h L None.

(** [Ak_First_L]. *)
Definition Ak_First_L (L : ptr) (h : memory) : option ptr :=
  root ← load h L; Some (next root).

(** [while (current->next != NULL) current = current->next]. *)
Fixpoint end_loop (fuel : nat) (h : memory) (current : nat) : option nat :=
  match fuel with
  | O => None
  | S fuel' =>
      e ← load h (Some current);
      match next e with
      | None => Some current
      | Some n => end_loop fuel' h n
      end
  end.

(** [Ak_End_L].  A walk that visits more elements than there are cells
    runs in a cycle and does not end. *)
Definition Ak_End_L (L : ptr) (h : memory) : option ptr :=
  current ← Ak_First_L L h;
  match current with
  | None => Some None
  | Some c => r ← end_loop (S (length (cells h))) h c; Some (Some r)
  end.

(** [Ak_Next_L]. *)
Definition Ak_Next_L (current : ptr) (h : memory) : option ptr :=
  match current with
  | None => Some None
  | Some _ => e ← load h current; Some (next e)
  end.

(** [while (previous->next != current) previous = previous->next]. *)
Fixpoint previous_loop (fuel : nat) (h : memory) (previous current : ptr)
    : option ptr :=
  match fuel with
  | O => None
  | S fuel' =>
      e ← load h previous;
      if decide (next e = current) then Some previous
      else previous_loop fuel' h (next e) current
  end.

(** [Ak_Previous_L]. *)
Definition Ak_Previous_L (current L : ptr) (h : memory) : option ptr :=
  if decide (current = None \/ current = L) then Some None
  else previous_loop (S (length (cells h))) h L current.

(** [Ak_IsEmpty_L]. *)
Definition Ak_IsEmpty_L (L : ptr) (h : memory) : option Z :=
  first ← Ak_First_L L h;
  Some (match first with None => 1 | Some _ => 0 end).

(** [malloc] of an element followed by the writes to its fields.  A
    failed [malloc] returns [NULL], which is written through.  [memcpy]
    copies [size] bytes from [data] to the array of the element; the
    code does not test [size].  A copy that runs over the end of the
    buffer at [data] or of the array reads or writes memory that the
    model does not have: the element then holds the bytes that the model
    has, and the call goes on.  The theorems about insertions are stated
    for a request that [fits]. *)
Definition malloc_elem (type : Z) (data : list ascii) (size : Z) (next : ptr)
    (h : memory) : option (nat * memory) :=
  match allocations_left h with
  | O => None
  | S n =>
      Some (length (cells h),
            mk_memory
              (cells h
               ++ [Some (mk_list_elem type size
                           (take (Z.to_nat size) data) next)])
              n)
  end.

(** [Ak_InsertBefore_L]. *)
Definition Ak_InsertBefore_L (type : Z) (data : list ascii) (size : Z)
    (current L : ptr) (h : memory) : option memory :=
  match current with
  | None =>
      '(new_elem, h1) ← malloc_elem type data size None h;
      set_next h1 L (Some new_elem)
  | Some _ =>
      '(new_elem, h1) ← malloc_elem type data size current h;
      previous ← Ak_Previous_L current L h1;
      set_next h1 previous (Some new_elem)
  end.

(** [Ak_InsertAfter_L]. *)
Definition Ak_InsertAfter_L (type : Z) (data : list ascii) (size : Z)
    (current L : ptr) (h : memory) : option memory :=
  match current with
  | None =>
      '(new_elem, h1) ← malloc_elem type data size None h;
      set_next h1 L (Some new_elem)
  | Some _ =>
      e ← load h current;
      '(new_elem, h1) ← malloc_elem type data size (next e) h;
      set_next h1 current (Some new_elem)
  end.

(** [Ak_InsertAtBegin_L]. *)
Definition Ak_InsertAtBegin_L (type : Z) (data : list ascii) (size : Z)
    (L : ptr) (h : memory) : option memory :=
  first ← Ak_First_L L h;
  Ak_InsertBefore_L type data size first L h.

(** [Ak_InsertAtEnd_L]. *)
Definition Ak_InsertAtEnd_L (type : Z) (data : list ascii) (size : Z)
    (L : ptr) (h : memory) : option memory :=
  last ← Ak_End_L L h;
  Ak_InsertAfter_L type data size last L h.

(** [Ak_Delete_L]. *)
Definition Ak_Delete_L (current L : ptr) (h : memory) : option memory :=
  match current with
  | None => Some h
  | Some a =>
      previous ← Ak_Previous_L current L h;
      e ← load h current;
      h1 ← set_next h previous (next e);
      Some (free h1 a)
  end.

(** [while (current = Ak_First_L(L)) { L->next = current->next;
    free(current); }]. *)
Fixpoint delete_all_loop (fuel : nat) (L : ptr) (h : memory) : option memory :=
  match fuel with
  | O => None
  | S fuel' =>
      current ← Ak_First_L L h;
      match current with
      | None => Some h
      | Some a =>
          e ← load h current;
          h1 ← set_next h L (next e);
          delete_all_loop fuel' L (free h1 a)
      end
  end.

(** [Ak_DeleteAll_L]. *)
Definition Ak_DeleteAll_L (L : ptr) (h : memory) : option memory :=
  delete_all_loop (S (length (cells h))) L h.

(** [while (current) { size++; current = Ak_Next_L(current); }]. *)
Fixpoint size_loop (fuel : nat) (h : memory) (current : ptr) (size : Z)
    : option Z :=
  match fuel with
  | O => None
  | S fuel' =>
      match current with
      | None => Some size
      | Some _ =>
          n ← Ak_Next_L current h;
          size_loop fuel' h n (size + 1)
      end
  end.

(** [Ak_Size_L]. *)
Definition Ak_Size_L (L : ptr) (h : memory) : option Z :=
  current ← Ak_First_L L h;
  size_loop (S (length (cells h))) h current 0.

(** [Ak_Retrieve_L]: a copy of the [size] bytes of the element, in a
    buffer of its own; [NULL] for [NULL]. *)
Definition Ak_Retrieve_L (current L : ptr) (h : memory)
    : option (option (list ascii) * memory) :=
  match current with
  | None => Some (None, h)
  | Some _ =>
      e ← load h current;
      match allocations_left h with
      | O => None
      | S n => Some (Some (data e), mk_memory (cells h) n)
      end
  end.

(** [Ak_GetType_L]. *)
Definition Ak_GetType_L (current L : ptr) (h : memory) : option Z :=
  match current with
  | None => Some 0
  | Some _ => e ← load h current; Some (type e)
  end.

(** [Ak_GetSize_L]. *)
Definition Ak_GetSize_L (current L : ptr) (h : memory) : option Z :=
  match current with
  | None => Some 0
  | Some _ => e ← load h current; Some (size e)
  end.

(** [do { if (pos == i) return temp_elem;
          temp_elem = Ak_Next_L(temp_elem); i++; } while (temp_elem)]. *)
Fixpoint get_nth_loop (fuel : nat) (h : memory) (pos i : Z) (temp_elem : ptr)
    : option ptr :=
  match fuel with
  | O => None
  | S fuel' =>
      if decide (pos = i) then Some temp_elem
      else
        n ← Ak_Next_L temp_elem h;
        match n with
        | None => Some None
        | Some _ => get_nth_loop fuel' h pos (i + 1) n
        end
  end.

(** [Ak_GetNth_L]. *)
Definition Ak_GetNth_L (pos : Z) (row : ptr) (h : memory) : option ptr :=
  temp_elem ← Ak_First_L row h;
  get_nth_loop (S (length (cells h))) h pos 0 temp_elem.

(** [while (CurrentElement->next != 0 && CurrentElement != SearchedElement)
      { CurrentElement = CurrentElement->next; i++; }]. *)
Fixpoint position_loop (fuel : nat) (h : memory)
    (CurrentElement SearchedElement : ptr) (i : Z) : option Z :=
  match fuel with
  | O => None
  | S fuel' =>
      e ← load h CurrentElement;
      if decide (next e <> None /\ CurrentElement <> SearchedElement)
      then position_loop fuel' h (next e) SearchedElement (i + 1)
      else Some i
  end.

(** [Ak_Get_Position_Of_Element]. *)
Definition Ak_Get_Position_Of_Element (SearchedElement L : ptr) (h : memory)
    : option Z :=
  position_loop (S (length (cells h))) h L SearchedElement 0.

(** ** Lists in the heap *)

(** The elements reached from [p] by [next], up to the pointer [q],
    are those at the addresses [addrs]. *)
Fixpoint lseg (h : memory) (p : ptr) (addrs : list nat) (q : ptr) : Prop :=
  match addrs with
  | [] => p = q
  | a :: rest =>
      p = Some a /\ exists e, load h (Some a) = Some e /\ lseg h (next e) rest q
  end.

(** [L] is the root, at address [r], of the list of the elements at
    [addrs]: the walk from [L] ends at [NULL] behind the last of them and
    comes by no element twice. *)
Definition is_list (h : memory) (L : ptr) (r : nat) (addrs : list nat) : Prop :=
  L = Some r /\ lseg h L (r :: addrs) None /\ NoDup (r :: addrs).

(** The pointer to the element at position [i], [NULL] outside of the
    list. *)
Definition nth_ptr (addrs : list nat) (i : nat) : ptr := addrs !! i.

(** The type, the size and the bytes of the element at an address. *)
Definition payload (h : memory) (a : nat) : option (Z * Z * list ascii) :=
  e ← load h (Some a); Some (type e, size e, data e).

(** [h'] is [h] with one more element, at the next address: it carries
    the type, the size and the first [sz] bytes of [data]; every element
    of [h] keeps its type, size and bytes, and one allocation is used. *)
Definition adds_element (h h' : memory) (ty sz : Z) (bytes : list ascii)
    : Prop :=
  payload h' (length (cells h)) = Some (ty, sz, take (Z.to_nat sz) bytes)
  /\ (forall b, is_Some (load h (Some b)) -> payload h' b = payload h b)
  /\ allocations_left h = S (allocations_left h').

(** [h'] is [h] with the element at [a] freed: every other element keeps
    its type, size and bytes, and no address is handed out. *)
Definition removes_element (h h' : memory) (a : nat) : Prop :=
  load h' (Some a) = None
  /\ (forall b, b <> a -> payload h' b = payload h b)
  /\ length (cells h') = length (cells h)
  /\ allocations_left h' = allocations_left h.

(** The request that [malloc] and [memcpy] can serve: an allocation is
    left, and [size] bytes can be read from [data] and fit the array of
    an element, which has [MAX_VARCHAR_LENGTH] bytes ([constants.h]). *)
Definition fits (MAX_VARCHAR_LENGTH : Z) (h : memory) (sz : Z)
    (bytes : list ascii) : Prop :=
  (0 < allocations_left h)%nat
  /\ 0 <= sz <= MAX_VARCHAR_LENGTH /\ sz <= Z.of_nat (length bytes).

(** A heap with the root of a list at address 0 and its two elements at
    the addresses 1 and 2, and four allocations left. *)
Definition row_heap : memory :=
  mk_memory
    [Some (mk_list_elem 0 0 [] (Some 1%nat));
     Some (mk_list_elem 1 2 ["a"; "b"]%char (Some 2%nat));
     Some (mk_list_elem 1 1 ["c"]%char None)]
    4.

End Auxi.

(** * Properties of the lock manager *)

Module TransFacts.
Import Trans.

Section LockFacts.
Variable N : Z.

Lemma bucket_at_nonneg T h b : bucket_at T h = Some b -> 0 <= h.
Proof. unfold bucket_at. by case_decide. Qed.

Lemma bucket_at_set_eq T h b b' :
  bucket_at T h = Some b -> bucket_at (set_bucket T h b') h = Some b'.
Proof.
  unfold bucket_at, set_bucket. case_decide; [|done]. intros H1.
  apply list_lookup_insert_eq. by apply lookup_lt_Some in H1.
Qed.

Lemma bucket_at_set_ne T h h' b' :
  0 <= h -> h <> h' -> bucket_at (set_bucket T h b') h' = bucket_at T h'.
Proof.
  unfold bucket_at, set_bucket. intros Hh Hne. case_decide; [|done].
  apply list_lookup_insert_ne. lia.
Qed.

Lemma find_elem_address blk b e : find_elem blk b = Some e -> address e = blk.
Proof.
  induction b as [|x b IH]; simpl; [done|].
  case_decide; [|done]. by intros [= <-].
Qed.

Lemma find_elem_store e blk b :
  find_elem blk (store_elem e b) =
    if decide (address e = blk)
    then match find_elem blk b with Some _ => Some e | None => None end
    else find_elem blk b.
Proof.
  induction b as [|x b IH]; simpl.
  - by case_decide.
  - destruct (decide (address x = address e)) as [E|E]; simpl.
    + repeat case_decide; congruence.
    + rewrite IH. repeat case_decide; congruence.
Qed.

Lemma find_elem_app blk b x :
  find_elem blk (b ++ [x]) =
    match find_elem blk b with
    | Some e => Some e
    | None => if decide (address x = blk) then Some x else None
    end.
Proof.
  induction b as [|y b IH]; simpl.
  - by case_decide.
  - destruct (decide (address y = blk)); [done|apply IH].
Qed.

(** Reading a record after a record was written back. *)
Lemma record_of_store e m blk :
  record_of N (store_record N e m) blk =
    if decide (address e = blk)
    then match record_of N m blk with Some _ => Some e | None => None end
    else record_of N m blk.
Proof.
  unfold record_of, store_record, AK_search_existing_link_for_hook.
  destruct (bucket_at (LockTable m) (AK_memory_block_hash N (address e)))
    as [b|] eqn:Hb; simpl.
  - destruct (decide (AK_memory_block_hash N (address e)
                      = AK_memory_block_hash N blk)) as [E|E].
    + rewrite <- E, (bucket_at_set_eq _ _ _ _ Hb), Hb. simpl.
      rewrite find_elem_store. by case_decide.
    + rewrite bucket_at_set_ne; [|by eapply bucket_at_nonneg|done].
      rewrite decide_False by congruence. done.
  - case_decide; [|done]. subst blk. by rewrite Hb.
Qed.

Lemma record_of_address m blk e : record_of N m blk = Some e -> address e = blk.
Proof.
  unfold record_of, AK_search_existing_link_for_hook.
  destruct (bucket_at _ _); simpl; [|done]. apply find_elem_address.
Qed.

Lemma malloc_table m m' : malloc m = Some m' -> LockTable m' = LockTable m.
Proof. unfold malloc. destruct (heap_left m); [done|]. by intros [= <-]. Qed.

Lemma malloc_next m m' : malloc m = Some m' -> next_lock m' = next_lock m.
Proof. unfold malloc. destruct (heap_left m); [done|]. by intros [= <-]. Qed.

Lemma record_of_table m m' blk :
  LockTable m' = LockTable m -> record_of N m' blk = record_of N m blk.
Proof. unfold record_of. by intros ->. Qed.

(** A record added to the table. *)
Lemma add_hash_entry_spec blk ty m e m' :
  AK_add_hash_entry_list N blk ty m = Some (e, m') ->
  record_of N m' blk = Some e /\
  address e = blk /\
  next_lock m' = next_lock m /\
  (record_of N m blk = None -> e = mk_elem blk ty []) /\
  (forall e0, record_of N m blk = Some e0 -> e = e0 /\ m' = m) /\
  (forall blk', blk' <> blk -> record_of N m' blk' = record_of N m blk').
Proof.
  unfold AK_add_hash_entry_list, record_of, AK_search_existing_link_for_hook.
  destruct (bucket_at (LockTable m) (AK_memory_block_hash N blk))
    as [b|] eqn:Hb; simpl; [|done].
  destruct (find_elem blk b) as [root|] eqn:Hf.
  - intros [= <- <-]. rewrite Hb. simpl. split_and!; try done.
    + by eapply find_elem_address.
    + by intros e0 [= ->].
  - destruct (malloc m) as [m1|] eqn:H1; simpl; [|done].
    destruct (malloc m1) as [m2|] eqn:H2; simpl; [|done].
    intros [= <- <-]. simpl.
    rewrite (malloc_table _ _ H2), (malloc_table _ _ H1),
      (malloc_next _ _ H2), (malloc_next _ _ H1).
    split_and!; try done.
    + rewrite (bucket_at_set_eq _ _ _ _ Hb). simpl. rewrite find_elem_app, Hf.
      simpl. by rewrite decide_True.
    + intros blk' Hne.
      destruct (decide (AK_memory_block_hash N blk
                        = AK_memory_block_hash N blk')) as [E|E].
      * rewrite <- E, (bucket_at_set_eq _ _ _ _ Hb), Hb. simpl.
        rewrite find_elem_app. destruct (find_elem blk' b); [done|].
        simpl. by rewrite decide_False.
      * rewrite bucket_at_set_ne; [done|by eapply bucket_at_nonneg|done].
Qed.


Lemma isLock_waiting_same h ty tid lock h' w :
  AK_isLock_waiting h ty tid lock = Some (h', w) ->
  DLLLocks h' = DLLLocks h /\ address h' = address h.
Proof.
  unfold AK_isLock_waiting. destruct (DLLLocks h) as [|tmp q] eqn:Hq; [done|].
  repeat (case_decide || case_match); intros [= <- <-]; simpl; by rewrite ?Hq.
Qed.

(** The verdict of the oracle read off the queue alone. *)
Lemma isLock_waiting_verdict h ty tid lock h' w :
  AK_isLock_waiting h ty tid lock = Some (h', w) ->
  exists tmp, head (DLLLocks h) = Some tmp /\
    (w = PASS_LOCK_QUEUE <->
       lock_ptr tmp = lock
       \/ (lock_type tmp = SHARED_LOCK /\ ty = SHARED_LOCK)
       \/ (lock_type tmp = EXCLUSIVE_LOCK /\ TransactionId tmp = tid)).
Proof.
  unfold AK_isLock_waiting. destruct (DLLLocks h) as [|tmp q] eqn:Hq; [done|].
  intros H. exists tmp. split; [done|].
  repeat (case_decide || case_match); injection H as <- <-;
    split; try done; try tauto; intros [?|[[? ?]|[? ?]]]; congruence.
Qed.

Lemma store_record_next e m : next_lock (store_record N e m) = next_lock m.
Proof. unfold store_record. by destruct (bucket_at _ _). Qed.

Lemma create_lock_spec blk ty tid m lock m' :
  AK_create_lock N blk ty tid m = Some (lock, m') ->
  lock = next_lock m /\ next_lock m' = S (next_lock m) /\
  (exists e h w,
      let node := mk_lock lock tid ty WAIT_FOR_UNLOCK in
      address e = blk /\
      DLLLocks e = queue_of N m blk /\
      AK_isLock_waiting (set_DLLLocks (DLLLocks e ++ [node]) e) ty tid lock
        = Some (h, w) /\
      record_of N m' blk
        = Some (set_DLLLocks (store_isWaiting lock w (DLLLocks e ++ [node])) h)) /\
  (forall blk', blk' <> blk -> record_of N m' blk' = record_of N m blk').
Proof.
  unfold AK_create_lock.
  destruct (AK_search_existing_link_for_hook N (LockTable m) blk)
    as [r|] eqn:Hs; simpl; [|done].
  assert (Hr : record_of N m blk = r) by (unfold record_of; by rewrite Hs).
  destruct (match r with
            | Some elem => Some (elem, m)
            | None => AK_add_hash_entry_list N blk ty m
            end) as [[elem m1]|] eqn:Ha; simpl; [|done].
  assert (Hm1 : record_of N m1 blk = Some elem /\ address elem = blk /\
                next_lock m1 = next_lock m /\
                DLLLocks elem = queue_of N m blk /\
                forall blk', blk' <> blk ->
                  record_of N m1 blk' = record_of N m blk').
  { unfold queue_of. destruct r as [e0|].
    - injection Ha as <- <-. rewrite Hr. split_and!; try done.
      by eapply record_of_address.
    - apply add_hash_entry_spec in Ha as (H1 & H2 & H3 & H4 & _ & H6).
      rewrite Hr. split_and!; try done. by rewrite (H4 Hr). }
  destruct Hm1 as (Hrec & Haddr & Hnext & Hq & Hother).
  unfold AK_add_lock.
  destruct (malloc m1) as [m2|] eqn:H2; simpl; [|done].
  rewrite (malloc_next _ _ H2).
  destruct (AK_isLock_waiting _ ty tid (next_lock m1)) as [[h w]|] eqn:Ho;
    simpl; [|done].
  intros [= <- <-].
  pose proof (isLock_waiting_same _ _ _ _ _ _ Ho) as [Hq' Ha'].
  simpl in Hq', Ha'.
  split; [exact Hnext|].
  split; [rewrite store_record_next; simpl; by rewrite Hnext|].
  split.
  - exists elem, h, w. simpl. split_and!; try done.
    rewrite record_of_store. simpl. rewrite decide_True by congruence.
    rewrite (record_of_table m1) by (simpl; by eapply malloc_table).
    rewrite Hrec. by rewrite Hq'.
  - intros blk' Hne. rewrite record_of_store. simpl.
    rewrite decide_False by congruence.
    rewrite (record_of_table m1) by (simpl; by eapply malloc_table).
    by apply Hother.
Qed.

Lemma recheck_spec blk ty tid lock m w m' :
  AK_acquire_lock_recheck N blk ty tid lock m = Some (w, m') ->
  next_lock m' = next_lock m /\
  (exists e h,
      record_of N m blk = Some e /\
      AK_isLock_waiting e ty tid lock = Some (h, w) /\
      record_of N m' blk
        = Some (set_DLLLocks (store_isWaiting lock w (DLLLocks e)) h)) /\
  (forall blk', blk' <> blk -> record_of N m' blk' = record_of N m blk').
Proof.
  unfold AK_acquire_lock_recheck.
  destruct (AK_search_existing_link_for_hook N (LockTable m) blk)
    as [r|] eqn:Hs; simpl; [|done].
  destruct r as [tmp|]; simpl; [|done].
  assert (Hr : record_of N m blk = Some tmp) by (unfold record_of; by rewrite Hs).
  destruct (AK_isLock_waiting tmp ty tid lock) as [[h w0]|] eqn:Ho; simpl; [|done].
  intros [= <- <-].
  pose proof (isLock_waiting_same _ _ _ _ _ _ Ho) as [Hq' Ha'].
  pose proof (record_of_address _ _ _ Hr) as Haddr.
  split; [apply store_record_next|]. split.
  - exists tmp, h. split_and!; try done.
    rewrite record_of_store. simpl. rewrite decide_True by congruence.
    by rewrite Hr, Hq'.
  - intros blk' Hne. rewrite record_of_store. simpl.
    by rewrite decide_False by congruence.
Qed.


Lemma queue_shrink_refl m : queue_shrink N m m.
Proof. split; [done|]. intros blk. by destruct (record_of N m blk). Qed.

Lemma queue_shrink_trans m1 m2 m3 :
  queue_shrink N m1 m2 -> queue_shrink N m2 m3 -> queue_shrink N m1 m3.
Proof.
  intros [Hn1 H1] [Hn2 H2]. split; [congruence|]. intros blk.
  specialize (H1 blk). specialize (H2 blk).
  destruct (record_of N m1 blk), (record_of N m2 blk), (record_of N m3 blk);
    try done. by etrans.
Qed.

Lemma delete_lock_loop_spec rounds holder d id :
  address (delete_lock_loop N rounds holder d id) = address holder /\
  DLLLocks (delete_lock_loop N rounds holder d id) `sublist_of` DLLLocks holder.
Proof.
  revert holder d. induction rounds as [|r IH]; intros holder d; simpl.
  - split; [done|]. apply sublist_filter.
  - destruct (AK_search_lock_entry_list_by_key N _ id) as [d'|].
    + destruct (IH (set_DLLLocks (unlink_lock (lock_ptr d) (DLLLocks holder)) holder) d')
        as [H1 H2]. split; [by rewrite H1|].
      etrans; [exact H2|]. simpl. apply sublist_filter.
    + split; [done|]. apply sublist_filter.
Qed.

Lemma delete_lock_entry_shrink blk tid m st m' :
  AK_delete_lock_entry_list N blk tid m = Some (st, m') -> queue_shrink N m m'.
Proof.
  unfold AK_delete_lock_entry_list.
  destruct (AK_search_existing_link_for_hook N (LockTable m) blk)
    as [r|] eqn:Hs; simpl; [|done].
  destruct r as [holder|]; simpl; [|done].
  assert (Hr : record_of N m blk = Some holder) by (unfold record_of; by rewrite Hs).
  destruct (AK_search_lock_entry_list_by_key N holder tid) as [d|].
  - intros [= <- <-]. split; [apply store_record_next|]. intros blk'.
    rewrite record_of_store.
    destruct (delete_lock_loop_spec (length (DLLLocks holder)) holder d tid)
      as [Ha Hq].
    rewrite Ha, (record_of_address _ _ _ Hr).
    case_decide as E.
    + subst blk'. by rewrite Hr.
    + by destruct (record_of N m blk').
  - intros [= <- <-]. apply queue_shrink_refl.
Qed.

Lemma release_locks_shrink addrs tid m m' :
  AK_release_locks N addrs tid m = Some m' -> queue_shrink N m m'.
Proof.
  revert m. induction addrs as [|a addrs IH]; intros m; simpl.
  - intros [= <-]. apply queue_shrink_refl.
  - destruct (AK_delete_lock_entry_list N a tid m) as [[st m1]|] eqn:Hd;
      simpl; [|done].
    destruct (AK_search_existing_link_for_hook N (LockTable m1) a) as [r|];
      simpl; [|done].
    destruct r; simpl; [|done].
    intros H. eapply queue_shrink_trans; [by eapply delete_lock_entry_shrink|].
    by apply IH.
Qed.


Lemma step_keeps_record a m m' blk :
  step N a m = Some m' ->
  is_Some (record_of N m blk) -> is_Some (record_of N m' blk).
Proof.
  destruct a as [blk0 ty tid|blk0 lock|addrs tid]; simpl.
  - destruct (AK_create_lock N blk0 ty tid m) as [[lock m1]|] eqn:Hc;
      simpl; [|done].
    intros [= <-]. apply create_lock_spec in Hc as (_ & _ & (e & h & w & He) & Ho).
    destruct (decide (blk = blk0)) as [->|Hne].
    + destruct He as (_ & _ & _ & ->). by eexists.
    + by rewrite Ho.
  - destruct (AK_search_existing_link_for_hook N (LockTable m) blk0) as [r|];
      simpl; [|done].
    destruct r as [tmp|]; simpl; [|done].
    destruct (find_lock lock (DLLLocks tmp)) as [l|]; simpl; [|done].
    destruct (isWaiting l); [|done].
    destruct (AK_acquire_lock_recheck N blk0 _ _ lock m) as [[w m1]|] eqn:Hc;
      simpl; [|done].
    intros [= <-]. apply recheck_spec in Hc as (_ & (e & h & _ & _ & He) & Ho).
    destruct (decide (blk = blk0)) as [->|Hne].
    + rewrite He. by eexists.
    + by rewrite Ho.
  - intros H [e He]. apply release_locks_shrink in H as [_ H].
    specialize (H blk). rewrite He in H.
    destruct (record_of N m' blk); [by eexists|done].
Qed.

Lemma run_keeps_record acts m m' blk :
  run N acts m = Some m' ->
  is_Some (record_of N m blk) -> is_Some (record_of N m' blk).
Proof.
  revert m. induction acts as [|a acts IH]; intros m; simpl.
  - by intros [= <-].
  - destruct (step N a m) as [m1|] eqn:Hs; simpl; [|done].
    intros H Hr. eapply IH; [done|]. by eapply step_keeps_record.
Qed.

Lemma record_of_search m blk e :
  record_of N m blk = Some e <->
  AK_search_existing_link_for_hook N (LockTable m) blk = Some (Some e).
Proof.
  unfold record_of.
  destruct (AK_search_existing_link_for_hook N (LockTable m) blk) as [r|];
    simpl; [|done].
  split; [by intros ->|by intros [= ->]].
Qed.

(** Releasing the only waiter of a queue. *)
Lemma release_last_waiter blk l m e :
  record_of N m blk = Some e -> DLLLocks e = [l] ->
  exists m' e',
    AK_release_locks N [blk] (TransactionId l) m = Some m'
    /\ record_of N m' blk = Some e' /\ DLLLocks e' = [].
Proof.
  intros He Hq. pose proof (record_of_address _ _ _ He) as Ha.
  assert (Hd : AK_delete_lock_entry_list N blk (TransactionId l) m
               = Some (OK, store_record N (set_DLLLocks [] e) m)).
  { unfold AK_delete_lock_entry_list.
    rewrite (proj1 (record_of_search _ _ _) He). simpl.
    unfold AK_search_lock_entry_list_by_key at 1. rewrite Hq.
    rewrite decide_True by done. simpl.
    assert (unlink_lock (lock_ptr l) (DLLLocks e) = []) as ->.
    { rewrite Hq. unfold unlink_lock.
      rewrite filter_cons, decide_False by (intros H; by apply H).
      apply filter_nil. }
    done. }
  assert (Hr : record_of N (store_record N (set_DLLLocks [] e) m) blk
               = Some (set_DLLLocks [] e)).
  { rewrite record_of_store. simpl. rewrite decide_True by done. by rewrite He. }
  exists (store_record N (set_DLLLocks [] e) m), (set_DLLLocks [] e).
  split; [|done]. simpl. rewrite Hd. simpl.
  by rewrite (proj1 (record_of_search _ _ _) Hr).
Qed.

(** C4 (as amended).  No acquire, wake-up or release step takes a record
    out of its bucket: a block that has a record keeps one along every
    execution.  In particular, when release removes the last waiter of a
    queue, the record stays in its bucket with an empty queue. *)
Theorem records_are_kept :
  (forall acts m m' blk,
      run N acts m = Some m' ->
      is_Some (record_of N m blk) -> is_Some (record_of N m' blk))
  /\ (forall blk l m e,
        record_of N m blk = Some e -> DLLLocks e = [l] ->
        exists m' e',
          AK_release_locks N [blk] (TransactionId l) m = Some m'
          /\ record_of N m' blk = Some e' /\ DLLLocks e' = []).
Proof. split; [apply run_keeps_record|apply release_last_waiter]. Qed.

Lemma search_lock_loop_member c q i id d :
  search_lock_loop c q i id = Some d -> d ∈ q.
Proof.
  revert i. induction c as [|c IH]; intros i; simpl; [done|].
  destruct (q !! i) as [x|] eqn:Hx; [|done].
  case_decide; [|apply IH]. intros [= <-]. by eapply list_elem_of_lookup_2.
Qed.

Lemma search_lock_entry_member holder id d :
  AK_search_lock_entry_list_by_key N holder id = Some d -> d ∈ DLLLocks holder.
Proof.
  unfold AK_search_lock_entry_list_by_key.
  destruct (DLLLocks holder) as [|x q] eqn:Hq; [done|].
  case_decide; [intros [= <-]; left|]. apply search_lock_loop_member.
Qed.

Lemma unlink_lock_shorter d q :
  d ∈ q -> (length (unlink_lock (lock_ptr d) q) < length q)%nat.
Proof.
  intros Hd. unfold unlink_lock. eapply length_filter_lt; [exact Hd|].
  intros H. by apply H.
Qed.

(** The rounds given to the loop of [AK_delete_lock_entry_list] are
    enough: more rounds change nothing. *)
Lemma delete_lock_loop_rounds r holder d id :
  d ∈ DLLLocks holder -> (length (DLLLocks holder) <= r)%nat ->
  delete_lock_loop N (S r) holder d id = delete_lock_loop N r holder d id.
Proof.
  revert holder d. induction r as [|r IH]; intros holder d Hd Hlen.
  - destruct (DLLLocks holder); [by apply elem_of_nil in Hd|simpl in Hlen; lia].
  - change (delete_lock_loop N (S (S r)) holder d id) with
      (let holder' :=
         set_DLLLocks (unlink_lock (lock_ptr d) (DLLLocks holder)) holder in
       match AK_search_lock_entry_list_by_key N holder' id with
       | Some d' => delete_lock_loop N (S r) holder' d' id
       | None => holder'
       end).
    change (delete_lock_loop N (S r) holder d id) with
      (let holder' :=
         set_DLLLocks (unlink_lock (lock_ptr d) (DLLLocks holder)) holder in
       match AK_search_lock_entry_list_by_key N holder' id with
       | Some d' => delete_lock_loop N r holder' d' id
       | None => holder'
       end).
    simpl.
    destruct (AK_search_lock_entry_list_by_key N _ id) as [d'|] eqn:Hs; [|done].
    apply IH.
    + by apply search_lock_entry_member in Hs.
    + simpl. pose proof (unlink_lock_shorter d _ Hd). lia.
Qed.

End LockFacts.

Section Fifo.
Variable N : Z.

Lemma store_isWaiting_ptrs p w q :
  lock_ptr <$> store_isWaiting p w q = lock_ptr <$> q.
Proof.
  unfold store_isWaiting. induction q as [|l q IH]; [done|].
  simpl. f_equal; [|exact IH]. by case_decide.
Qed.

Lemma store_isWaiting_lookup p w q j l' :
  store_isWaiting p w q !! j = Some l' ->
  exists l, q !! j = Some l /\
    l' = if decide (lock_ptr l = p) then set_isWaiting w l else l.
Proof.
  unfold store_isWaiting. intros H.
  change (map ?f q) with (f <$> q) in H.
  rewrite list_lookup_fmap in H.
  destruct (q !! j) as [l|]; [|done]. injection H as <-. by exists l.
Qed.

Lemma queue_of_record m blk e :
  record_of N m blk = Some e -> queue_of N m blk = DLLLocks e.
Proof. unfold queue_of. by intros ->. Qed.

Lemma init_no_record heap blk : record_of N (init N heap) blk = None.
Proof.
  unfold record_of, AK_search_existing_link_for_hook, init, bucket_at. simpl.
  case_decide; [|done].
  destruct (replicate (Z.to_nat N) [] !! _) as [b|] eqn:Hb; [|done].
  apply lookup_replicate in Hb as [-> _]. done.
Qed.

Lemma ptr_inv_init heap : ptr_inv N (init N heap).
Proof.
  intros blk. unfold queue_of. rewrite init_no_record. split; [constructor|].
  intros l Hl. by apply elem_of_nil in Hl.
Qed.

Lemma ptr_inv_step a m m' : step N a m = Some m' -> ptr_inv N m -> ptr_inv N m'.
Proof.
  intros Hs Hinv blk. destruct (Hinv blk) as [Hnd Hlt].
  destruct a as [blk0 ty tid|blk0 lock|addrs tid]; simpl in Hs.
  - destruct (AK_create_lock N blk0 ty tid m) as [[lock m1]|] eqn:Hc;
      simpl in Hs; [|done].
    injection Hs as <-.
    apply create_lock_spec in Hc as (-> & Hn & (e & h & w & _ & Hq & _ & He) & Ho).
    destruct (decide (blk = blk0)) as [->|Hne].
    + rewrite (queue_of_record _ _ _ He). simpl.
      rewrite store_isWaiting_ptrs, fmap_app, Hq, Hn. simpl. split.
      * apply NoDup_app. split_and!; [done| |apply NoDup_singleton].
        intros p Hp Hp'. apply list_elem_of_singleton in Hp'. subst p.
        apply list_elem_of_fmap in Hp as (l & Hl1 & Hl2).
        apply Hlt in Hl2. lia.
      * intros l Hl. apply (list_elem_of_fmap_2 lock_ptr) in Hl.
        rewrite store_isWaiting_ptrs, fmap_app in Hl.
        apply elem_of_app in Hl as [Hl|Hl].
        -- apply list_elem_of_fmap in Hl as (l0 & -> & Hl0). apply Hlt in Hl0. lia.
        -- simpl in Hl. apply list_elem_of_singleton in Hl. lia.
    + unfold queue_of in *. rewrite (Ho _ Hne), Hn. split; [done|].
      intros l Hl. apply Hlt in Hl. lia.
  - destruct (AK_search_existing_link_for_hook N (LockTable m) blk0) as [r|];
      simpl in Hs; [|done].
    destruct r as [tmp|]; simpl in Hs; [|done].
    destruct (find_lock lock (DLLLocks tmp)) as [l|]; simpl in Hs; [|done].
    destruct (isWaiting l); [|done].
    destruct (AK_acquire_lock_recheck N blk0 _ _ lock m) as [[w m1]|] eqn:Hc;
      simpl in Hs; [|done].
    injection Hs as <-.
    apply recheck_spec in Hc as (Hn & (e & h & He0 & _ & He) & Ho).
    destruct (decide (blk = blk0)) as [->|Hne].
    + rewrite (queue_of_record _ _ _ He). simpl.
      rewrite (queue_of_record _ _ _ He0) in Hnd, Hlt.
      rewrite store_isWaiting_ptrs, Hn. split; [done|].
      intros l0 Hl. apply (list_elem_of_fmap_2 lock_ptr) in Hl.
      rewrite store_isWaiting_ptrs in Hl.
      apply list_elem_of_fmap in Hl as (l1 & -> & Hl1). by apply Hlt.
    + unfold queue_of in *. by rewrite (Ho _ Hne), Hn.
  - apply release_locks_shrink in Hs as [Hn Hs]. specialize (Hs blk).
    unfold queue_of in *. rewrite Hn.
    destruct (record_of N m blk) as [e|], (record_of N m' blk) as [e'|];
      try done.
    split.
    + eapply (sublist_NoDup _ (lock_ptr <$> DLLLocks e)); [exact Hnd|by apply fmap_sublist].
    + intros l Hl. apply Hlt. by eapply elem_of_sublist.
Qed.

Lemma ptr_inv_run acts m m' : run N acts m = Some m' -> ptr_inv N m -> ptr_inv N m'.
Proof.
  revert m. induction acts as [|a acts IH]; intros m; simpl.
  - by intros [= <-].
  - destruct (step N a m) as [m1|] eqn:Hs; simpl; [|done].
    intros H Hinv. eapply IH; [done|]. by eapply ptr_inv_step.
Qed.

Lemma same_ptr_same_node (q : list AK_transaction_lock_elem) i j l1 l2 :
  NoDup (lock_ptr <$> q) ->
  q !! i = Some l1 -> q !! j = Some l2 -> lock_ptr l1 = lock_ptr l2 ->
  i = j /\ l1 = l2.
Proof.
  intros Hnd H1 H2 Hp.
  assert (i = j).
  { eapply NoDup_lookup; [exact Hnd| |].
    - rewrite list_lookup_fmap, H1. done.
    - rewrite list_lookup_fmap, H2. simpl. by rewrite Hp. }
  subst j. split; [done|]. congruence.
Qed.

Lemma find_lock_Some lock q l :
  find_lock lock q = Some l -> lock_ptr l = lock /\ l ∈ q.
Proof.
  unfold find_lock. intros H. apply find_some in H as [H1 H2].
  apply Nat.eqb_eq in H2. split; [done|]. by apply list_elem_of_In.
Qed.

Lemma head_store_isWaiting p w q l :
  head q = Some l -> lock_ptr l <> p -> head (store_isWaiting p w q) = Some l.
Proof.
  destruct q as [|l0 q]; [done|]. simpl. intros [= ->] Hne.
  by rewrite decide_False.
Qed.

(** A step that grants a waiter behind the head of its queue. *)
Lemma grant_behind_head a m m' blk j w2 :
  ptr_inv N m ->
  step N a m = Some m' ->
  queue_of N m' blk !! j = Some w2 -> (0 < j)%nat -> granted w2 ->
  ~ granted_in N m blk (lock_ptr w2) ->
  exists h, head (queue_of N m' blk) = Some h /\
    ((lock_type h = SHARED_LOCK /\ lock_type w2 = SHARED_LOCK)
     \/ (lock_type h = EXCLUSIVE_LOCK /\ TransactionId h = TransactionId w2)).
Proof.
  intros Hinv Hs Hj Hpos Hg Hnot. destruct (Hinv blk) as [Hnd Hlt].
  assert (Hold : forall l, l ∈ queue_of N m blk -> l <> w2).
  { intros l Hl ->. apply Hnot. by exists w2. }
  destruct a as [blk0 ty tid|blk0 lock|addrs tid]; simpl in Hs.
  - destruct (AK_create_lock N blk0 ty tid m) as [[lock m1]|] eqn:Hc;
      simpl in Hs; [|done].
    injection Hs as <-.
    apply create_lock_spec in Hc as (-> & Hn & (e & h & w & _ & Hq & Hw & He) & Ho).
    destruct (decide (blk = blk0)) as [->|Hne].
    2:{ exfalso. unfold queue_of in *. rewrite (Ho _ Hne) in Hj.
        apply (Hold w2); [|done]. by eapply list_elem_of_lookup_2. }
    rewrite (queue_of_record _ _ _ He) in *. simpl in *.
    apply store_isWaiting_lookup in Hj as (l0 & Hl0 & ->).
    rewrite Hq in *.
    apply isLock_waiting_verdict in Hw as (tmp & Htmp & Hv). simpl in Htmp.
    destruct (queue_of N m blk0) as [|x q] eqn:Hqq.
    { destruct j; [lia|done]. }
    simpl in Htmp. injection Htmp as <-.
    assert (Hx : lock_ptr x <> next_lock m).
    { specialize (Hlt x ltac:(left)). lia. }
    exists x. split; [by apply head_store_isWaiting|].
    case_decide as Hp.
    + unfold granted in Hg. simpl in Hg. subst w.
      apply lookup_app_Some in Hl0 as [Hl0|[_ Hl0]].
      * apply list_elem_of_lookup_2 in Hl0. apply Hlt in Hl0. lia.
      * destruct (j - length (x :: q))%nat; [|done]. injection Hl0 as <-. simpl.
        destruct (proj1 Hv eq_refl) as [?|[[? ?]|[? ?]]]; [done|by left|by right].
    + exfalso. apply lookup_app_Some in Hl0 as [Hl0|[_ Hl0]].
      * apply (Hold l0); [|done]. by eapply list_elem_of_lookup_2.
      * destruct (j - length (x :: q))%nat; [|done]. injection Hl0 as <-. done.
  - destruct (AK_search_existing_link_for_hook N (LockTable m) blk0) as [r|] eqn:Hsr;
      simpl in Hs; [|done].
    destruct r as [tmp|]; simpl in Hs; [|done].
    destruct (find_lock lock (DLLLocks tmp)) as [l|] eqn:Hfind; simpl in Hs; [|done].
    destruct (isWaiting l) eqn:Hwl; [|done].
    destruct (AK_acquire_lock_recheck N blk0 _ _ lock m) as [[w m1]|] eqn:Hc;
      simpl in Hs; [|done].
    injection Hs as <-.
    assert (Hrec : record_of N m blk0 = Some tmp) by (unfold record_of; by rewrite Hsr).
    apply recheck_spec in Hc as (Hn & (e & h & He0 & Hw & He) & Ho).
    rewrite Hrec in He0. injection He0 as <-.
    destruct (decide (blk = blk0)) as [->|Hne].
    2:{ exfalso. unfold queue_of in *. rewrite (Ho _ Hne) in Hj.
        apply (Hold w2); [|done]. by eapply list_elem_of_lookup_2. }
    rewrite (queue_of_record _ _ _ He) in *. simpl in *.
    rewrite (queue_of_record _ _ _ Hrec) in *.
    apply store_isWaiting_lookup in Hj as (l0 & Hl0 & ->).
    apply find_lock_Some in Hfind as [Hpl Hin].
    apply list_elem_of_lookup_1 in Hin as [i Hi].
    apply isLock_waiting_verdict in Hw as (x & Hx & Hv).
    case_decide as Hp.
    + destruct (same_ptr_same_node _ _ _ _ _ Hnd Hi Hl0 ltac:(congruence)) as [-> ->].
      unfold granted in Hg. simpl in Hg. subst w. simpl.
      assert (Hxp : lock_ptr x <> lock).
      { intros Hxp. destruct (DLLLocks tmp) as [|y q] eqn:Hqq; [done|].
        simpl in Hx. injection Hx as ->.
        destruct (same_ptr_same_node (x :: q) 0 j x l0 Hnd eq_refl Hl0
                    ltac:(congruence)) as [? _]. lia. }
      exists x. split; [by apply head_store_isWaiting|].
      destruct (proj1 Hv eq_refl) as [?|[[? ?]|[? ?]]]; [done|by left|by right].
    + exfalso. apply (Hold l0); [|done]. by eapply list_elem_of_lookup_2.
  - exfalso. apply release_locks_shrink in Hs as [_ Hs]. specialize (Hs blk).
    unfold queue_of in *.
    destruct (record_of N m blk) as [e|], (record_of N m' blk) as [e'|];
      try done.
    apply (Hold w2); [|done]. eapply elem_of_sublist; [|exact Hs].
    by eapply list_elem_of_lookup_2.
Qed.

(** T1 holds shared alone; T2 enqueues exclusive; T3 enqueues shared. *)
Lemma shared_passes_exclusive m blk l1 t2 t3 m2 m3 :
  ptr_inv N m ->
  queue_of N m blk = [l1] -> lock_type l1 = SHARED_LOCK ->
  step N (Acquire blk EXCLUSIVE_LOCK t2) m = Some m2 ->
  step N (Acquire blk SHARED_LOCK t3) m2 = Some m3 ->
  queue_of N m3 blk =
    [l1; mk_lock (next_lock m) t2 EXCLUSIVE_LOCK WAIT_FOR_UNLOCK;
     mk_lock (S (next_lock m)) t3 SHARED_LOCK PASS_LOCK_QUEUE].
Proof.
  intros Hinv Hq Hty H2 H3. simpl in H2, H3.
  destruct (AK_create_lock N blk EXCLUSIVE_LOCK t2 m) as [[k2 m2']|] eqn:Hc2;
    simpl in H2; [|done]. injection H2 as ->.
  destruct (AK_create_lock N blk SHARED_LOCK t3 m2) as [[k3 m3']|] eqn:Hc3;
    simpl in H3; [|done]. injection H3 as ->.
  assert (Hp1 : (lock_ptr l1 < next_lock m)%nat).
  { apply (proj2 (Hinv blk)). rewrite Hq. left. }
  apply create_lock_spec in Hc2 as (-> & Hn2 & (e & h & w & _ & Hqe & Hw & He) & _).
  rewrite Hq in Hqe. rewrite Hqe in Hw, He. simpl in Hw, He.
  apply isLock_waiting_verdict in Hw as (tmp & Htmp & Hv).
  simpl in Htmp. injection Htmp as <-.
  assert (w = WAIT_FOR_UNLOCK) as ->.
  { destruct w; [done|]. destruct (proj1 Hv eq_refl) as [?|[[? ?]|[? ?]]];
      [lia|done|congruence]. }
  rewrite decide_False in He by lia. rewrite decide_True in He by done.
  apply create_lock_spec in Hc3 as (-> & Hn3 & (e3 & h3 & w3 & _ & Hqe3 & Hw3 & He3) & _).
  rewrite (queue_of_record _ _ _ He) in Hqe3. simpl in Hqe3.
  rewrite Hqe3 in Hw3, He3. simpl in Hw3, He3.
  apply isLock_waiting_verdict in Hw3 as (tmp & Htmp & Hv3).
  simpl in Htmp. injection Htmp as <-.
  assert (w3 = PASS_LOCK_QUEUE) as ->.
  { apply Hv3. right. left. done. }
  rewrite (queue_of_record _ _ _ He3). simpl.
  rewrite Hn2. rewrite !decide_False by lia. by rewrite decide_True.
Qed.

(** C2 (as amended).  Along every execution, a step that grants a waiter
    behind the head of its queue (so that another waiter was enqueued
    before it) finds the head requesting shared and the waiter requesting
    shared, or the head requesting exclusive for the waiter's own
    transaction; the waiters in between need be neither granted nor
    shared.  With T1 holding shared alone on a block, T2 enqueuing
    exclusive and T3 then enqueuing shared, T2 waits and T3 is granted at
    once, ahead of T2. *)
Theorem grant_follows_head :
  (forall heap acts a m m' blk j w2,
      run N acts (init N heap) = Some m ->
      step N a m = Some m' ->
      queue_of N m' blk !! j = Some w2 -> (0 < j)%nat -> granted w2 ->
      ~ granted_in N m blk (lock_ptr w2) ->
      exists h, head (queue_of N m' blk) = Some h /\
        ((lock_type h = SHARED_LOCK /\ lock_type w2 = SHARED_LOCK)
         \/ (lock_type h = EXCLUSIVE_LOCK
             /\ TransactionId h = TransactionId w2)))
  /\ (forall heap acts m blk l1 t2 t3 m2 m3,
        run N acts (init N heap) = Some m ->
        queue_of N m blk = [l1] -> lock_type l1 = SHARED_LOCK ->
        step N (Acquire blk EXCLUSIVE_LOCK t2) m = Some m2 ->
        step N (Acquire blk SHARED_LOCK t3) m2 = Some m3 ->
        queue_of N m3 blk =
          [l1; mk_lock (next_lock m) t2 EXCLUSIVE_LOCK WAIT_FOR_UNLOCK;
           mk_lock (S (next_lock m)) t3 SHARED_LOCK PASS_LOCK_QUEUE]).
Proof.
  split.
  - intros heap acts a m m' blk j w2 Hrun. apply grant_behind_head.
    eapply ptr_inv_run; [exact Hrun|apply ptr_inv_init].
  - intros heap acts m blk l1 t2 t3 m2 m3 Hrun. apply shared_passes_exclusive.
    eapply ptr_inv_run; [exact Hrun|apply ptr_inv_init].
Qed.

End Fifo.

(** [records_are_kept] on the execution "acquire block 5, release block
    5" from a state that has a record of block 5. *)
Lemma records_are_kept_witness :
  is_Some
    (record_of 7
       (mk_manager [[]; []; []; []; []; [mk_elem 5 EXCLUSIVE_LOCK []]; []] 1 9) 5).
Proof.
  apply (proj1 (records_are_kept 7)
           [Acquire 5 EXCLUSIVE_LOCK 1; Release [5] 1]
           (mk_manager [[]; []; []; []; []; [mk_elem 5 SHARED_LOCK []]; []] 0 10)).
  - vm_compute. reflexivity.
  - vm_compute. eexists. reflexivity.
Defined.

(** C4.  With 7 buckets, after "T1 acquires block 5; T1 releases block
    5" the record of block 5 is still in its bucket and its queue is
    empty: not every record of a reachable table has a waiter. *)
Lemma released_record_stays :
  ~ (forall m, reachable 7 m -> queues_nonempty m).
Proof.
  intros H.
  set (m := mk_manager [[]; []; []; []; []; [mk_elem 5 EXCLUSIVE_LOCK []]; []] 1 7).
  assert (Hr : reachable 7 m).
  { exists 10%nat, [Acquire 5 EXCLUSIVE_LOCK 1; Release [5] 1]. reflexivity. }
  specialize (H m Hr [mk_elem 5 EXCLUSIVE_LOCK []] (mk_elem 5 EXCLUSIVE_LOCK [])).
  apply H; [|by left|done].
  unfold m. simpl. do 5 right. left.
Qed.

(** C1.  Mutual exclusion fails on the code.  With 7 buckets: T1 acquires
    block 300 shared; T2 enqueues exclusive and waits; T3 enqueues shared
    and is granted behind the shared head; T1 releases; T2 wakes up, is
    now the head and is granted.  T2 then holds block 300 exclusive while
    T3 still holds it shared: the call of [AK_acquire_lock] by T2, with
    T3's request and T1's release falling into its sleep, returns [OK]
    in that state. *)
Theorem mutual_exclusion_violated :
  exists m,
    run 7 [Acquire 300 SHARED_LOCK 1; Acquire 300 EXCLUSIVE_LOCK 2;
           Acquire 300 SHARED_LOCK 3; Release [300] 1; Recheck 300 1]
      (init 7 10) = Some m
    /\ queue_of 7 m 300 =
         [mk_lock 1 2 EXCLUSIVE_LOCK PASS_LOCK_QUEUE;
          mk_lock 2 3 SHARED_LOCK PASS_LOCK_QUEUE]
    /\ ~ mutual_exclusion m
    /\ (m' ← run 7 [Acquire 300 SHARED_LOCK 1] (init 7 10);
        Some (AK_acquire_lock 7 300 EXCLUSIVE_LOCK 2
                [[Acquire 300 SHARED_LOCK 3; Release [300] 1]] m'))
       = Some (Returned (OK, [], m)).
Proof.
  eexists. split; [vm_compute; reflexivity|]. split; [vm_compute; reflexivity|].
  split; [|vm_compute; reflexivity].
  intros H.
  specialize (H [mk_elem 300 EXCLUSIVE_LOCK
                   [mk_lock 1 2 EXCLUSIVE_LOCK PASS_LOCK_QUEUE;
                    mk_lock 2 3 SHARED_LOCK PASS_LOCK_QUEUE]]
                (mk_elem 300 EXCLUSIVE_LOCK
                   [mk_lock 1 2 EXCLUSIVE_LOCK PASS_LOCK_QUEUE;
                    mk_lock 2 3 SHARED_LOCK PASS_LOCK_QUEUE])
                (mk_lock 1 2 EXCLUSIVE_LOCK PASS_LOCK_QUEUE)
                (mk_lock 2 3 SHARED_LOCK PASS_LOCK_QUEUE)).
  simpl in H. discriminate H; try done.
  - do 6 right. left.
  - left.
  - left.
  - right. left.
Qed.

(** C3.  After "T1 acquires block 5 exclusive; T2 and T3 enqueue shared;
    T1 releases" the head T2 requests shared and is not granted yet.  The
    oracle of the code grants T3 there; the oracle as the specification
    words it, which asks for a granted head, makes T3 wait. *)
Lemma oracle_ignores_head_flag :
  let record :=
    mk_elem 5 EXCLUSIVE_LOCK
      [mk_lock 1 2 SHARED_LOCK WAIT_FOR_UNLOCK;
       mk_lock 2 3 SHARED_LOCK WAIT_FOR_UNLOCK] in
  run 7 [Acquire 5 EXCLUSIVE_LOCK 1; Acquire 5 SHARED_LOCK 2;
         Acquire 5 SHARED_LOCK 3; Release [5] 1] (init 7 10)
    = Some (mk_manager [[]; []; []; []; []; [record]; []] 3 5)
  /\ snd <$> AK_isLock_waiting record SHARED_LOCK 3 2 = Some PASS_LOCK_QUEUE
  /\ spec_oracle record SHARED_LOCK 3 2 = Some WAIT_FOR_UNLOCK.
Proof. vm_compute. done. Qed.

Ltac prove_grant := first [by left | by right; left | by right; right].
Ltac refute_grant := intros [?|[[? ?]|[? ?]]]; congruence.
Ltac oracle_iff :=
  split;
  first [ done
        | intros _; prove_grant
        | refute_grant
        | intros _; refute_grant
        | let H := fresh in intros H; exfalso; apply H; prove_grant ].

(** C3 (as amended).  On a record with a waiter, the oracle grants exactly
    when the waiter under test is the head of the queue (the record's
    [lock_type] then becomes the requested one), or the head requests
    shared and so does the waiter, or the head requests exclusive and
    belongs to the waiter's transaction; it answers wait in every other
    case.  Whether the head itself is granted is not looked at; when it
    is granted, the answer is the one of the specification's oracle. *)
Theorem oracle_by_head_mode (lockHolder : AK_transaction_elem) (type : lock_mode)
    (transactionId : pthread_t) (lock : nat)
    (tmp : AK_transaction_lock_elem) (q : list AK_transaction_lock_elem) :
  DLLLocks lockHolder = tmp :: q ->
  exists w,
    AK_isLock_waiting lockHolder type transactionId lock
      = Some (if decide (lock_ptr tmp = lock)
              then set_elem_lock_type type lockHolder else lockHolder, w)
    /\ (w = PASS_LOCK_QUEUE <->
          lock_ptr tmp = lock
          \/ (lock_type tmp = SHARED_LOCK /\ type = SHARED_LOCK)
          \/ (lock_type tmp = EXCLUSIVE_LOCK /\ TransactionId tmp = transactionId))
    /\ (w = WAIT_FOR_UNLOCK <->
          ~ (lock_ptr tmp = lock
             \/ (lock_type tmp = SHARED_LOCK /\ type = SHARED_LOCK)
             \/ (lock_type tmp = EXCLUSIVE_LOCK
                 /\ TransactionId tmp = transactionId)))
    /\ (granted tmp -> spec_oracle lockHolder type transactionId lock = Some w).
Proof.
  intros Hq. unfold AK_isLock_waiting, spec_oracle, granted. rewrite Hq.
  destruct (decide (lock_ptr tmp = lock)) as [E|E].
  { exists PASS_LOCK_QUEUE. split; [done|]. do 2 (split; [oracle_iff|]). done. }
  destruct (lock_type tmp) eqn:Ht;
    [destruct type
    |destruct (decide (TransactionId tmp = transactionId))
    |];
    eexists; (split; [reflexivity|]); do 2 (split; [oracle_iff|]);
    try (intros ->; done); by destruct (isWaiting tmp).
Qed.

(** [oracle_by_head_mode] on a shared request behind a shared head. *)
Lemma oracle_by_head_mode_witness :
  exists w,
    AK_isLock_waiting
      (mk_elem 5 SHARED_LOCK [mk_lock 0 1 SHARED_LOCK PASS_LOCK_QUEUE;
                               mk_lock 1 2 SHARED_LOCK WAIT_FOR_UNLOCK])
      SHARED_LOCK 2 1
    = Some (mk_elem 5 SHARED_LOCK [mk_lock 0 1 SHARED_LOCK PASS_LOCK_QUEUE;
                                    mk_lock 1 2 SHARED_LOCK WAIT_FOR_UNLOCK], w)
    /\ w = PASS_LOCK_QUEUE.
Proof.
  destruct (oracle_by_head_mode
              (mk_elem 5 SHARED_LOCK [mk_lock 0 1 SHARED_LOCK PASS_LOCK_QUEUE;
                                       mk_lock 1 2 SHARED_LOCK WAIT_FOR_UNLOCK])
              SHARED_LOCK 2 1 (mk_lock 0 1 SHARED_LOCK PASS_LOCK_QUEUE)
              [mk_lock 1 2 SHARED_LOCK WAIT_FOR_UNLOCK] eq_refl)
    as (w & H1 & H2 & _).
  exists w. split; [exact H1|]. apply H2. right. left. done.
Defined.

Section Executor.
Variable N : Z.
Variable addr : string -> Z * Z.

Lemma acquire_wait_loop_OK others blk ty tid lock w m st o m' :
  acquire_wait_loop N others blk ty tid lock w m = Returned (st, o, m') ->
  st = OK.
Proof.
  revert w m. induction others as [|acts others IH]; intros w m; simpl.
  - destruct w; [done|]. by intros [= <- _ _].
  - destruct w; [|by intros [= <- _ _]].
    destruct (run N acts m) as [m1|]; [|done].
    destruct (AK_acquire_lock_recheck N blk ty tid lock m1) as [[w2 m2]|]; [|done].
    apply IH.
Qed.

Lemma acquire_lock_OK blk ty tid others m st o m' :
  AK_acquire_lock N blk ty tid others m = Returned (st, o, m') -> st = OK.
Proof.
  unfold AK_acquire_lock.
  destruct (AK_create_lock N blk ty tid m) as [[lock m1]|]; [|done].
  destruct (waiting_flag N blk lock m1) as [w|]; [|done].
  apply acquire_wait_loop_OK.
Qed.


Lemma lock_blocks_no_abort self k ty addresses blocks st others m x :
  requested_lock k = Some ty ->
  lock_blocks N self k addresses blocks st others m <> Returned (inl x).
Proof.
  intros Hk. revert st others m.
  induction blocks as [|a blocks IH]; intros st others m; simpl; [done|].
  rewrite Hk.
  destruct (AK_acquire_lock N a ty self others m) as [[[st1 o1] m1]| |] eqn:Ha;
    [|done|done].
  apply acquire_lock_OK in Ha as ->. apply IH.
Qed.



End Executor.





(** C5.  The abort path of a failed address lookup releases nothing.
    With ["student"] in blocks 5 and 6 and no other table, the
    transaction "insert into student; select from missing" locks blocks
    5 and 6 for its first command and aborts at the second: it returns
    [ABORT] and its two exclusive locks are still granted in the table. *)
Theorem abort_keeps_earlier_locks :
  exists m',
    AK_execute_commands 7 student_only 1
      [mk_command INSERT "student"; mk_command SELECT "missing"] [] (init 7 10)
    = Returned (abort_no_blocks, m')
    /\ exit_result abort_no_blocks = ABORT
    /\ locks_of 7 1 5 m' = [mk_lock 0 1 EXCLUSIVE_LOCK PASS_LOCK_QUEUE]
    /\ locks_of 7 1 6 m' = [mk_lock 1 1 EXCLUSIVE_LOCK PASS_LOCK_QUEUE].
Proof. eexists. vm_compute. done. Qed.

(** C2.  FIFO fairness fails on scenario L3.  With 7 buckets, after "T1
    acquires block 300 shared; T2 enqueues exclusive; T3 enqueues shared"
    T3 is granted although T2, enqueued before it, has been granted at no
    time so far and requests exclusive. *)
Lemma shared_arrival_overtakes_exclusive :
  ~ fifo_fair 7 10
      [Acquire 300 SHARED_LOCK 1; Acquire 300 EXCLUSIVE_LOCK 2;
       Acquire 300 SHARED_LOCK 3].
Proof.
  intros H.
  destruct (H 3%nat
              (mk_manager
                 [[]; []; []; []; []; [];
                  [mk_elem 300 SHARED_LOCK
                     [mk_lock 0 1 SHARED_LOCK PASS_LOCK_QUEUE;
                      mk_lock 1 2 EXCLUSIVE_LOCK WAIT_FOR_UNLOCK;
                      mk_lock 2 3 SHARED_LOCK PASS_LOCK_QUEUE]]] 3 5)
              300 1%nat 2%nat
              (mk_lock 1 2 EXCLUSIVE_LOCK WAIT_FOR_UNLOCK)
              (mk_lock 2 3 SHARED_LOCK PASS_LOCK_QUEUE))
    as [(t' & m' & Ht & Hm & l & Hl & Hp & Hg)|[Hs _]];
    [reflexivity|reflexivity|reflexivity|lia|reflexivity| |discriminate Hs].
  unfold granted in Hg.
  destruct t' as [|[|[|[|t']]]]; [| | | |lia];
    vm_compute in Hm; injection Hm as <-; vm_compute in Hl;
    repeat (apply elem_of_cons in Hl as [->|Hl]; [simpl in Hp, Hg; try lia; try discriminate|]);
    by apply elem_of_nil in Hl.
Qed.

(** [grant_follows_head] on scenario L3. *)
Lemma grant_follows_head_witness :
  queue_of 7
    (mk_manager
       [[]; []; []; []; []; [];
        [mk_elem 300 SHARED_LOCK
           [mk_lock 0 1 SHARED_LOCK PASS_LOCK_QUEUE;
            mk_lock 1 2 EXCLUSIVE_LOCK WAIT_FOR_UNLOCK;
            mk_lock 2 3 SHARED_LOCK PASS_LOCK_QUEUE]]] 3 5) 300
  = [mk_lock 0 1 SHARED_LOCK PASS_LOCK_QUEUE;
     mk_lock 1 2 EXCLUSIVE_LOCK WAIT_FOR_UNLOCK;
     mk_lock 2 3 SHARED_LOCK PASS_LOCK_QUEUE].
Proof.
  apply (proj2 (grant_follows_head 7) 10%nat [Acquire 300 SHARED_LOCK 1]
           (mk_manager
              [[]; []; []; []; []; [];
               [mk_elem 300 SHARED_LOCK
                  [mk_lock 0 1 SHARED_LOCK PASS_LOCK_QUEUE]]] 1 7)
           300 (mk_lock 0 1 SHARED_LOCK PASS_LOCK_QUEUE) 2 3
           (mk_manager
              [[]; []; []; []; []; [];
               [mk_elem 300 SHARED_LOCK
                  [mk_lock 0 1 SHARED_LOCK PASS_LOCK_QUEUE;
                   mk_lock 1 2 EXCLUSIVE_LOCK WAIT_FOR_UNLOCK]]] 2 6)).
  - vm_compute. reflexivity.
  - vm_compute. reflexivity.
  - reflexivity.
  - vm_compute. reflexivity.
  - vm_compute. reflexivity.
Defined.

(** ** The transaction manager *)

Lemma scan_slots_Some v slots i n k :
  scan_slots v slots i n = Some k -> slots !! k = Some v.
Proof.
  revert i. induction n as [|n IH]; intros i; simpl; [done|].
  destruct (slots !! i) as [x|] eqn:Hx; [|done].
  case_decide as E; [|apply IH]. intros [= <-]. by rewrite Hx, E.
Qed.

Lemma scan_slots_None v slots i n :
  (i + n = length slots)%nat ->
  scan_slots v slots i n = None -> v ∉ drop i slots.
Proof.
  revert i. induction n as [|n IH]; intros i Hlen; simpl.
  - intros _. rewrite drop_ge by lia. apply not_elem_of_nil.
  - destruct (slots !! i) as [x|] eqn:Hx.
    + case_decide as E; [done|]. intros H.
      rewrite (drop_S _ _ _ Hx). rewrite not_elem_of_cons. split; [congruence|].
      apply IH; [lia|done].
    + apply lookup_ge_None in Hx. lia.
Qed.

Lemma live_insert_free slots k t1 :
  slots !! k = Some 0 -> t1 <> 0 -> live (<[k := t1]> slots) ≡ₚ t1 :: live slots.
Proof.
  intros Hk Ht. unfold live.
  rewrite insert_take_drop by (by eapply lookup_lt_Some).
  rewrite <- (take_drop_middle _ _ _ Hk) at 3.
  rewrite !filter_app, !filter_cons.
  rewrite decide_True by done. rewrite decide_False by (intros H; by apply H).
  by rewrite Permutation_middle.
Qed.

Lemma filter_all {A} (P : A -> Prop) `{!forall x, Decision (P x)} (l : list A) :
  (forall x, x ∈ l -> P x) -> filter P l = l.
Proof.
  induction l as [|a l IH]; intros HP; [done|].
  rewrite filter_cons, decide_True by (apply HP; left).
  f_equal. apply IH. intros x Hx. apply HP. by right.
Qed.

Lemma live_insert_clear slots k t :
  slots !! k = Some t -> t <> 0 -> NoDup (live slots) ->
  live (<[k := 0]> slots) = filter (fun x => x <> t) (live slots).
Proof.
  intros Hk Ht Hnd. unfold live in *.
  rewrite insert_take_drop by (by eapply lookup_lt_Some).
  rewrite <- (take_drop_middle _ _ _ Hk) in Hnd.
  rewrite <- (take_drop_middle _ _ _ Hk) at 3.
  rewrite !filter_app, !filter_cons in *.
  rewrite decide_False by (intros H; by apply H).
  rewrite decide_True in Hnd by done. rewrite decide_True by done.
  rewrite (filter_cons (fun x => x <> t)), decide_False by (intros H; by apply H).
  apply NoDup_app in Hnd as (H1 & H2 & H3).
  apply NoDup_cons in H3 as [H3 _].
  f_equal; symmetry; apply filter_all; intros x Hx ->.
  - apply (H2 t Hx). left.
  - by apply H3.
Qed.

Lemma create_thread_inv t1 s :
  t1 <> 0 -> t1 ∉ workers s -> tx_inv s ->
  tx_inv (snd (AK_create_new_transaction_thread t1 s)).
Proof.
  intros Ht Hw (Hlen & Hperm & Hnd & Hcnt).
  unfold AK_create_new_transaction_thread.
  destruct (scan_slots 0 (activeThreads s) 0 _) as [k|] eqn:Hk; simpl;
    [|done].
  apply scan_slots_Some in Hk.
  unfold tx_inv, live_entries in *. simpl. split_and!.
  - by rewrite length_insert.
  - fold (live (<[k:=t1]> (activeThreads s))).
    rewrite live_insert_free by done. by constructor.
  - by constructor.
  - rewrite Hcnt. lia.
Qed.

Lemma transaction_end_inv t s :
  t ∈ workers s -> tx_inv s -> tx_inv (AK_on_transaction_end t s).
Proof.
  intros Hw (Hlen & Hperm & Hnd & Hcnt).
  assert (Hlive : t ∈ live_entries s) by (by rewrite Hperm).
  unfold live_entries in Hlive. apply list_elem_of_filter in Hlive as [Ht Hin].
  unfold AK_on_transaction_end, AK_remove_transaction_thread.
  destruct (scan_slots t (activeThreads s) 0 _) as [k|] eqn:Hk; simpl.
  - apply scan_slots_Some in Hk.
    unfold tx_inv, live_entries in *. simpl. split_and!.
    + by rewrite length_insert.
    + fold (live (<[k:=0]> (activeThreads s))).
      rewrite (live_insert_clear _ _ t) by (try done; unfold live; by rewrite Hperm).
      unfold live. by rewrite Hperm.
    + by apply NoDup_filter.
    + rewrite Hcnt.
      assert (length (filter (fun x => x <> t) (workers s))
              = pred (length (workers s))) as ->.
      { clear -Hw Hnd. induction Hnd as [|x l Hx Hnd IH]; [by apply elem_of_nil in Hw|].
        rewrite filter_cons. apply elem_of_cons in Hw as [->|Hw].
        - rewrite decide_False by (intros H; by apply H). simpl.
          f_equal. apply filter_all. by intros y Hy ->.
        - rewrite decide_True by (by intros ->). simpl. rewrite IH by done.
          destruct l; [by apply elem_of_nil in Hw|done]. }
      destruct (workers s); [by apply elem_of_nil in Hw|]. simpl length. lia.
  - apply scan_slots_None in Hk; [|by rewrite Hlen]. by rewrite drop_0 in Hk.
Qed.

Lemma tx_step_inv s s' : tx_step s s' -> tx_inv s -> tx_inv s'.
Proof.
  destruct 1 as [t1 s Ht Hw|t1 s Ht Hw Hs Hm|t s Hw]; intros Hinv.
  - unfold AK_transaction_manager. simpl.
    case_decide.
    + by apply (create_thread_inv t1 (mk_tx _ _ _ _ _ _)).
    + destruct (newTransactionLockMutex s); [done|].
      by apply (create_thread_inv t1 (mk_tx _ _ _ _ _ _)).
  - by apply (create_thread_inv t1 (mk_tx _ _ _ _ _ _)).
  - by apply transaction_end_inv.
Qed.

Lemma tx_reachable_inv s : tx_reachable s -> tx_inv s.
Proof.
  induction 1 as [mutex|s s' _ IH Hstep].
  - unfold tx_inv, tx_init, live_entries. simpl. split_and!; try done.
    constructor.
  - by eapply tx_step_inv.
Qed.

(** When calls do not overlap, at most 10 transaction workers are live,
    the slot array holds at most 10 live entries and
    [activeTransactionsCount] is at most 10. *)
Lemma at_most_ten_workers (s : tx_manager) :
  tx_reachable s ->
  (length (workers s) <= 10)%nat
  /\ (length (live_entries s) <= 10)%nat
  /\ activeTransactionsCount s <= MAX_ACTIVE_TRANSACTIONS_COUNT.
Proof.
  intros Hr. destruct (tx_reachable_inv s Hr) as (Hlen & Hperm & Hnd & Hcnt).
  assert (H : (length (live_entries s) <= 10)%nat).
  { unfold live_entries. etrans; [apply length_filter|]. by rewrite Hlen. }
  split_and!; [by rewrite <- Hperm|done|].
  rewrite Hcnt, <- Hperm. unfold MAX_ACTIVE_TRANSACTIONS_COUNT. lia.
Qed.

(** The two halves of the worker's end make up the whole call. *)
Lemma transaction_end_in_two_writes t i s :
  scan_slots t (activeThreads s) 0 (Z.to_nat MAX_ACTIVE_TRANSACTIONS_COUNT)
  = Some i ->
  leave_after_clear t (clear_thread_slot i s) = AK_on_transaction_end t s.
Proof.
  intros Hi. unfold AK_on_transaction_end, AK_remove_transaction_thread.
  by rewrite Hi.
Qed.

(** A call that does not overlap with another is a move. *)
Lemma tx_step_is_move s s' l :
  tx_step s s' -> (forall t, t ∈ l -> t ∉ workers s) ->
  exists mv, tx_do mv (mk_threads s l) = Some (mk_threads s' l).
Proof.
  intros [t1 s0 H1 H2|t1 s0 H1 H2 H3 H4|t s0 H1] Hl.
  - exists (Submit t1). simpl. by rewrite decide_True.
  - exists (Resume t1). simpl. by rewrite decide_True.
  - exists (End t). simpl. rewrite decide_True; [done|]. split; [done|].
    intros Hin. by apply (Hl t).
Qed.

(** C6.  The counter passes 10.  Ten tasks are submitted and start;
    worker 1 ends; an eleventh task starts in its slot.  Worker 2 then
    ends and has written [NULL] to its slot, not yet decremented
    [activeTransactionsCount], when a twelfth task is submitted: the
    manager reads the count 10, takes [newTransactionLockMutex], which
    is free, and [AK_create_new_transaction_thread] finds the empty slot
    and starts a worker.  [activeTransactionsCount] is 11, and 11
    workers have not yet come to their end: the ten in the slots and
    worker 2. *)
Theorem active_count_passes_ten (mutex : bool) :
  exists th,
    tx_schedule
      [Submit 1; Submit 2; Submit 3; Submit 4; Submit 5; Submit 6; Submit 7;
       Submit 8; Submit 9; Submit 10; End 1; Submit 11; ClearSlot 2; Submit 12]
      (mk_threads (tx_init mutex) [])
    = Some th
    /\ activeTransactionsCount (globals th) = 11
    /\ MAX_ACTIVE_TRANSACTIONS_COUNT < activeTransactionsCount (globals th)
    /\ length (workers (globals th)) = 11%nat
    /\ length (live_entries (globals th)) = 10%nat
    /\ between_writes th = [2].
Proof.
  destruct mutex; (eexists; split; [vm_compute; reflexivity|]; vm_compute; done).
Qed.

End TransFacts.

(** * Properties of the projection rewriter *)

Module OptiFacts.
Import Opti.
Open Scope nat_scope.

Lemma qsort_insert_perm a l : qsort_insert a l ≡ₚ a :: l.
Proof.
  induction l as [|b l IH]; simpl; [done|].
  destruct (strcmp_le a b); [done|]. rewrite IH. apply Permutation_swap.
Qed.

Lemma qsort_perm l : qsort l ≡ₚ l.
Proof.
  induction l as [|a l IH]; simpl; [done|].
  rewrite qsort_insert_perm. by constructor.
Qed.

Lemma count_in_perm x l l' : l ≡ₚ l' -> count_in x l = count_in x l'.
Proof. induction 1; simpl; lia. Qed.

Lemma count_matches_perm_set l l' k :
  l ≡ₚ l' -> count_matches l k = count_matches l' k.
Proof.
  intros H. induction k as [|x k IH]; simpl; [done|].
  by rewrite IH, (count_in_perm x l l').
Qed.

Lemma count_matches_perm_subset l k k' :
  k ≡ₚ k' -> count_matches l k = count_matches l k'.
Proof. induction 1; simpl; lia. Qed.

Lemma count_in_NoDup x l :
  NoDup l -> count_in x l = if decide (x ∈ l) then 1 else 0.
Proof.
  induction 1 as [|a l Ha Hnd IH]; simpl.
  - destruct (decide (x ∈ [])) as [Hx|Hx]; [by apply elem_of_nil in Hx|done].
  - rewrite IH. destruct (String.eqb_spec a x) as [->|Hne].
    + destruct (decide (x ∈ l)); [done|].
      destruct (decide (x ∈ x :: l)) as [Hx|Hx]; [done|]. exfalso. apply Hx. left.
    + destruct (decide (x ∈ l)) as [Hx|Hx];
        destruct (decide (x ∈ a :: l)) as [Hx'|Hx']; try done.
      * exfalso. apply Hx'. by right.
      * exfalso. apply elem_of_cons in Hx' as [->|Hx']; done.
Qed.

Lemma count_matches_all l k :
  NoDup l ->
  count_matches l k <= length k
  /\ (count_matches l k = length k <-> forall x, x ∈ k -> x ∈ l).
Proof.
  intros Hnd. induction k as [|x k [IH1 IH2]]; simpl.
  - split; [done|]. split; [|done]. intros _ x Hx. by apply elem_of_nil in Hx.
  - rewrite (count_in_NoDup _ _ Hnd). destruct (decide (x ∈ l)) as [Hx|Hx].
    + split; [lia|]. split.
      * intros H y Hy. apply elem_of_cons in Hy as [->|Hy]; [done|].
        apply IH2; [lia|done].
      * intros H. f_equal. apply IH2. intros y Hy. apply H. by right.
    + split; [lia|]. split; [lia|]. intros H. exfalso. apply Hx, H. left.
Qed.

Section SubsetFacts.
Variable MAX_TOKENS : nat.

Lemma stored_tokens_all s :
  length (tokenize s) < MAX_TOKENS -> stored_tokens MAX_TOKENS s = tokenize s.
Proof. intros H. unfold stored_tokens. apply take_ge. lia. Qed.

(** The subset test on lists without repeated attributes. *)
Lemma is_subset_iff (set subset : list_node) :
  NoDup (tokenize (data set)) -> NoDup (tokenize (data subset)) ->
  length (tokenize (data set)) < MAX_TOKENS ->
  length (tokenize (data subset)) < MAX_TOKENS ->
  AK_rel_eq_is_subset MAX_TOKENS set subset = EXIT_SUCCESS
  <-> attr_subset (data subset) (data set).
Proof.
  intros Hs Hsub Hls Hlsub. unfold AK_rel_eq_is_subset, attr_subset.
  rewrite !stored_tokens_all by done.
  rewrite (count_matches_perm_set _ _ _ (qsort_perm _)).
  rewrite (count_matches_perm_subset _ _ _ (qsort_perm _)).
  destruct (count_matches_all (tokenize (data set)) (tokenize (data subset)) Hs)
    as [Hle Hiff].
  destruct (Nat.ltb_spec (length (tokenize (data set)))
              (length (tokenize (data subset)))) as [Hlt|Hge].
  - split; [done|]. intros H. exfalso.
    assert (length (tokenize (data subset)) <= length (tokenize (data set))); [|lia].
    apply submseteq_length, NoDup_submseteq; done.
  - destruct (Nat.eqb_spec (count_matches (tokenize (data set))
                              (tokenize (data subset)))
                (length (tokenize (data subset)))) as [E|E]; simpl.
    + split; [|done]. intros _. by apply Hiff.
    + split; [done|]. intros H. by apply Hiff in H.
Qed.

(** C8 (as amended).  For attribute lists [A] and [B] without repeated
    attributes and of fewer than [MAX_TOKENS] tokens each, the test
    succeeds if and only if every element of [B] occurs in [A]; when it
    succeeds in both directions, [A] and [B] have the same elements. *)
Theorem is_subset_without_duplicates (A B : list_node) :
  NoDup (tokenize (data A)) -> NoDup (tokenize (data B)) ->
  length (tokenize (data A)) < MAX_TOKENS ->
  length (tokenize (data B)) < MAX_TOKENS ->
  (AK_rel_eq_is_subset MAX_TOKENS A B = EXIT_SUCCESS
   <-> attr_subset (data B) (data A))
  /\ (AK_rel_eq_is_subset MAX_TOKENS A B = EXIT_SUCCESS ->
      AK_rel_eq_is_subset MAX_TOKENS B A = EXIT_SUCCESS ->
      forall x, x ∈ tokenize (data A) <-> x ∈ tokenize (data B)).
Proof.
  intros HA HB HlA HlB. split; [by apply is_subset_iff|].
  intros H1 H2. apply is_subset_iff in H1; [|done..].
  apply is_subset_iff in H2; [|done..].
  intros x. split; [apply H2|apply H1].
Qed.

End SubsetFacts.

(** [is_subset_without_duplicates] on ["a;b;c;d"] and ["c;a"]. *)
Lemma is_subset_without_duplicates_witness :
  AK_rel_eq_is_subset 64 (mk_node TYPE_ATTRIBS "a;b;c;d")
    (mk_node TYPE_ATTRIBS "c;a") = EXIT_SUCCESS
  <-> attr_subset "c;a" "a;b;c;d".
Proof.
  apply (is_subset_without_duplicates 64 (mk_node TYPE_ATTRIBS "a;b;c;d")
           (mk_node TYPE_ATTRIBS "c;a")).
  - compute_done.
  - compute_done.
  - vm_compute. lia.
  - vm_compute. lia.
Defined.

(** C8.  With duplicates the test is not the subset test: ["a"] against
    the set ["a;a"] fails although its one element occurs in the set;
    ["a;b"] against the set ["a;a;c"] succeeds although ["b"] does not
    occur in it; ["a;a;c;d"] and ["a;a;e;f"] pass the test in both
    directions and are different sets. *)
Lemma is_subset_counts_duplicates :
  AK_rel_eq_is_subset 64 (mk_node TYPE_ATTRIBS "a;a") (mk_node TYPE_ATTRIBS "a")
    = EXIT_FAILURE
  /\ attr_subset "a" "a;a"
  /\ AK_rel_eq_is_subset 64 (mk_node TYPE_ATTRIBS "a;a;c")
       (mk_node TYPE_ATTRIBS "a;b") = EXIT_SUCCESS
  /\ ~ attr_subset "a;b" "a;a;c"
  /\ AK_rel_eq_is_subset 64 (mk_node TYPE_ATTRIBS "a;a;c;d")
       (mk_node TYPE_ATTRIBS "a;a;e;f") = EXIT_SUCCESS
  /\ AK_rel_eq_is_subset 64 (mk_node TYPE_ATTRIBS "a;a;e;f")
       (mk_node TYPE_ATTRIBS "a;a;c;d") = EXIT_SUCCESS
  /\ ~ attr_subset "a;a;c;d" "a;a;e;f".
Proof.
  split; [reflexivity|]. split.
  { intros x Hx. vm_compute in Hx. vm_compute.
    apply list_elem_of_singleton in Hx as ->. left. }
  split; [reflexivity|]. split.
  { intros H. specialize (H "b"%string). vm_compute in H.
    assert (Hb : "b"%string ∈ ["a"%string; "b"%string]) by (right; left).
    apply H in Hb.
    repeat (apply elem_of_cons in Hb as [Hb|Hb]; [discriminate Hb|]).
    by apply elem_of_nil in Hb. }
  split; [reflexivity|]. split; [reflexivity|].
  intros H. specialize (H "c"%string). vm_compute in H.
  assert (Hc : "c"%string ∈ ["a"%string; "a"%string; "c"%string; "d"%string])
    by (do 2 right; left).
  apply H in Hc.
  repeat (apply elem_of_cons in Hc as [Hc|Hc]; [discriminate Hc|]).
  by apply elem_of_nil in Hc.
Qed.

Section RewriterFacts.
Variable MAX_TOKENS : nat.
Variable AK_get_header : string -> list string.
Variable root : list_node.

(** C7 (as amended).  When a projection operator [op] with argument [arg]
    is read while the last token of the output is an attribute token
    [prev_top], the rewriter goes on with the output unchanged when
    [AK_rel_eq_is_subset (arg, prev_top)] succeeds and with [op], [arg]
    appended when it fails; for lists without repeated attributes and
    of fewer than [MAX_TOKENS] tokens, the test succeeds, and [op],
    [arg] are elided, exactly when every attribute of [prev_top] occurs
    in [arg]. *)
Theorem cascade_elides_superset (temp : list list_node)
    (op arg prev_top : list_node) (rest : list list_node) :
  type op = TYPE_OPERATOR -> first_char (data op) = RO_PROJECTION ->
  last temp = Some prev_top -> type prev_top = TYPE_ATTRIBS ->
  rewrite_loop MAX_TOKENS AK_get_header root temp (op :: arg :: rest)
  = rewrite_loop MAX_TOKENS AK_get_header root
      (match AK_rel_eq_is_subset MAX_TOKENS arg prev_top with
       | EXIT_SUCCESS => temp
       | EXIT_FAILURE => temp ++ [op; arg]
       end) rest
  /\ (NoDup (tokenize (data arg)) -> NoDup (tokenize (data prev_top)) ->
      length (tokenize (data arg)) < MAX_TOKENS ->
      length (tokenize (data prev_top)) < MAX_TOKENS ->
      AK_rel_eq_is_subset MAX_TOKENS arg prev_top = EXIT_SUCCESS
      <-> attr_subset (data prev_top) (data arg)).
Proof.
  intros Hop Hc Hlast Hty. split; [|apply is_subset_iff].
  simpl. rewrite Hop. unfold rewrite_operator. rewrite Hc. simpl.
  rewrite Hlast. unfold is_attribs. rewrite Hty.
  by destruct (AK_rel_eq_is_subset MAX_TOKENS arg prev_top).
Qed.

End RewriterFacts.

(** [cascade_elides_superset] on scenario O1. *)
Lemma cascade_elides_superset_witness :
  rewrite_loop 64 no_tables zeroed_root
    [mk_node TYPE_OPERATOR "p"; mk_node TYPE_ATTRIBS "a;b;c"]
    [mk_node TYPE_OPERATOR "p"; mk_node TYPE_ATTRIBS "a;b;c;d";
     mk_node TYPE_OPERAND "R"]
  = rewrite_loop 64 no_tables zeroed_root
      [mk_node TYPE_OPERATOR "p"; mk_node TYPE_ATTRIBS "a;b;c"]
      [mk_node TYPE_OPERAND "R"].
Proof.
  apply (cascade_elides_superset 64 no_tables zeroed_root
           [mk_node TYPE_OPERATOR "p"; mk_node TYPE_ATTRIBS "a;b;c"]
           (mk_node TYPE_OPERATOR "p") (mk_node TYPE_ATTRIBS "a;b;c;d")
           (mk_node TYPE_ATTRIBS "a;b;c") [mk_node TYPE_OPERAND "R"]);
    reflexivity.
Defined.

(** C7.  The test runs the other way round than the rule as worded.  A
    projection on ["a"] read behind the attribute token ["a;b"] is a
    subset of it and is appended, not elided; a projection on ["a;b;c;d"]
    read behind ["a;b;c"] (scenario O1) is no subset of it and is
    elided. *)
Lemma cascade_keeps_subset :
  let p := mk_node TYPE_OPERATOR "p" in
  let R := mk_node TYPE_OPERAND "R" in
  let ab := mk_node TYPE_ATTRIBS "a;b" in
  let a := mk_node TYPE_ATTRIBS "a" in
  let abc := mk_node TYPE_ATTRIBS "a;b;c" in
  let abcd := mk_node TYPE_ATTRIBS "a;b;c;d" in
  (attr_subsetb (data a) (data ab) = true
   /\ spec_cascade [p; ab] p a ab = [p; ab]
   /\ rewrite_operator 64 no_tables zeroed_root [p; ab] p (Some a)
      = Some ([p; ab; p; a], true)
   /\ AK_rel_eq_projection 64 no_tables zeroed_root [p; ab; p; a; R]
      = Some [p; ab; p; a; R])
  /\ (attr_subsetb (data abcd) (data abc) = false
      /\ spec_cascade [p; abc] p abcd abc = [p; abc; p; abcd]
      /\ rewrite_operator 64 no_tables zeroed_root [p; abc] p (Some abcd)
         = Some ([p; abc], true)
      /\ AK_rel_eq_projection 64 no_tables zeroed_root [p; abc; p; abcd; R]
         = Some [p; abc; R]).
Proof. vm_compute. done. Qed.

Section Idempotence.
Variable MAX_TOKENS : nat.
Variable AK_get_header : string -> list string.
Variable root : list_node.

Lemma fixed_nil : fixed MAX_TOKENS AK_get_header root [].
Proof. by intros X. Qed.

Lemma fixed_operand T n :
  fixed MAX_TOKENS AK_get_header root T -> type n = TYPE_OPERAND ->
  fixed MAX_TOKENS AK_get_header root (T ++ [n]).
Proof.
  intros HT Hn X. rewrite <- app_assoc. simpl. rewrite HT. simpl. by rewrite Hn.
Qed.

Lemma fixed_op_arg T n a :
  fixed MAX_TOKENS AK_get_header root T -> type n = TYPE_OPERATOR ->
  rewrite_operator MAX_TOKENS AK_get_header root T n (Some a)
    = Some (T ++ [n; a], true) ->
  fixed MAX_TOKENS AK_get_header root (T ++ [n; a]).
Proof.
  intros HT Hn Hop X. rewrite <- app_assoc. simpl. rewrite HT. simpl.
  by rewrite Hn, Hop.
Qed.

Lemma fixed_op T n :
  fixed MAX_TOKENS AK_get_header root T -> type n = TYPE_OPERATOR ->
  (forall next, rewrite_operator MAX_TOKENS AK_get_header root T n next
                = Some (T ++ [n], false)) ->
  fixed MAX_TOKENS AK_get_header root (T ++ [n]).
Proof.
  intros HT Hn Hop X. rewrite <- app_assoc. simpl. rewrite HT. simpl.
  by rewrite Hn, Hop.
Qed.

(** The cases of an operator that does not splice. *)
Lemma operator_appends T n :
  type n = TYPE_OPERATOR -> splices n = false ->
  (takes_argument n = true
   /\ rewrite_operator MAX_TOKENS AK_get_header root T n None = None
   /\ forall a, exists T',
        rewrite_operator MAX_TOKENS AK_get_header root T n (Some a)
          = Some (T', true)
        /\ (T' = T \/ T' = T ++ [n; a]))
  \/ (takes_argument n = false
      /\ exists T',
           (forall next, rewrite_operator MAX_TOKENS AK_get_header root T n next
                         = Some (T', false))
           /\ (T' = T \/ T' = T ++ [n])).
Proof.
  intros Hn Hs. unfold splices, takes_argument in *. rewrite Hn in *.
  unfold rewrite_operator. simpl in *.
  apply orb_false_elim in Hs as [Hs Ht].
  apply orb_false_elim in Hs as [Hs Hi].
  apply orb_false_elim in Hs as [Hs Hu].
  rewrite Hs, Hu, Hi, Ht. simpl.
  destruct (Ascii.eqb (first_char (data n)) RO_PROJECTION) eqn:Hp; simpl.
  { left. split; [done|]. split; [done|]. intros a.
    destruct (last T) as [temp_elem|]; [|eexists; split; [done|by right]].
    destruct (is_attribs temp_elem); [|eexists; split; [done|by right]].
    destruct (is_failure _); eexists; (split; [done|]); [by right|by left]. }
  destruct (Ascii.eqb (first_char (data n)) RO_NAT_JOIN) eqn:Hj; simpl.
  { left. split; [done|]. split; [done|]. intros a.
    eexists; split; [done|by right]. }
  right. split; [done|].
  destruct (Ascii.eqb (first_char (data n)) RO_EXCEPT);
    [eexists; split; [done|by right]|].
  destruct (Ascii.eqb (first_char (data n)) RO_RENAME);
    [eexists; split; [done|by right]|].
  eexists; split; [done|by left].
Qed.


Lemma pass_reaches_fixed k : forall I T,
  length I <= k ->
  Forall (fun n => splices n = false) I -> arguments_present I = true ->
  fixed MAX_TOKENS AK_get_header root T ->
  exists O, rewrite_loop MAX_TOKENS AK_get_header root T I = Some O /\ fixed MAX_TOKENS AK_get_header root O.
Proof.
  induction k as [|k IH]; intros I T Hlen HI Harg HT.
  { destruct I; [|simpl in Hlen; lia]. by exists T. }
  destruct I as [|n rest]; [by exists T|].
  apply Forall_cons in HI as [Hn Hrest]. simpl in Hlen.
  destruct (type n) eqn:Hty.
  - destruct (operator_appends T n Hty Hn)
      as [(Hta & _ & Hop)|(Hta & T' & Hop & HT')].
    + simpl in Harg. rewrite Hta in Harg.
      destruct rest as [|a rest']; [done|].
      apply Forall_cons in Hrest as [_ Hrest'].
      destruct (Hop a) as (T' & Hop' & HT').
      simpl. rewrite Hty. simpl. rewrite Hop'.
      apply IH; [simpl in Hlen; lia|done|done|].
      destruct HT' as [->| ->]; [done|]. by apply fixed_op_arg.
    + simpl in Harg. rewrite Hta in Harg.
      simpl. rewrite Hty, Hop.
      apply IH; [lia|done|done|].
      destruct HT' as [->| ->]; [done|]. apply fixed_op; [done..|].
      exact Hop.
  - simpl in Harg |- *. unfold takes_argument in Harg. rewrite Hty in *.
    apply IH; [lia|done..].
  - simpl in Harg |- *. unfold takes_argument in Harg. rewrite Hty in *.
    apply IH; [lia|done..].
  - simpl in Harg |- *. unfold takes_argument in Harg. rewrite Hty in *.
    apply IH; [lia|done|done|]. by apply fixed_operand.
  - simpl in Harg |- *. unfold takes_argument in Harg. rewrite Hty in *.
    apply IH; [lia|done..].
Qed.

(** C9 (as amended).  On an input stream without selection, union,
    intersect and theta-join operators, in which every operator that
    reads its successor has one, the rewriter returns an output, and
    applied to that output it returns the same output. *)
Theorem cascade_pass_idempotent (list_rel_eq : list list_node) :
  Forall (fun n => splices n = false) list_rel_eq ->
  arguments_present list_rel_eq = true ->
  exists O,
    AK_rel_eq_projection MAX_TOKENS AK_get_header root list_rel_eq = Some O
    /\ AK_rel_eq_projection MAX_TOKENS AK_get_header root O = Some O.
Proof.
  intros HI Harg.
  destruct (pass_reaches_fixed (length list_rel_eq) list_rel_eq [] (le_n _)
              HI Harg fixed_nil) as (O & HO & Hfix).
  exists O. split; [exact HO|].
  unfold AK_rel_eq_projection. specialize (Hfix []). rewrite app_nil_r in Hfix.
  by rewrite Hfix.
Qed.

End Idempotence.

(** [cascade_pass_idempotent] on scenario O1. *)
Lemma cascade_pass_idempotent_witness :
  exists O,
    AK_rel_eq_projection 64 no_tables zeroed_root
      [mk_node TYPE_OPERATOR "p"; mk_node TYPE_ATTRIBS "a;b;c";
       mk_node TYPE_OPERATOR "p"; mk_node TYPE_ATTRIBS "a;b;c;d";
       mk_node TYPE_OPERAND "R"] = Some O
    /\ AK_rel_eq_projection 64 no_tables zeroed_root O = Some O.
Proof.
  apply (cascade_pass_idempotent 64 no_tables zeroed_root).
  - repeat constructor.
  - reflexivity.
Defined.

(** C9.  A second pass can change the stream again.  On
    [p a R S T u u] the first pass distributes the projection over [R]
    and [S], the second one also over [T].  On [p a R p a s c S u], with
    the condition [c] over the attribute [a], the first pass moves the
    selection before the second projection and the second pass moves it
    before the first. *)
Lemma second_pass_rewrites_again :
  let p := mk_node TYPE_OPERATOR "p" in
  let a := mk_node TYPE_ATTRIBS "a" in
  let u := mk_node TYPE_OPERATOR "u" in
  let s := mk_node TYPE_OPERATOR "s" in
  let c := mk_node TYPE_CONDITION "`a` 5 >" in
  let R := mk_node TYPE_OPERAND "R" in
  let S := mk_node TYPE_OPERAND "S" in
  let T := mk_node TYPE_OPERAND "T" in
  (AK_rel_eq_projection 64 no_tables zeroed_root [p; a; R; S; T; u; u]
     = Some [p; a; R; p; a; S; T; u; u]
   /\ AK_rel_eq_projection 64 no_tables zeroed_root [p; a; R; p; a; S; T; u; u]
     = Some [p; a; R; p; a; S; p; a; T; u; u])
  /\ (AK_rel_eq_projection 64 no_tables zeroed_root [p; a; R; p; a; s; c; S; u]
        = Some [p; a; R; s; c; p; a; S; u]
      /\ AK_rel_eq_projection 64 no_tables zeroed_root [p; a; R; s; c; p; a; S; u]
        = Some [s; c; p; a; R; p; a; S; u]).
Proof. vm_compute. done. Qed.

End OptiFacts.

(** * The lock table: buckets, records and queues *)

Module LockTableFacts.
Import Trans TransFacts LockShapes.

Section Buckets.
Variable N : Z.

Lemma hash_range blk : 0 < N -> 0 <= blk -> 0 <= AK_memory_block_hash N blk < N.
Proof.
  intros HN Hb. unfold AK_memory_block_hash.
  rewrite Z.rem_mod_nonneg by lia. apply Z.mod_pos_bound. lia.
Qed.

Lemma hash_negative blk :
  blk < 0 -> Z.rem blk N <> 0 -> AK_memory_block_hash N blk < 0.
Proof.
  intros Hb Hr. unfold AK_memory_block_hash.
  destruct (decide (N = 0)) as [->|HN].
  - rewrite Z.rem_0_r_ext by done. lia.
  - pose proof (Z.rem_nonpos blk N HN). lia.
Qed.

Lemma bucket_at_in_range (T : list (list AK_transaction_elem)) h :
  0 <= h < Z.of_nat (length T) -> is_Some (bucket_at T h).
Proof.
  intros Hh. unfold bucket_at. rewrite decide_True by lia.
  apply lookup_lt_is_Some. lia.
Qed.

Lemma search_in_range (T : list (list AK_transaction_elem)) blk :
  0 < N -> 0 <= blk -> Z.of_nat (length T) = N ->
  is_Some (AK_search_existing_link_for_hook N T blk).
Proof.
  intros HN Hb HT. unfold AK_search_existing_link_for_hook.
  destruct (bucket_at_in_range T (AK_memory_block_hash N blk)) as [b Hbk].
  { rewrite HT. by apply hash_range. }
  rewrite Hbk. simpl. by eexists.
Qed.

Lemma hash_above blk : 0 < N -> - N < AK_memory_block_hash N blk.
Proof.
  intros HN. unfold AK_memory_block_hash.
  pose proof (Z.rem_bound_abs blk N ltac:(lia)). lia.
Qed.

(** X1.  With [NUMBER_OF_KEYS = N > 0], the bucket index of a block
    address that is not negative lies in [0, N) and the search for its
    record reads a bucket of a table with [N] buckets.  For a negative
    address that is no multiple of [N] the index lies between [-N] and 0:
    the code indexes [LockTable] in front of its first bucket, and has
    no test of the index. *)
Theorem hash_indexes_table :
  0 < N ->
  (forall blk (T : list (list AK_transaction_elem)),
      0 <= blk -> Z.of_nat (length T) = N ->
      0 <= AK_memory_block_hash N blk < N
      /\ is_Some (AK_search_existing_link_for_hook N T blk))
  /\ (forall blk,
        blk < 0 -> Z.rem blk N <> 0 ->
        - N < AK_memory_block_hash N blk < 0).
Proof.
  intros HN. split.
  - intros blk T Hb HT. split; [by apply hash_range|by apply search_in_range].
  - intros blk Hb Hr. split; [by apply hash_above|by apply hash_negative].
Qed.

End Buckets.

Section Records.
Variable N : Z.

Lemma find_elem_unlink_ne blk blk' b :
  blk' <> blk -> find_elem blk' (unlink_elem blk b) = find_elem blk' b.
Proof.
  intros Hne. induction b as [|x b IH]; simpl; [done|].
  destruct (decide (address x = blk)) as [E|E]; simpl.
  - by rewrite decide_False by congruence.
  - by rewrite IH.
Qed.

Lemma find_elem_None blk b :
  find_elem blk b = None <-> blk ∉ address <$> b.
Proof.
  induction b as [|x b IH]; simpl.
  - split; [intros _; apply not_elem_of_nil|done].
  - rewrite not_elem_of_cons. case_decide; [|rewrite IH]; split; try done.
    + intros [? _]. congruence.
    + by intros [_ ?].
Qed.

Lemma find_elem_unlink_eq blk b :
  NoDup (address <$> b) -> find_elem blk (unlink_elem blk b) = None.
Proof.
  induction b as [|x b IH]; simpl; [done|].
  intros [Hx Hb]%NoDup_cons. destruct (decide (address x = blk)) as [E|E]; simpl.
  - apply find_elem_None. by rewrite <- E.
  - rewrite decide_False by done. by apply IH.
Qed.

Lemma unlink_elem_app blk b x :
  find_elem blk b = None -> address x = blk -> unlink_elem blk (b ++ [x]) = b.
Proof.
  intros Hf Hx. induction b as [|y b IH]; simpl in *.
  - by rewrite decide_True.
  - destruct (decide (address y = blk)); [done|]. by rewrite IH.
Qed.

Lemma set_bucket_twice (T : list (list AK_transaction_elem)) h b b' :
  set_bucket (set_bucket T h b) h b' = set_bucket T h b'.
Proof. unfold set_bucket. apply list_insert_insert_eq. Qed.

Lemma set_bucket_same (T : list (list AK_transaction_elem)) h b :
  bucket_at T h = Some b -> set_bucket T h b = T.
Proof.
  unfold bucket_at, set_bucket. case_decide; [|done]. apply list_insert_id.
Qed.

Lemma search_other_bucket (T : list (list AK_transaction_elem)) blk blk' b b' :
  bucket_at T (AK_memory_block_hash N blk) = Some b ->
  (forall x, x <> blk -> find_elem x b' = find_elem x b) ->
  blk' <> blk ->
  AK_search_existing_link_for_hook N
    (set_bucket T (AK_memory_block_hash N blk) b') blk'
  = AK_search_existing_link_for_hook N T blk'.
Proof.
  intros Hb Hf Hne. unfold AK_search_existing_link_for_hook.
  destruct (decide (AK_memory_block_hash N blk = AK_memory_block_hash N blk'))
    as [E|E].
  - rewrite <- E, (bucket_at_set_eq _ _ _ _ Hb), Hb. simpl. by rewrite Hf.
  - rewrite bucket_at_set_ne; [done|by eapply bucket_at_nonneg|done].
Qed.

(** X2.  [AK_add_hash_entry_list] returns when the table has
    [N > 0] buckets, the address is not negative and two allocations are
    left.  When it returns the record [e] and the table [m'], the search
    in [m'] finds [e] for the address, [e] carries the address, and the
    search for every other address gives what it gave before.  If the
    address had a record, that record is returned and nothing changes;
    otherwise [e] is a new record of the requested mode with an empty
    queue, and two allocations are used. *)
Theorem hash_entry_added_is_found :
  (forall blk ty m,
      0 < N -> 0 <= blk -> Z.of_nat (length (LockTable m)) = N ->
      (2 <= heap_left m)%nat ->
      is_Some (AK_add_hash_entry_list N blk ty m))
  /\ (forall blk ty m e m',
        AK_add_hash_entry_list N blk ty m = Some (e, m') ->
        AK_search_existing_link_for_hook N (LockTable m') blk = Some (Some e)
        /\ address e = blk
        /\ (forall blk', blk' <> blk ->
              AK_search_existing_link_for_hook N (LockTable m') blk'
              = AK_search_existing_link_for_hook N (LockTable m) blk')
        /\ match AK_search_existing_link_for_hook N (LockTable m) blk with
           | Some (Some e0) => e = e0 /\ m' = m
           | _ => e = mk_elem blk ty [] /\ heap_left m = (2 + heap_left m')%nat
           end).
Proof.
  split.
  - intros blk ty m HN Hb HT Hh. unfold AK_add_hash_entry_list.
    destruct (bucket_at_in_range (LockTable m) (AK_memory_block_hash N blk))
      as [b Hbk].
    { rewrite HT. by apply hash_range. }
    rewrite Hbk. simpl. destruct (find_elem blk b); [by eexists|].
    unfold malloc. destruct (heap_left m) as [|[|h]]; [lia..|]. simpl.
    by eexists.
  - intros blk ty m e m'.
    unfold AK_add_hash_entry_list, AK_search_existing_link_for_hook.
    destruct (bucket_at (LockTable m) (AK_memory_block_hash N blk))
      as [b|] eqn:Hb; simpl; [|done].
    destruct (find_elem blk b) as [root|] eqn:Hf.
    + intros [= <- <-]. rewrite Hb. simpl. rewrite Hf.
      split_and!; try done. by eapply find_elem_address.
    + unfold malloc. destruct (heap_left m) as [|[|h]] eqn:Hh; simpl; [done..|].
      intros [= <- <-]. simpl.
      rewrite (bucket_at_set_eq _ _ _ _ Hb). simpl.
      rewrite find_elem_app, Hf. simpl. rewrite decide_True by done.
      split_and!; try done.
      intros blk' Hne.
      apply (search_other_bucket (LockTable m) blk blk' b); [done| |done].
      intros x Hx. rewrite find_elem_app. destruct (find_elem x b); [done|].
      simpl. by rewrite decide_False.
Qed.

(** X3.  [AK_delete_hash_entry_list] returns [NOT_OK] and changes
    nothing for an address without record.  For an address with a record,
    in a table with one record per address in every bucket, it returns
    [OK], the address has no record afterwards and the search for every
    other address gives what it gave before.  Deleting the record that
    [AK_add_hash_entry_list] has just added gives the buckets back as
    they were. *)
Theorem hash_entry_deleted_is_gone :
  (forall blk m,
      AK_search_existing_link_for_hook N (LockTable m) blk = Some None ->
      AK_delete_hash_entry_list N blk m = Some (NOT_OK, m))
  /\ (forall blk m e,
        distinct_records m ->
        AK_search_existing_link_for_hook N (LockTable m) blk = Some (Some e) ->
        exists m',
          AK_delete_hash_entry_list N blk m = Some (OK, m')
          /\ AK_search_existing_link_for_hook N (LockTable m') blk = Some None
          /\ forall blk', blk' <> blk ->
               AK_search_existing_link_for_hook N (LockTable m') blk'
               = AK_search_existing_link_for_hook N (LockTable m) blk')
  /\ (forall blk ty m e m1,
        AK_search_existing_link_for_hook N (LockTable m) blk = Some None ->
        AK_add_hash_entry_list N blk ty m = Some (e, m1) ->
        exists m2,
          AK_delete_hash_entry_list N blk m1 = Some (OK, m2)
          /\ LockTable m2 = LockTable m).
Proof.
  split_and!.
  - intros blk m. unfold AK_search_existing_link_for_hook, AK_delete_hash_entry_list.
    destruct (bucket_at _ _) as [b|]; simpl; [|done].
    by intros [= ->].
  - intros blk m e Hd.
    unfold AK_search_existing_link_for_hook, AK_delete_hash_entry_list.
    destruct (bucket_at (LockTable m) (AK_memory_block_hash N blk))
      as [b|] eqn:Hb; simpl; [|done].
    intros [= Hf]. rewrite Hf. eexists. split; [done|]. simpl.
    rewrite (bucket_at_set_eq _ _ _ _ Hb). simpl. split.
    + rewrite find_elem_unlink_eq; [done|].
      unfold distinct_records in Hd. rewrite Forall_forall in Hd. apply Hd.
      unfold bucket_at in Hb. case_decide; [|done].
      by eapply list_elem_of_lookup_2.
    + intros blk' Hne.
      apply (search_other_bucket (LockTable m) blk blk' b); [done| |done].
      intros x Hx. by apply find_elem_unlink_ne.
  - intros blk ty m e m1.
    unfold AK_search_existing_link_for_hook, AK_add_hash_entry_list,
      AK_delete_hash_entry_list.
    destruct (bucket_at (LockTable m) (AK_memory_block_hash N blk))
      as [b|] eqn:Hb; simpl; [|done].
    intros [= Hf]. rewrite Hf.
    unfold malloc. destruct (heap_left m) as [|[|h]] eqn:Hh; simpl; [done..|].
    intros [= <- <-]. simpl.
    rewrite (bucket_at_set_eq _ _ _ _ Hb). simpl.
    rewrite find_elem_app, Hf. simpl. rewrite decide_True by done.
    eexists. split; [done|]. simpl.
    rewrite unlink_elem_app by done. rewrite set_bucket_twice.
    by apply set_bucket_same.
Qed.

End Records.

Section Queues.
Variable N : Z.

Lemma search_lock_loop_none c q i id :
  (forall l, l ∈ q -> TransactionId l <> id) ->
  search_lock_loop c q i id = None.
Proof.
  intros Hq. revert i. induction c as [|c IH]; intros i; simpl; [done|].
  destruct (q !! i) as [x|] eqn:Hx; [|done].
  rewrite decide_False; [apply IH|]. apply Hq. by eapply list_elem_of_lookup_2.
Qed.

Local Abbreviation own id := (fun l : AK_transaction_lock_elem => TransactionId l = id).

Lemma search_lock_loop_prefix c q i id :
  (i + c <= length q)%nat ->
  search_lock_loop c q i id = head (filter (own id) (take c (drop i q))).
Proof.
  revert i. induction c as [|c IH]; intros i Hlen; simpl; [done|].
  destruct (q !! i) as [x|] eqn:Hx.
  2:{ apply lookup_ge_None in Hx. lia. }
  rewrite (drop_S _ _ _ Hx). simpl. rewrite filter_cons.
  destruct (decide (TransactionId x = id)) as [E|E]; [done|].
  unfold next_pos. destruct (decide (S i < length q)%nat) as [Hlt|Hge].
  - apply IH. lia.
  - assert (c = 0%nat) as -> by lia. done.
Qed.

Lemma search_lock_loop_from c q i id :
  (i < length q)%nat -> (length q - i <= c)%nat ->
  search_lock_loop c q i id =
    match head (filter (own id) (drop i q)) with
    | Some x => Some x
    | None => search_lock_loop (c - (length q - i)) q 0 id
    end.
Proof.
  revert i. induction c as [|c IH]; intros i Hi Hlen; [lia|]. simpl.
  destruct (q !! i) as [x|] eqn:Hx.
  2:{ apply lookup_ge_None in Hx. lia. }
  rewrite (drop_S _ _ _ Hx). rewrite filter_cons.
  destruct (decide (TransactionId x = id)) as [E|E]; [done|].
  unfold next_pos. destruct (decide (S i < length q)%nat) as [Hlt|Hge].
  - rewrite IH by lia. replace (S c - (length q - i))%nat
      with (c - (length q - S i))%nat by lia. done.
  - rewrite drop_ge by lia. simpl.
    replace (S c - (length q - i))%nat with c by lia. done.
Qed.

Lemma head_filter_None {A} (P : A -> Prop) `{!forall x, Decision (P x)} (l : list A) :
  head (filter P l) = None -> forall x, x ∈ l -> ~ P x.
Proof.
  intros Hh x Hx HP.
  assert (x ∈ filter P l) as Hin by (by apply list_elem_of_filter).
  destruct (filter P l); [by apply elem_of_nil in Hin|done].
Qed.

Lemma search_lock_loop_full c q id :
  (length q <= c)%nat ->
  search_lock_loop c q 0 id = head (filter (own id) q).
Proof.
  intros Hlen. destruct q as [|x q]; [by destruct c|].
  rewrite search_lock_loop_from by (simpl in *; lia).
  rewrite drop_0. destruct (head (filter (own id) (x :: q))) eqn:Hh; [done|].
  apply search_lock_loop_none. intros l Hl.
  by apply (head_filter_None _ _ Hh).
Qed.

Lemma search_by_key_head holder id :
  0 <= N ->
  AK_search_lock_entry_list_by_key N holder id
  = head (filter (own id) (take (Z.to_nat (N + 1)) (DLLLocks holder))).
Proof.
  intros HN. unfold AK_search_lock_entry_list_by_key.
  destruct (DLLLocks holder) as [|x q] eqn:Hq; [by rewrite take_nil|].
  assert (Z.to_nat (N + 1) = S (Z.to_nat N)) as -> by lia.
  case_decide as E.
  - simpl. rewrite filter_cons, decide_True by done. done.
  - destruct (decide (S (Z.to_nat N) <= length (x :: q))%nat) as [Hle|Hgt].
    + rewrite search_lock_loop_prefix by (simpl in *; lia). by rewrite drop_0.
    + rewrite search_lock_loop_full by lia. by rewrite take_ge by lia.
Qed.

(** X4.  [AK_search_lock_entry_list_by_key] looks at the first
    [NUMBER_OF_KEYS + 1] waiters of the queue only: it returns the first
    waiter of the transaction among them, and [NULL] when none of them
    belongs to the transaction. *)
Theorem search_by_key_window (holder : AK_transaction_elem) (id : pthread_t) :
  0 <= N ->
  AK_search_lock_entry_list_by_key N holder id
  = head (filter (fun l => TransactionId l = id)
            (take (Z.to_nat (N + 1)) (DLLLocks holder))).
Proof. apply search_by_key_head. Qed.

Lemma filter_ext_elem {A} (P Q : A -> Prop) `{!forall x, Decision (P x)}
    `{!forall x, Decision (Q x)} (l : list A) :
  (forall x, x ∈ l -> (P x <-> Q x)) -> filter P l = filter Q l.
Proof.
  induction l as [|a l IH]; intros Hl; [done|].
  rewrite !filter_cons. rewrite IH by (intros x Hx; apply Hl; by right).
  destruct (decide (P a)) as [HP|HP], (decide (Q a)) as [HQ|HQ]; try done.
  - exfalso. apply HQ. apply Hl; [by left|done].
  - exfalso. apply HP. apply Hl; [by left|done].
Qed.

Lemma same_ptr_same_waiter (q : list AK_transaction_lock_elem) l1 l2 :
  NoDup (lock_ptr <$> q) -> l1 ∈ q -> l2 ∈ q -> lock_ptr l1 = lock_ptr l2 ->
  l1 = l2.
Proof.
  intros Hnd [i H1]%list_elem_of_lookup [j H2]%list_elem_of_lookup Hp.
  by destruct (same_ptr_same_node q i j l1 l2 Hnd H1 H2 Hp).
Qed.

Lemma search_by_key_Some holder id d :
  0 <= N -> AK_search_lock_entry_list_by_key N holder id = Some d ->
  d ∈ DLLLocks holder /\ TransactionId d = id.
Proof.
  intros HN. rewrite search_by_key_head by done. intros Hh.
  assert (d ∈ filter (own id) (take (Z.to_nat (N + 1)) (DLLLocks holder))) as Hd.
  { destruct (filter _ _) as [|x l]; [done|]. injection Hh as ->. by left. }
  apply list_elem_of_filter in Hd as [Hid Hd]. split; [|done].
  eapply elem_of_sublist; [exact Hd|apply sublist_take].
Qed.

Lemma search_by_key_None holder id :
  0 <= N -> Z.of_nat (length (DLLLocks holder)) <= N + 1 ->
  AK_search_lock_entry_list_by_key N holder id = None ->
  waiters_of_others id (DLLLocks holder) = DLLLocks holder.
Proof.
  intros HN Hlen. rewrite search_by_key_head by done.
  rewrite take_ge by lia. intros Hh.
  unfold waiters_of_others.
  induction (DLLLocks holder) as [|x q IH]; [done|].
  rewrite filter_cons in Hh. rewrite filter_cons.
  destruct (decide (TransactionId x = id)) as [E|E]; [done|].
  rewrite decide_True by done. f_equal. apply IH; [simpl in Hlen; lia|done].
Qed.

Lemma unlink_keeps_others (q : list AK_transaction_lock_elem) d id :
  NoDup (lock_ptr <$> q) -> d ∈ q -> TransactionId d = id ->
  waiters_of_others id (unlink_lock (lock_ptr d) q) = waiters_of_others id q.
Proof.
  intros Hnd Hd Hid. unfold waiters_of_others, unlink_lock.
  rewrite list_filter_filter. apply filter_ext_elem.
  intros x Hx. split; [by intros [? _]|]. intros Hne. split; [done|].
  intros Hp. apply Hne. by rewrite (same_ptr_same_waiter q x d Hnd Hx Hd Hp).
Qed.

Lemma unlink_lock_NoDup p (q : list AK_transaction_lock_elem) :
  NoDup (lock_ptr <$> q) -> NoDup (lock_ptr <$> unlink_lock p q).
Proof.
  intros Hnd. eapply (sublist_NoDup _ (lock_ptr <$> q)); [exact Hnd|].
  apply fmap_sublist. apply sublist_filter.
Qed.

Lemma delete_lock_loop_filter rounds holder d id :
  0 <= N ->
  NoDup (lock_ptr <$> DLLLocks holder) ->
  Z.of_nat (length (DLLLocks holder)) <= N + 1 ->
  (length (DLLLocks holder) <= S rounds)%nat ->
  d ∈ DLLLocks holder -> TransactionId d = id ->
  DLLLocks (delete_lock_loop N rounds holder d id)
  = waiters_of_others id (DLLLocks holder).
Proof.
  intros HN. revert holder d.
  induction rounds as [|r IH]; intros holder d Hnd Hlen Hr Hd Hid.
  - simpl. destruct (DLLLocks holder) as [|x [|y q]] eqn:Hq.
    + by apply elem_of_nil in Hd.
    + apply list_elem_of_singleton in Hd. subst x.
      unfold unlink_lock, waiters_of_others. rewrite !filter_cons.
      rewrite decide_False by (intros H; by apply H).
      rewrite decide_False by (intros H; by apply H). done.
    + simpl in Hr. lia.
  - pose proof (unlink_lock_shorter d _ Hd) as Hshort.
    pose proof (unlink_keeps_others _ d id Hnd Hd Hid) as Hkeep.
    pose proof (unlink_lock_NoDup (lock_ptr d) _ Hnd) as Hnd'.
    simpl.
    destruct (AK_search_lock_entry_list_by_key N _ id) as [d'|] eqn:Hs.
    + apply search_by_key_Some in Hs as [Hd' Hid']; [|done]. simpl in Hd'.
      rewrite IH; simpl; try done; try lia.
    + apply search_by_key_None in Hs; simpl in *; [|done|lia].
      by rewrite <- Hs, Hkeep.
Qed.

Lemma queue_of_store e m blk :
  queue_of N (store_record N e m) blk =
    if decide (address e = blk)
    then match record_of N m blk with Some _ => DLLLocks e | None => [] end
    else queue_of N m blk.
Proof.
  unfold queue_of. rewrite record_of_store.
  case_decide; [|done]. by destruct (record_of N m blk).
Qed.

(** The queues after [AK_delete_lock_entry_list]. *)
Lemma delete_lock_entry_queue blk tid m st m' :
  0 <= N ->
  NoDup (lock_ptr <$> queue_of N m blk) ->
  Z.of_nat (length (queue_of N m blk)) <= N + 1 ->
  AK_delete_lock_entry_list N blk tid m = Some (st, m') ->
  forall blk',
    queue_of N m' blk' =
      if decide (blk' = blk) then waiters_of_others tid (queue_of N m blk)
      else queue_of N m blk'.
Proof.
  intros HN Hnd Hlen. unfold AK_delete_lock_entry_list.
  destruct (AK_search_existing_link_for_hook N (LockTable m) blk)
    as [r|] eqn:Hs; simpl; [|done].
  destruct r as [holder|]; simpl; [|done].
  apply record_of_search in Hs.
  pose proof (record_of_address _ _ _ _ Hs) as Ha.
  rewrite (queue_of_record _ _ _ _ Hs) in Hnd, Hlen.
  destruct (AK_search_lock_entry_list_by_key N holder tid) as [d|] eqn:Hk.
  - apply search_by_key_Some in Hk as [Hd Hid]; [|done].
    intros [= <- <-] blk'. rewrite queue_of_store.
    destruct (delete_lock_loop_spec N (length (DLLLocks holder)) holder d tid)
      as [Ha' _].
    rewrite Ha', Ha.
    destruct (decide (blk = blk')) as [<-|Hne].
    + rewrite decide_True by done. rewrite Hs.
      rewrite delete_lock_loop_filter by (done || lia).
      by rewrite (queue_of_record _ _ _ _ Hs).
    + by rewrite decide_False by congruence.
  - apply search_by_key_None in Hk; [|done..].
    intros [= <- <-] blk'. case_decide as E; [|done]. subst blk'.
    by rewrite (queue_of_record _ _ _ _ Hs), Hk.
Qed.

Lemma waiters_of_others_idemp tid q :
  waiters_of_others tid (waiters_of_others tid q) = waiters_of_others tid q.
Proof. unfold waiters_of_others. by apply list_filter_filter_l. Qed.

Lemma waiters_of_others_NoDup tid (q : list AK_transaction_lock_elem) :
  NoDup (lock_ptr <$> q) -> NoDup (lock_ptr <$> waiters_of_others tid q).
Proof.
  intros Hnd. eapply (sublist_NoDup _ (lock_ptr <$> q)); [exact Hnd|].
  apply fmap_sublist. apply sublist_filter.
Qed.

Lemma waiters_of_others_length tid (q : list AK_transaction_lock_elem) :
  (length (waiters_of_others tid q) <= length q)%nat.
Proof. apply length_filter. Qed.

Lemma release_locks_queues addrs tid m m' :
  0 <= N ->
  (forall blk, NoDup (lock_ptr <$> queue_of N m blk)) ->
  (forall blk, blk ∈ addrs -> Z.of_nat (length (queue_of N m blk)) <= N + 1) ->
  AK_release_locks N addrs tid m = Some m' ->
  forall blk,
    queue_of N m' blk =
      if decide (blk ∈ addrs) then waiters_of_others tid (queue_of N m blk)
      else queue_of N m blk.
Proof.
  intros HN. revert m. induction addrs as [|a addrs IH]; intros m Hnd Hlen;
    cbn [AK_release_locks].
  - intros [= <-] blk. rewrite decide_False; [done|apply not_elem_of_nil].
  - destruct (AK_delete_lock_entry_list N a tid m) as [[st m1]|] eqn:Hd;
      simpl; [|done].
    destruct (AK_search_existing_link_for_hook N (LockTable m1) a) as [r|];
      simpl; [|done].
    destruct r; simpl; [|done].
    intros Hrel.
    pose proof (delete_lock_entry_queue a tid m st m1 HN (Hnd a)
                  (Hlen a ltac:(by left)) Hd) as Hq1.
    assert (Hnd1 : forall blk', NoDup (lock_ptr <$> queue_of N m1 blk')).
    { intros blk'. rewrite (Hq1 blk').
      case_decide; [apply waiters_of_others_NoDup|]; apply Hnd. }
    assert (Hlen1 : forall blk', blk' ∈ addrs ->
              Z.of_nat (length (queue_of N m1 blk')) <= N + 1).
    { intros blk' Hin. rewrite (Hq1 blk').
      case_decide as E.
      - subst blk'. pose proof (waiters_of_others_length tid (queue_of N m a)).
        specialize (Hlen a ltac:(by left)). lia.
      - apply Hlen. by right. }
    intros blk. rewrite (IH m1 Hnd1 Hlen1 Hrel). rewrite (Hq1 blk).
    destruct (decide (blk = a)) as [E|E].
    + subst blk. rewrite (decide_True (P := a ∈ a :: addrs)) by (by left).
      case_decide; [apply waiters_of_others_idemp|done].
    + destruct (decide (blk ∈ addrs)) as [Hin|Hin].
      * rewrite (decide_True (P := blk ∈ a :: addrs)) by (by right). done.
      * rewrite (decide_False (P := blk ∈ a :: addrs)); [done|].
        intros [?|?]%elem_of_cons; done.
Qed.

Lemma release_locks_no_record addrs tid m blk :
  blk ∈ addrs -> record_of N m blk = None ->
  AK_release_locks N addrs tid m = None.
Proof.
  revert m. induction addrs as [|a addrs IH]; intros m Hin Hr.
  - by apply elem_of_nil in Hin.
  - simpl.
    destruct (AK_delete_lock_entry_list N a tid m) as [[st m1]|] eqn:Hd;
      simpl; [|done].
    destruct (AK_search_existing_link_for_hook N (LockTable m1) a) as [r|];
      simpl; [|done].
    destruct r; simpl; [|done].
    apply elem_of_cons in Hin as [->|Hin].
    + exfalso. unfold AK_delete_lock_entry_list in Hd.
      unfold record_of in Hr.
      destruct (AK_search_existing_link_for_hook N (LockTable m) a) as [r|];
        simpl in *; [|done]. by subst r.
    + apply IH; [done|].
      apply delete_lock_entry_shrink in Hd as [_ Hd]. specialize (Hd blk).
      rewrite Hr in Hd. by destruct (record_of N m1 blk).
Qed.

Lemma release_locks_returns addrs tid m :
  (forall blk, blk ∈ addrs -> is_Some (record_of N m blk)) ->
  is_Some (AK_release_locks N addrs tid m).
Proof.
  revert m. induction addrs as [|a addrs IH]; intros m Hrec; simpl.
  - by eexists.
  - destruct (Hrec a ltac:(by left)) as [e He].
    assert (exists st m1, AK_delete_lock_entry_list N a tid m = Some (st, m1))
      as (st & m1 & Hd).
    { unfold AK_delete_lock_entry_list.
      rewrite (proj1 (record_of_search _ _ _ _) He). simpl.
      destruct (AK_search_lock_entry_list_by_key N e tid); by eexists _, _. }
    rewrite Hd. simpl.
    pose proof (delete_lock_entry_shrink _ _ _ _ _ _ Hd) as [_ Hsh].
    pose proof (Hsh a) as Ha. rewrite He in Ha.
    destruct (record_of N m1 a) as [e1|] eqn:He1; [|done].
    rewrite (proj1 (record_of_search _ _ _ _) He1). simpl.
    apply IH. intros blk Hin. destruct (Hrec blk ltac:(by right)) as [e2 He2].
    specialize (Hsh blk). rewrite He2 in Hsh.
    destruct (record_of N m1 blk); [by eexists|done].
Qed.

(** X5.  In a table whose queues hold every waiter once, for
    addresses that all have a record with at most [NUMBER_OF_KEYS + 1]
    waiters, [AK_release_locks] returns; the queue of every listed
    address is the old queue without the waiters of the transaction, the
    others in their order and with the waiting status they had, and the
    queue of every other address is unchanged. *)
Theorem release_removes_own_waiters (addrs : list Z) (tid : pthread_t)
    (m : lock_manager) :
  0 <= N ->
  (forall blk, NoDup (lock_ptr <$> queue_of N m blk)) ->
  (forall blk, blk ∈ addrs ->
     is_Some (record_of N m blk)
     /\ Z.of_nat (length (queue_of N m blk)) <= N + 1) ->
  exists m',
    AK_release_locks N addrs tid m = Some m'
    /\ forall blk,
         queue_of N m' blk =
           if decide (blk ∈ addrs)
           then filter (fun l => TransactionId l <> tid) (queue_of N m blk)
           else queue_of N m blk.
Proof.
  intros HN Hnd Hrec.
  destruct (release_locks_returns addrs tid m) as [m' Hm'].
  { intros blk Hin. by apply Hrec. }
  exists m'. split; [done|].
  apply release_locks_queues; try done. intros blk Hin. by apply Hrec.
Qed.

(** [AK_release_locks] with an address that has no record dereferences
    the [NULL] result of the search. *)
Lemma release_without_record_faults (addrs : list Z) (tid : pthread_t)
    (m : lock_manager) (blk : Z) :
  blk ∈ addrs -> record_of N m blk = None ->
  AK_release_locks N addrs tid m = None.
Proof. apply release_locks_no_record. Qed.

(** X6.  A waiter of the transaction that stands behind
    [NUMBER_OF_KEYS + 1] waiters of other transactions is not found:
    [AK_delete_lock_entry_list] returns [NOT_OK], and [AK_release_locks]
    returns with the table unchanged, the waiter still in its queue. *)
Theorem release_misses_waiter_behind_window (blk : Z) (tid : pthread_t)
    (m : lock_manager) (e : AK_transaction_elem)
    (pre post : list AK_transaction_lock_elem) :
  0 <= N ->
  record_of N m blk = Some e -> DLLLocks e = pre ++ post ->
  N + 1 <= Z.of_nat (length pre) ->
  Forall (fun l => TransactionId l <> tid) pre ->
  AK_delete_lock_entry_list N blk tid m = Some (NOT_OK, m)
  /\ AK_release_locks N [blk] tid m = Some m.
Proof.
  intros HN He Hq Hlen Hpre.
  assert (Hd : AK_delete_lock_entry_list N blk tid m = Some (NOT_OK, m)).
  { unfold AK_delete_lock_entry_list.
    rewrite (proj1 (record_of_search _ _ _ _) He). simpl.
    rewrite search_by_key_head by done. rewrite Hq.
    rewrite take_app_le by lia.
    assert (filter (own tid) (take (Z.to_nat (N + 1)) pre) = []) as ->; [|done].
    apply (Forall_take _ (Z.to_nat (N + 1))) in Hpre.
    induction Hpre as [|x l Hx _ IH]; [done|].
    by rewrite filter_cons, decide_False. }
  split; [done|]. simpl. rewrite Hd. simpl.
  by rewrite (proj1 (record_of_search _ _ _ _) He).
Qed.

Lemma store_isWaiting_fresh p w (q : list AK_transaction_lock_elem) :
  (forall l, l ∈ q -> lock_ptr l <> p) -> store_isWaiting p w q = q.
Proof.
  intros Hq. unfold store_isWaiting. induction q as [|l q IH]; [done|].
  simpl. rewrite decide_False by (apply Hq; by left).
  f_equal. apply IH. intros l' Hl'. apply Hq. by right.
Qed.

Lemma store_isWaiting_app p w (q1 q2 : list AK_transaction_lock_elem) :
  store_isWaiting p w (q1 ++ q2) = store_isWaiting p w q1 ++ store_isWaiting p w q2.
Proof. unfold store_isWaiting. apply map_app. Qed.

(** The queues after [AK_create_lock]. *)
Lemma create_lock_queue blk ty tid m lock m' :
  ptr_inv N m ->
  AK_create_lock N blk ty tid m = Some (lock, m') ->
  lock = next_lock m /\ next_lock m' = S (next_lock m) /\
  exists w,
    queue_of N m' blk = queue_of N m blk ++ [mk_lock lock tid ty w]
    /\ (w = PASS_LOCK_QUEUE <->
          match head (queue_of N m blk) with
          | None => True
          | Some hd =>
              (lock_type hd = SHARED_LOCK /\ ty = SHARED_LOCK)
              \/ (lock_type hd = EXCLUSIVE_LOCK /\ TransactionId hd = tid)
          end)
    /\ (forall blk', blk' <> blk -> queue_of N m' blk' = queue_of N m blk').
Proof.
  intros Hinv Hc.
  apply create_lock_spec in Hc as (-> & Hn & (e & h & w & _ & Hq & Ho & He) & Hother).
  split; [done|]. split; [done|]. exists w.
  destruct (Hinv blk) as [_ Hlt].
  assert (Hfresh : forall l, l ∈ queue_of N m blk -> lock_ptr l <> next_lock m).
  { intros l Hl. apply Hlt in Hl. lia. }
  split_and!.
  - rewrite (queue_of_record _ _ _ _ He). simpl.
    rewrite store_isWaiting_app, Hq, store_isWaiting_fresh by done.
    simpl. by rewrite decide_True.
  - apply isLock_waiting_verdict in Ho as (tmp & Hhd & Hw). simpl in Hhd.
    rewrite Hq in Hhd. rewrite Hw.
    destruct (queue_of N m blk) as [|hd q] eqn:Hqq; simpl in *.
    + injection Hhd as <-. simpl. split; [done|by left].
    + injection Hhd as <-.
      assert (lock_ptr hd <> next_lock m) by (apply Hfresh; by left).
      split; [intros [?|?]; [done|tauto]|tauto].
  - intros blk' Hne. unfold queue_of. by rewrite Hother.
Qed.

Lemma create_lock_returns blk ty tid m :
  0 < N -> 0 <= blk -> Z.of_nat (length (LockTable m)) = N ->
  (3 <= heap_left m)%nat ->
  is_Some (AK_create_lock N blk ty tid m).
Proof.
  intros HN Hb HT Hh. unfold AK_create_lock.
  destruct (search_in_range N (LockTable m) blk HN Hb HT) as [r Hr].
  rewrite Hr. simpl.
  assert (exists elem m1,
            match r with
            | Some elem => Some (elem, m)
            | None => AK_add_hash_entry_list N blk ty m
            end = Some (elem, m1) /\ (1 <= heap_left m1)%nat)
    as (elem & m1 & -> & Hh1).
  { destruct r as [elem|]; [exists elem, m; split; [done|lia]|].
    unfold AK_add_hash_entry_list, AK_search_existing_link_for_hook in *.
    destruct (bucket_at _ _) as [b|]; simpl in *; [|done].
    injection Hr as ->. unfold malloc.
    destruct (heap_left m) as [|[|[|h]]]; try lia. simpl.
    eexists _, _. split; [done|]. simpl. lia. }
  simpl. unfold AK_add_lock, malloc.
  destruct (heap_left m1) as [|h]; [lia|]. simpl.
  unfold AK_isLock_waiting. simpl.
  destruct (DLLLocks elem ++ _) as [|tmp q] eqn:Hq.
  { by apply app_eq_nil in Hq as [_ ?]. }
  repeat (case_decide || case_match); simpl; by eexists.
Qed.

(** X7.  [AK_create_lock] returns when the table has [N > 0]
    buckets, the address is not negative and three allocations are left.
    When it returns, the new waiter has the next free address, it is
    appended at the end of the queue of the block and every other queue
    is unchanged.  The new waiter is granted at once exactly when the
    queue was empty, or its head is shared and the request is shared, or
    its head is exclusive and belongs to the same transaction. *)
Theorem create_lock_enqueues :
  (forall blk ty tid m,
      0 < N -> 0 <= blk -> Z.of_nat (length (LockTable m)) = N ->
      (3 <= heap_left m)%nat ->
      is_Some (AK_create_lock N blk ty tid m))
  /\ (forall blk ty tid m lock m',
        ptr_inv N m ->
        AK_create_lock N blk ty tid m = Some (lock, m') ->
        lock = next_lock m /\
        exists w,
          queue_of N m' blk = queue_of N m blk ++ [mk_lock lock tid ty w]
          /\ (w = PASS_LOCK_QUEUE <->
                match head (queue_of N m blk) with
                | None => True
                | Some hd =>
                    (lock_type hd = SHARED_LOCK /\ ty = SHARED_LOCK)
                    \/ (lock_type hd = EXCLUSIVE_LOCK /\ TransactionId hd = tid)
                end)
          /\ (forall blk', blk' <> blk ->
                queue_of N m' blk' = queue_of N m blk')).
Proof.
  split; [apply create_lock_returns|].
  intros blk ty tid m lock m' Hinv Hc.
  destruct (create_lock_queue _ _ _ _ _ _ Hinv Hc) as (H1 & _ & H2). by split.
Qed.

End Queues.

Section Shape.
Variable N : Z.

Lemma store_elem_addresses e b : address <$> store_elem e b = address <$> b.
Proof.
  induction b as [|x b IH]; [done|]. cbn [store_elem].
  case_decide as E; rewrite !fmap_cons; [by rewrite E|by rewrite IH].
Qed.

Lemma elem_of_store_elem e b x : x ∈ store_elem e b -> x = e \/ x ∈ b.
Proof.
  induction b as [|y b IH]; simpl; [by right|].
  case_decide as E.
  - intros [->|H]%elem_of_cons; [by left|right; by right].
  - intros [->|H]%elem_of_cons; [right; by left|].
    destruct (IH H) as [?|?]; [by left|right; by right].
Qed.

Lemma table_shape_set (m : lock_manager) T h b b' :
  LockTable m = T ->
  table_shape N m -> bucket_at T h = Some b ->
  NoDup (address <$> b') ->
  (forall e, e ∈ b' -> e ∈ b \/ AK_memory_block_hash N (address e) = h) ->
  forall m', LockTable m' = set_bucket T h b' -> table_shape N m'.
Proof.
  intros <- [Hlen Hsh] Hb Hnd Hel m' HT. unfold table_shape. rewrite HT.
  unfold set_bucket. split; [by rewrite length_insert|].
  pose proof (bucket_at_nonneg _ _ _ Hb) as Hh.
  unfold bucket_at in Hb. rewrite decide_True in Hb by done.
  intros i b0 Hi. destruct (decide (i = Z.to_nat h)) as [->|Hne].
  - rewrite list_lookup_insert_eq in Hi by (by eapply lookup_lt_Some).
    injection Hi as <-. split; [done|]. intros e He.
    destruct (Hel e He) as [Hin|Hhash]; [|lia].
    by apply (Hsh _ _ Hb).
  - rewrite list_lookup_insert_ne in Hi by done. by apply Hsh.
Qed.

Lemma table_shape_table m m' :
  LockTable m' = LockTable m -> table_shape N m -> table_shape N m'.
Proof. unfold table_shape. by intros ->. Qed.

Lemma table_shape_store e m :
  table_shape N m -> table_shape N (store_record N e m).
Proof.
  intros Hsh. unfold store_record.
  destruct (bucket_at (LockTable m) (AK_memory_block_hash N (address e)))
    as [b|] eqn:Hb; [|done].
  eapply (table_shape_set m); try done.
  - rewrite store_elem_addresses. destruct Hsh as [_ Hsh].
    unfold bucket_at in Hb. case_decide; [|done]. by apply (Hsh _ _ Hb).
  - intros x [->|Hx]%elem_of_store_elem; [by right|by left].
Qed.

Lemma table_shape_add blk ty m e m' :
  table_shape N m -> AK_add_hash_entry_list N blk ty m = Some (e, m') ->
  table_shape N m'.
Proof.
  intros Hsh. unfold AK_add_hash_entry_list.
  destruct (bucket_at (LockTable m) (AK_memory_block_hash N blk))
    as [b|] eqn:Hb; simpl; [|done].
  destruct (find_elem blk b) as [root|] eqn:Hf; [by intros [= <- <-]|].
  destruct (malloc m) as [m1|] eqn:H1; simpl; [|done].
  destruct (malloc m1) as [m2|] eqn:H2; simpl; [|done].
  intros [= <- <-].
  assert (HT : LockTable m2 = LockTable m).
  { by rewrite (malloc_table _ _ H2), (malloc_table _ _ H1). }
  eapply (table_shape_set m (LockTable m) _ b (b ++ [mk_elem blk ty []]));
    try done.
  - rewrite fmap_app. simpl. apply NoDup_app. split_and!.
    + destruct Hsh as [_ Hsh].
      unfold bucket_at in Hb. case_decide; [|done]. by apply (Hsh _ _ Hb).
    + intros x Hx Hx'. simpl in Hx'. apply list_elem_of_singleton in Hx'.
      subst x. by apply find_elem_None in Hf.
    + apply NoDup_singleton.
  - intros x [Hx|Hx]%elem_of_app; [by left|].
    apply list_elem_of_singleton in Hx. subst x. by right.
  - simpl. by rewrite HT.
Qed.

Lemma table_shape_create blk ty tid m lock m' :
  table_shape N m -> AK_create_lock N blk ty tid m = Some (lock, m') ->
  table_shape N m'.
Proof.
  intros Hsh. unfold AK_create_lock.
  destruct (AK_search_existing_link_for_hook N (LockTable m) blk)
    as [r|]; simpl; [|done].
  destruct (match r with
            | Some elem => Some (elem, m)
            | None => AK_add_hash_entry_list N blk ty m
            end) as [[elem m1]|] eqn:Ha; simpl; [|done].
  assert (Hsh1 : table_shape N m1).
  { destruct r; [by injection Ha as <- <-|by eapply table_shape_add]. }
  unfold AK_add_lock.
  destruct (malloc m1) as [m2|] eqn:H2; simpl; [|done].
  destruct (AK_isLock_waiting _ ty tid _) as [[h w]|]; simpl; [|done].
  intros [= <- <-]. apply table_shape_store.
  apply (table_shape_table m1); [simpl; by eapply malloc_table|done].
Qed.

Lemma table_shape_recheck blk ty tid lock m w m' :
  table_shape N m -> AK_acquire_lock_recheck N blk ty tid lock m = Some (w, m') ->
  table_shape N m'.
Proof.
  intros Hsh. unfold AK_acquire_lock_recheck.
  destruct (AK_search_existing_link_for_hook N (LockTable m) blk)
    as [r|]; simpl; [|done].
  destruct r as [tmp|]; simpl; [|done].
  destruct (AK_isLock_waiting tmp ty tid lock) as [[h w0]|]; simpl; [|done].
  intros [= <- <-]. by apply table_shape_store.
Qed.

Lemma table_shape_delete blk tid m st m' :
  table_shape N m -> AK_delete_lock_entry_list N blk tid m = Some (st, m') ->
  table_shape N m'.
Proof.
  intros Hsh. unfold AK_delete_lock_entry_list.
  destruct (AK_search_existing_link_for_hook N (LockTable m) blk)
    as [r|]; simpl; [|done].
  destruct r as [holder|]; simpl; [|done].
  destruct (AK_search_lock_entry_list_by_key N holder tid) as [d|].
  - intros [= <- <-]. by apply table_shape_store.
  - by intros [= <- <-].
Qed.

Lemma table_shape_release addrs tid m m' :
  table_shape N m -> AK_release_locks N addrs tid m = Some m' ->
  table_shape N m'.
Proof.
  revert m. induction addrs as [|a addrs IH]; intros m Hsh; simpl.
  - by intros [= <-].
  - destruct (AK_delete_lock_entry_list N a tid m) as [[st m1]|] eqn:Hd;
      simpl; [|done].
    destruct (AK_search_existing_link_for_hook N (LockTable m1) a) as [r|];
      simpl; [|done].
    destruct r; simpl; [|done].
    apply IH. by eapply table_shape_delete.
Qed.

Lemma table_shape_step a m m' :
  table_shape N m -> step N a m = Some m' -> table_shape N m'.
Proof.
  intros Hsh. destruct a as [blk ty tid|blk lock|addrs tid]; simpl.
  - destruct (AK_create_lock N blk ty tid m) as [[lock m1]|] eqn:Hc;
      simpl; [|done].
    intros [= <-]. by eapply table_shape_create.
  - destruct (AK_search_existing_link_for_hook N (LockTable m) blk) as [r|];
      simpl; [|done].
    destruct r as [tmp|]; simpl; [|done].
    destruct (find_lock lock (DLLLocks tmp)) as [l|]; simpl; [|done].
    destruct (isWaiting l); [|done].
    destruct (AK_acquire_lock_recheck N blk _ _ lock m) as [[w m1]|] eqn:Hc;
      simpl; [|done].
    intros [= <-]. by eapply table_shape_recheck.
  - by apply table_shape_release.
Qed.

Lemma table_shape_init heap : table_shape N (init N heap).
Proof.
  unfold table_shape, init. simpl. split; [by rewrite length_replicate|].
  intros i b Hb. apply lookup_replicate in Hb as [-> _].
  split; [constructor|]. intros e He. by apply elem_of_nil in He.
Qed.

Lemma table_shape_run acts m m' :
  table_shape N m -> run N acts m = Some m' -> table_shape N m'.
Proof.
  revert m. induction acts as [|a acts IH]; intros m Hsh; simpl.
  - by intros [= <-].
  - destruct (step N a m) as [m1|] eqn:Hs; simpl; [|done].
    apply IH. by eapply table_shape_step.
Qed.

(** X8.  Every table reached from the zeroed table by acquire,
    recheck and release steps has [NUMBER_OF_KEYS] buckets, holds one
    record per address at most in a bucket, holds every record in the
    bucket its address hashes to, and holds every waiter once in its
    queue, at an address below the next free one. *)
Theorem reachable_table_shape (heap : nat) (acts : list action)
    (m : lock_manager) :
  run N acts (init N heap) = Some m ->
  table_shape N m /\ distinct_records m /\ ptr_inv N m.
Proof.
  intros Hr.
  pose proof (table_shape_run _ _ _ (table_shape_init heap) Hr) as Hsh.
  split; [done|]. split.
  - unfold distinct_records. apply Forall_forall. intros b Hb.
    apply list_elem_of_lookup in Hb as [i Hi]. destruct Hsh as [_ Hsh].
    by apply (Hsh _ _ Hi).
  - eapply ptr_inv_run; [exact Hr|apply ptr_inv_init].
Qed.

End Shape.
Lemma ptr_inv_shared_by_one : ptr_inv 7 shared_by_one.
Proof.
  apply (ptr_inv_run 7 [Acquire 5 SHARED_LOCK 1] (init 7 10)); [done|].
  apply ptr_inv_init.
Qed.

Lemma ptr_inv_shared_by_two : ptr_inv 7 shared_by_two.
Proof.
  apply (ptr_inv_run 7 [Acquire 5 SHARED_LOCK 1; Acquire 5 SHARED_LOCK 2]
           (init 7 10)); [done|].
  apply ptr_inv_init.
Qed.

Lemma hash_indexes_table_witness :
  - 7 < AK_memory_block_hash 7 (-5) < 0.
Proof.
  apply (proj2 (hash_indexes_table 7 ltac:(lia)) (-5)).
  - lia.
  - vm_compute. discriminate.
Defined.

Lemma hash_entry_added_is_found_witness :
  exists e m',
    AK_add_hash_entry_list 7 5 SHARED_LOCK (init 7 10) = Some (e, m')
    /\ AK_search_existing_link_for_hook 7 (LockTable m') 5 = Some (Some e).
Proof.
  eexists _, _. split; [vm_compute; reflexivity|].
  refine (proj1 (proj2 (hash_entry_added_is_found 7) 5 SHARED_LOCK
                   (init 7 10) _ _ _)).
  vm_compute. reflexivity.
Defined.

Lemma hash_entry_deleted_is_gone_witness :
  exists m2,
    AK_delete_hash_entry_list 7 5
      (mk_manager [[]; []; []; []; []; [mk_elem 5 SHARED_LOCK []]; []] 0 8)
    = Some (OK, m2)
    /\ LockTable m2 = LockTable (init 7 10).
Proof.
  apply (proj2 (proj2 (hash_entry_deleted_is_gone 7)) 5 SHARED_LOCK (init 7 10)
           (mk_elem 5 SHARED_LOCK [])).
  - vm_compute. reflexivity.
  - vm_compute. reflexivity.
Defined.

Lemma search_by_key_window_witness :
  AK_search_lock_entry_list_by_key 7
    (mk_elem 5 SHARED_LOCK
       [mk_lock 0 1 SHARED_LOCK PASS_LOCK_QUEUE;
        mk_lock 1 2 SHARED_LOCK PASS_LOCK_QUEUE]) 2
  = Some (mk_lock 1 2 SHARED_LOCK PASS_LOCK_QUEUE).
Proof.
  rewrite (search_by_key_window 7
             (mk_elem 5 SHARED_LOCK
                [mk_lock 0 1 SHARED_LOCK PASS_LOCK_QUEUE;
                 mk_lock 1 2 SHARED_LOCK PASS_LOCK_QUEUE]) 2); [|lia].
  vm_compute. reflexivity.
Defined.

Lemma release_removes_own_waiters_witness :
  exists m',
    AK_release_locks 7 [5] 1 shared_by_two = Some m'
    /\ forall blk,
         queue_of 7 m' blk =
           if decide (blk ∈ [5])
           then filter (fun l => TransactionId l <> 1) (queue_of 7 shared_by_two blk)
           else queue_of 7 shared_by_two blk.
Proof.
  apply (release_removes_own_waiters 7 [5] 1 shared_by_two).
  - lia.
  - intros blk. apply ptr_inv_shared_by_two.
  - intros blk ->%list_elem_of_singleton. split; [by eexists|].
    vm_compute. discriminate.
Defined.

Lemma release_misses_waiter_behind_window_witness :
  let m :=
    mk_manager
      [[mk_elem 5 SHARED_LOCK
          [mk_lock 0 1 SHARED_LOCK PASS_LOCK_QUEUE;
           mk_lock 1 2 SHARED_LOCK PASS_LOCK_QUEUE;
           mk_lock 2 3 SHARED_LOCK PASS_LOCK_QUEUE]]] 3 5 in
  AK_delete_lock_entry_list 1 5 3 m = Some (NOT_OK, m)
  /\ AK_release_locks 1 [5] 3 m = Some m.
Proof.
  apply (release_misses_waiter_behind_window 1 5 3 _
           (mk_elem 5 SHARED_LOCK
              [mk_lock 0 1 SHARED_LOCK PASS_LOCK_QUEUE;
               mk_lock 1 2 SHARED_LOCK PASS_LOCK_QUEUE;
               mk_lock 2 3 SHARED_LOCK PASS_LOCK_QUEUE])
           [mk_lock 0 1 SHARED_LOCK PASS_LOCK_QUEUE;
            mk_lock 1 2 SHARED_LOCK PASS_LOCK_QUEUE]
           [mk_lock 2 3 SHARED_LOCK PASS_LOCK_QUEUE]).
  - lia.
  - vm_compute. reflexivity.
  - reflexivity.
  - simpl. lia.
  - repeat constructor; simpl; lia.
Defined.

Lemma create_lock_enqueues_witness :
  1%nat = next_lock shared_by_one /\
  exists w,
    queue_of 7
      (mk_manager
         [[]; []; []; []; [];
          [mk_elem 5 SHARED_LOCK
             [mk_lock 0 1 SHARED_LOCK PASS_LOCK_QUEUE;
              mk_lock 1 2 EXCLUSIVE_LOCK WAIT_FOR_UNLOCK]]; []] 2 6) 5
    = queue_of 7 shared_by_one 5 ++ [mk_lock 1 2 EXCLUSIVE_LOCK w]
    /\ (w = PASS_LOCK_QUEUE <->
          match head (queue_of 7 shared_by_one 5) with
          | None => True
          | Some hd =>
              (lock_type hd = SHARED_LOCK /\ EXCLUSIVE_LOCK = SHARED_LOCK)
              \/ (lock_type hd = EXCLUSIVE_LOCK /\ TransactionId hd = 2)
          end)
    /\ (forall blk', blk' <> 5 ->
          queue_of 7
            (mk_manager
               [[]; []; []; []; [];
                [mk_elem 5 SHARED_LOCK
                   [mk_lock 0 1 SHARED_LOCK PASS_LOCK_QUEUE;
                    mk_lock 1 2 EXCLUSIVE_LOCK WAIT_FOR_UNLOCK]]; []] 2 6) blk'
          = queue_of 7 shared_by_one blk').
Proof.
  apply (proj2 (create_lock_enqueues 7) 5 EXCLUSIVE_LOCK 2 shared_by_one).
  - apply ptr_inv_shared_by_one.
  - vm_compute. reflexivity.
Defined.

Lemma reachable_table_shape_witness :
  table_shape 7 shared_by_two /\ distinct_records shared_by_two
  /\ ptr_inv 7 shared_by_two.
Proof.
  apply (reachable_table_shape 7 10
           [Acquire 5 SHARED_LOCK 1; Acquire 5 SHARED_LOCK 2]).
  vm_compute. reflexivity.
Defined.

End LockTableFacts.

(** * The transaction executor *)

Module ExecutorFacts.
Import Trans TransFacts LockShapes LockTableFacts.

Section Alone.
Variable N : Z.
Variable addr : string -> Z * Z.

Lemma queue_of_table m m' blk :
  LockTable m' = LockTable m -> queue_of N m' blk = queue_of N m blk.
Proof. intros H. unfold queue_of. by rewrite (record_of_table N m m'). Qed.

Lemma ptr_inv_table m m' :
  LockTable m' = LockTable m -> next_lock m' = next_lock m ->
  ptr_inv N m -> ptr_inv N m'.
Proof.
  intros HT Hn Hinv blk. rewrite (queue_of_table m m') by done. rewrite Hn.
  apply Hinv.
Qed.

Lemma malloc_nodes_table n m m' :
  malloc_nodes n m = Some m' ->
  LockTable m' = LockTable m /\ next_lock m' = next_lock m.
Proof.
  revert m. induction n as [|n IH]; intros m; simpl.
  - by intros [= <-].
  - destruct (malloc m) as [m1|] eqn:H1; simpl; [|done].
    intros H. apply IH in H as [-> ->].
    split; [by eapply malloc_table|by eapply malloc_next].
Qed.

Lemma get_memory_blocks_spec tbl m st blocks m1 :
  AK_get_memory_blocks addr tbl m = Some (st, blocks, m1) ->
  LockTable m1 = LockTable m /\ next_lock m1 = next_lock m /\
  match st with
  | OK => (addr tbl).1 <> 0 /\ blocks = block_range (addr tbl).1 (addr tbl).2
  | NOT_OK => (addr tbl).1 = 0 /\ blocks = [] /\ m1 = m
  end.
Proof.
  unfold AK_get_memory_blocks. destruct (addr tbl) as [from to]. simpl.
  case_decide.
  - by intros [= <- <- <-].
  - destruct (malloc_nodes _ m) as [m2|] eqn:Hm; simpl; [|done].
    intros [= <- <- <-]. apply malloc_nodes_table in Hm as [? ?]. done.
Qed.

Lemma find_lock_new lock (q : list AK_transaction_lock_elem) node :
  (forall l, l ∈ q -> lock_ptr l <> lock) -> lock_ptr node = lock ->
  find_lock lock (q ++ [node]) = Some node.
Proof.
  intros Hq Hn. unfold find_lock. induction q as [|l q IH]; simpl.
  - by rewrite (proj2 (Nat.eqb_eq _ _) Hn).
  - destruct (Nat.eqb_spec (lock_ptr l) lock) as [E|E].
    + exfalso. by apply (Hq l); [left|].
    + apply IH. intros l' Hl'. apply Hq. by right.
Qed.

Lemma queue_nonempty_record m blk :
  queue_of N m blk <> [] ->
  exists e, record_of N m blk = Some e /\ DLLLocks e = queue_of N m blk.
Proof.
  unfold queue_of. destruct (record_of N m blk) as [e|]; [|done].
  intros _. by exists e.
Qed.

(** [AK_acquire_lock] once the waiter is queued. *)
Lemma acquire_lock_queued blk ty tid others m lock m1 :
  ptr_inv N m ->
  AK_create_lock N blk ty tid m = Some (lock, m1) ->
  exists w,
    queue_of N m1 blk = queue_of N m blk ++ [mk_lock lock tid ty w]
    /\ (w = PASS_LOCK_QUEUE <->
          match head (queue_of N m blk) with
          | None => True
          | Some hd => passes_behind ty tid hd
          end)
    /\ (forall blk', blk' <> blk -> queue_of N m1 blk' = queue_of N m blk')
    /\ lock = next_lock m
    /\ ptr_inv N m1
    /\ AK_acquire_lock N blk ty tid others m
       = acquire_wait_loop N others blk ty tid lock w m1.
Proof.
  intros Hinv Hc.
  destruct (create_lock_queue N _ _ _ _ _ _ Hinv Hc) as (Hl & Hn & w & Hq & Hw & Ho).
  exists w. split_and!; try done.
  - eapply (ptr_inv_step N (Acquire blk ty tid)); [|exact Hinv].
    simpl. by rewrite Hc.
  - unfold AK_acquire_lock. rewrite Hc.
    assert (waiting_flag N blk lock m1 = Some w) as ->; [|done].
    destruct (queue_nonempty_record m1 blk) as (e & He & Hqe).
    { rewrite Hq. by intros [_ ?]%app_eq_nil. }
    unfold waiting_flag. rewrite (proj1 (record_of_search _ _ _ _) He). simpl.
    rewrite Hqe, Hq, find_lock_new; [done| |done].
    intros l Hll. destruct (Hinv blk) as [_ Hlt]. apply Hlt in Hll. lia.
Qed.

End Alone.

Section Commit.
Variable N : Z.
Variable addr : string -> Z * Z.

Lemma block_range_elem from to x :
  x ∈ block_range from to <-> from <= x < to.
Proof.
  unfold block_range. rewrite list_elem_of_fmap. split.
  - intros (k & -> & Hk). apply elem_of_seq in Hk. lia.
  - intros Hx. exists (Z.to_nat (x - from)). split; [lia|].
    apply elem_of_seq. lia.
Qed.

Lemma block_range_NoDup from to : NoDup (block_range from to).
Proof.
  unfold block_range. apply NoDup_fmap_2; [|apply NoDup_seq].
  intros a b H. lia.
Qed.

Lemma block_range_length from to :
  length (block_range from to) = Z.to_nat (to - from).
Proof. unfold block_range. by rewrite length_map, length_seq. Qed.

Lemma block_range_first from to :
  from < to -> exists tl, block_range from to = from :: tl.
Proof.
  intros H. unfold block_range.
  destruct (Z.to_nat (to - from)) as [|n] eqn:E; [lia|].
  simpl. rewrite Z.add_0_r. by eexists.
Qed.

Lemma malloc_heap_none m : malloc m = None -> heap_left m = 0%nat.
Proof. unfold malloc. by destruct (heap_left m). Qed.

Lemma malloc_nodes_heap n m :
  (n <= heap_left m)%nat ->
  exists m', malloc_nodes n m = Some m' /\ heap_left m = (heap_left m' + n)%nat.
Proof.
  revert m. induction n as [|n IH]; intros m Hn; simpl.
  - exists m. split; [done|lia].
  - unfold malloc. destruct (heap_left m) as [|h] eqn:Hh; [lia|]. simpl.
    destruct (IH (mk_manager (LockTable m) (next_lock m) h)) as (m' & -> & Hm');
      [simpl; lia|].
    exists m'. split; [done|]. simpl in Hm'. lia.
Qed.

Lemma malloc_nodes_short n m :
  (heap_left m < n)%nat -> malloc_nodes n m = None.
Proof.
  revert m. induction n as [|n IH]; intros m Hn; simpl; [lia|].
  unfold malloc. destruct (heap_left m) as [|h] eqn:Hh; [done|]. simpl.
  apply IH. simpl. lia.
Qed.

(** [AK_get_memory_blocks] returns [NOT_OK] for a table that starts at
    address 0; otherwise it lists the addresses from the first to the one
    before the last, one allocation each. *)
Lemma memory_blocks_listed (tbl : string) (m : lock_manager) :
  let from := (addr tbl).1 in
  let to := (addr tbl).2 in
  (from = 0 -> AK_get_memory_blocks addr tbl m = Some (NOT_OK, [], m))
  /\ (from <> 0 -> (Z.to_nat (to - from) <= heap_left m)%nat ->
       exists blocks m1,
         AK_get_memory_blocks addr tbl m = Some (OK, blocks, m1)
         /\ (forall x, x ∈ blocks <-> from <= x < to)
         /\ NoDup blocks
         /\ (forall i x, blocks !! i = Some x -> x = from + Z.of_nat i)
         /\ LockTable m1 = LockTable m
         /\ heap_left m = (heap_left m1 + length blocks)%nat)
  /\ (from <> 0 -> (heap_left m < Z.to_nat (to - from))%nat ->
       AK_get_memory_blocks addr tbl m = None).
Proof.
  unfold AK_get_memory_blocks. destruct (addr tbl) as [from to]. simpl.
  split_and!.
  - intros ->. by rewrite decide_True.
  - intros Hne Hh. rewrite decide_False by done.
    rewrite block_range_length.
    destruct (malloc_nodes_heap _ _ Hh) as (m1 & Hm1 & Hh1).
    exists (block_range from to), m1. rewrite Hm1. simpl.
    split_and!; try done.
    + apply block_range_elem.
    + apply block_range_NoDup.
    + intros i x. unfold block_range. rewrite list_lookup_fmap.
      intros Hx. destruct (seq 0 _ !! i) as [k|] eqn:Hk; [|done].
      apply lookup_seq in Hk as [-> _]. simpl in Hx. by injection Hx as <-.
    + by apply malloc_nodes_table in Hm1 as [? _].
    + by rewrite block_range_length.
  - intros Hne Hh. rewrite decide_False by done.
    rewrite block_range_length, malloc_nodes_short by done. done.
Qed.

Lemma delete_lock_entry_other blk tid m st m' blk' :
  blk' <> blk ->
  AK_delete_lock_entry_list N blk tid m = Some (st, m') ->
  queue_of N m' blk' = queue_of N m blk'.
Proof.
  intros Hne. unfold AK_delete_lock_entry_list.
  destruct (AK_search_existing_link_for_hook N (LockTable m) blk)
    as [r|] eqn:Hs; simpl; [|done].
  destruct r as [holder|]; simpl; [|done].
  apply record_of_search in Hs.
  pose proof (record_of_address _ _ _ _ Hs) as Ha.
  destruct (AK_search_lock_entry_list_by_key N holder tid) as [d|].
  - intros [= <- <-]. rewrite queue_of_store.
    destruct (delete_lock_loop_spec N (length (DLLLocks holder)) holder d tid)
      as [Ha' _].
    rewrite Ha', Ha. by rewrite decide_False by congruence.
  - by intros [= <- <-].
Qed.

Lemma release_locks_other addrs tid m m' blk :
  blk ∉ addrs ->
  AK_release_locks N addrs tid m = Some m' ->
  queue_of N m' blk = queue_of N m blk.
Proof.
  revert m. induction addrs as [|a addrs IH]; intros m Hin; simpl.
  - by intros [= <-].
  - apply not_elem_of_cons in Hin as [Hne Hin].
    destruct (AK_delete_lock_entry_list N a tid m) as [[st m1]|] eqn:Hd;
      simpl; [|done].
    destruct (AK_search_existing_link_for_hook N (LockTable m1) a) as [r|];
      simpl; [|done].
    destruct r; simpl; [|done].
    intros H. rewrite (IH m1 Hin H). by eapply delete_lock_entry_other.
Qed.

(** The inner loop of the executor when no other thread acts. *)
Lemma lock_blocks_alone self k ty addresses blocks st m st' o m1 :
  requested_lock k = Some ty ->
  NoDup blocks -> ptr_inv N m ->
  lock_blocks N self k addresses blocks st [] m = Returned (inr (st', o, m1)) ->
  ptr_inv N m1 /\ o = [] /\
  forall blk,
    if decide (blk ∈ blocks)
    then exists p, queue_of N m1 blk
                   = queue_of N m blk ++ [mk_lock p self ty PASS_LOCK_QUEUE]
    else queue_of N m1 blk = queue_of N m blk.
Proof.
  intros Hk. revert st m.
  induction blocks as [|a blocks IH]; intros st m Hnd Hinv;
    cbn [lock_blocks].
  - intros [= <- <- <-]. split; [done|]. split; [done|]. intros blk.
    case_decide as E; [by apply elem_of_nil in E|done].
  - rewrite Hk. apply NoDup_cons in Hnd as [Ha Hnd].
    destruct (AK_create_lock N a ty self m) as [[lock m2]|] eqn:Hc.
    2:{ unfold AK_acquire_lock. by rewrite Hc. }
    destruct (acquire_lock_queued N a ty self [] m lock m2 Hinv Hc)
      as (w & Hq & Hw & Ho & Hl & Hinv2 & ->).
    destruct w; [done|]. simpl.
    intros H. destruct (IH OK m2 Hnd Hinv2 H) as (Hinv1 & -> & Hq1).
    split_and!; try done. intros blk. specialize (Hq1 blk).
    destruct (decide (blk = a)) as [->|Hne].
    + rewrite decide_True by (by left). rewrite decide_False in Hq1 by done.
      exists lock. by rewrite Hq1, Hq.
    + destruct (decide (blk ∈ blocks)) as [Hin|Hin].
      * rewrite decide_True by (by right). rewrite Ho in Hq1 by done. done.
      * rewrite decide_False by (intros [?|?]%elem_of_cons; done).
        by rewrite Hq1, Ho.
Qed.

Local Abbreviation blocks_of c :=
  (block_range (addr (tblName c)).1 (addr (tblName c)).2).

(** The executor up to its final release when no other thread acts. *)
Lemma execute_loop_commit self cmds held st m m' :
  Forall (fun c => is_Some (requested_lock (id_command c))) cmds ->
  ptr_inv N m ->
  execute_loop N addr self cmds held st [] m
  = Returned (commit_after_release, m') ->
  exists m_pre last_blocks,
    match last cmds with
    | Some c => Some (blocks_of c)
    | None => held
    end = Some last_blocks
    /\ AK_release_locks N last_blocks self m_pre = Some m'
    /\ ptr_inv N m_pre
    /\ (forall blk, queue_of N m blk `prefix_of` queue_of N m_pre blk)
    /\ (forall c0 ty blk,
          c0 ∈ cmds -> requested_lock (id_command c0) = Some ty ->
          blk ∈ blocks_of c0 -> holds_lock N self ty blk m_pre).
Proof.
  intros Hc. revert held st m.
  induction Hc as [|c cmds [ty Hty] _ IH]; intros held st m Hinv;
    cbn [execute_loop].
  - destruct held as [h|]; [|done].
    destruct (AK_release_locks N h self m) as [m1|] eqn:Hr; [|done].
    intros [= <-]. exists m, h. split_and!; try done.
    intros c0 ty blk Hin. by apply elem_of_nil in Hin.
  - destruct (AK_get_memory_blocks addr (tblName c) m) as [[[s1 blocks] m1]|] eqn:Hg;
      [|done].
    apply get_memory_blocks_spec in Hg as (HT1 & Hn1 & Hs1).
    destruct s1; [|done]. destruct Hs1 as [_ ->].
    destruct (lock_blocks N self (id_command c) _ _ st [] m1)
      as [[x|[[st2 o2] m2]]| |] eqn:Hl; try done.
    { intros [= ->]. by eapply lock_blocks_no_abort in Hl. }
    apply (lock_blocks_alone self _ ty) in Hl as (Hinv2 & -> & Hq2);
      [|done|apply block_range_NoDup|by apply (ptr_inv_table N m)].
    intros H. destruct (IH _ _ _ Hinv2 H) as (m_pre & lb & Hlast & Hrel & Hinvp & Hpre & Hholds).
    assert (Hpre2 : forall blk, queue_of N m blk `prefix_of` queue_of N m2 blk).
    { intros blk. specialize (Hq2 blk).
      rewrite <- (queue_of_table N m m1) by done.
      case_decide; [destruct Hq2 as [p ->]; by apply prefix_app_r|by rewrite Hq2]. }
    exists m_pre, lb. split_and!; try done.
    + rewrite last_cons. by destruct (last cmds).
    + intros blk. etrans; [apply Hpre2|apply Hpre].
    + intros c0 ty0 blk [->|Hin]%elem_of_cons Hty0 Hblk; [|by eapply Hholds].
      assert (ty0 = ty) as -> by congruence.
      specialize (Hq2 blk). rewrite decide_True in Hq2 by done.
      destruct Hq2 as [p Hq2].
      exists (mk_lock p self ty PASS_LOCK_QUEUE). split; [|done].
      eapply elem_of_prefix; [|apply Hpre]. rewrite Hq2.
      apply elem_of_app. right. by left.
Qed.

Lemma execute_commands_m0 m :
  let m0 := match malloc m with Some m' => m' | None => m end in
  LockTable m0 = LockTable m /\ next_lock m0 = next_lock m.
Proof.
  simpl. destruct (malloc m) as [m'|] eqn:Hm; [|done].
  split; [by eapply malloc_table|by eapply malloc_next].
Qed.

(** X11.  When a transaction that runs alone commits, the release
    covers the blocks of its last command only: for every earlier
    command, the lock on each of its blocks that is no block of the last
    command is still granted to the transaction in the table after the
    commit. *)
Theorem commit_releases_last_command_only (self : pthread_t)
    (cmds : list command) (c : command) (m m' : lock_manager) :
  ptr_inv N m ->
  Forall (fun c => is_Some (requested_lock (id_command c))) (cmds ++ [c]) ->
  AK_execute_commands N addr self (cmds ++ [c]) [] m
  = Returned (commit_after_release, m') ->
  forall c0 ty blk,
    c0 ∈ cmds -> requested_lock (id_command c0) = Some ty ->
    blk ∈ block_range (addr (tblName c0)).1 (addr (tblName c0)).2 ->
    blk ∉ block_range (addr (tblName c)).1 (addr (tblName c)).2 ->
    holds_lock N self ty blk m'.
Proof.
  intros Hinv Hc. unfold AK_execute_commands.
  destruct (execute_commands_m0 m) as [HT0 Hn0].
  intros H c0 ty blk Hin Hty Hblk Hnot.
  apply execute_loop_commit in H
    as (m_pre & lb & Hlast & Hrel & Hinvp & Hpre & Hholds);
    [|done|by apply (ptr_inv_table N m)].
  rewrite last_snoc in Hlast. injection Hlast as <-.
  destruct (Hholds c0 ty blk) as (l & Hl & Hrest); try done.
  { apply elem_of_app. by left. }
  exists l. split; [|done].
  by rewrite (release_locks_other _ _ _ _ _ Hnot Hrel).
Qed.

(** X12.  A transaction of one command that runs alone and commits
    leaves every queue as it found it, when the queues of its blocks held
    at most [NUMBER_OF_KEYS] waiters and none of its own. *)
Theorem one_command_leaves_no_lock (self : pthread_t) (c : command)
    (m m' : lock_manager) :
  0 <= N -> ptr_inv N m ->
  is_Some (requested_lock (id_command c)) ->
  (forall blk, blk ∈ block_range (addr (tblName c)).1 (addr (tblName c)).2 ->
     Z.of_nat (length (queue_of N m blk)) <= N
     /\ Forall (fun l => TransactionId l <> self) (queue_of N m blk)) ->
  AK_execute_commands N addr self [c] [] m
  = Returned (commit_after_release, m') ->
  forall blk, queue_of N m' blk = queue_of N m blk.
Proof.
  intros HN Hinv [ty Hty] Hq. unfold AK_execute_commands.
  destruct (execute_commands_m0 m) as [HT0 Hn0].
  set (m0 := match malloc m with Some m'0 => m'0 | None => m end) in *.
  cbn [execute_loop].
  destruct (AK_get_memory_blocks addr (tblName c) _) as [[[s1 blocks] m1]|] eqn:Hg;
    [|done].
  apply get_memory_blocks_spec in Hg as (HT1 & Hn1 & Hs1).
  destruct s1; [|done]. destruct Hs1 as [_ ->].
  destruct (lock_blocks N self (id_command c) _ _ NOT_OK [] m1)
    as [[x|[[st2 o2] m2]]| |] eqn:Hl; try done.
  { intros [= ->]. by eapply lock_blocks_no_abort in Hl. }
  apply (lock_blocks_alone self _ ty) in Hl as (Hinv2 & -> & Hq2);
    [|done|apply block_range_NoDup|].
  2:{ apply (ptr_inv_table N m0); [done..|]. by apply (ptr_inv_table N m). }
  destruct (AK_release_locks N _ self m2) as [m3|] eqn:Hr; [|done].
  intros [= <-] blk.
  assert (Hm1 : forall b, queue_of N m1 b = queue_of N m b).
  { intros b. by rewrite (queue_of_table N m0 m1), (queue_of_table N m m0). }
  assert (Hlen2 : forall b, b ∈ blocks_of c ->
            Z.of_nat (length (queue_of N m2 b)) <= N + 1).
  { intros b Hin. specialize (Hq2 b). rewrite decide_True in Hq2 by done.
    destruct Hq2 as [p ->]. rewrite Hm1, length_app. simpl.
    destruct (Hq b Hin) as [Hlen _]. lia. }
  rewrite (release_locks_queues N _ _ _ _ HN (fun b => proj1 (Hinv2 b)) Hlen2 Hr).
  specialize (Hq2 blk). case_decide as Hin.
  - destruct Hq2 as [p ->]. rewrite Hm1. unfold waiters_of_others.
    rewrite filter_app, filter_cons, decide_False by (intros H; by apply H).
    rewrite filter_nil, app_nil_r. apply filter_all.
    intros x Hx. destruct (Hq blk Hin) as [_ HF].
    rewrite Forall_forall in HF. by apply HF.
  - by rewrite Hq2, Hm1.
Qed.

End Commit.

Section Returns.
Variable N : Z.
Variable addr : string -> Z * Z.
Hypothesis N_pos : 0 < N.

Local Abbreviation blocks_of c :=
  (block_range (addr (tblName c)).1 (addr (tblName c)).2).

Lemma malloc_heap m m' : malloc m = Some m' -> heap_left m = S (heap_left m').
Proof.
  unfold malloc. destruct (heap_left m) as [|h]; [done|]. by intros [= <-].
Qed.

Lemma store_record_heap e m : heap_left (store_record N e m) = heap_left m.
Proof. unfold store_record. by destruct (bucket_at _ _). Qed.

Lemma add_lock_heap e ty tid m lock e' m' :
  AK_add_lock e ty tid m = Some (lock, e', m') ->
  heap_left m = S (heap_left m').
Proof.
  unfold AK_add_lock. destruct (malloc m) as [m1|] eqn:Hm; [|done].
  cbn [mbind option_bind].
  destruct (AK_isLock_waiting _ _ _ _) as [[h w]|]; [|done].
  cbn [mbind option_bind]. intros [= <- <- <-]. simpl. by apply malloc_heap.
Qed.

Lemma add_hash_entry_heap blk ty m e m' :
  AK_add_hash_entry_list N blk ty m = Some (e, m') ->
  (heap_left m <= heap_left m' + 2)%nat.
Proof.
  unfold AK_add_hash_entry_list. destruct (bucket_at _ _) as [b|]; [|done].
  cbn [mbind option_bind]. destruct (find_elem blk b).
  - intros [= <- <-]. lia.
  - destruct (malloc m) as [m1|] eqn:H1; [|done]. cbn [mbind option_bind].
    destruct (malloc m1) as [m2|] eqn:H2; [|done]. cbn [mbind option_bind].
    intros [= <- <-]. simpl. apply malloc_heap in H1, H2. lia.
Qed.

Lemma create_lock_heap blk ty tid m lock m1 :
  AK_create_lock N blk ty tid m = Some (lock, m1) ->
  (heap_left m <= heap_left m1 + 3)%nat.
Proof.
  unfold AK_create_lock.
  destruct (AK_search_existing_link_for_hook N (LockTable m) blk) as [r|];
    [|done].
  cbn [mbind option_bind].
  destruct (match r with
            | Some elem => Some (elem, m)
            | None => AK_add_hash_entry_list N blk ty m
            end) as [[elem m0]|] eqn:Hr; [|done].
  cbn [mbind option_bind].
  destruct (AK_add_lock elem ty tid m0) as [[[l e'] m2]|] eqn:Ha; [|done].
  cbn [mbind option_bind]. intros [= <- <-]. rewrite store_record_heap.
  apply add_lock_heap in Ha.
  assert (heap_left m <= heap_left m0 + 2)%nat; [|lia].
  destruct r as [e0|]; [injection Hr as <- <-; lia|].
  by eapply add_hash_entry_heap.
Qed.

Lemma table_shape_length m :
  table_shape N m -> Z.of_nat (length (LockTable m)) = N.
Proof. intros [H _]. lia. Qed.

(** A request that runs alone and finds a head that lets it pass. *)
Lemma acquire_alone_passes blk ty self m :
  0 <= blk -> table_shape N m -> ptr_inv N m -> (3 <= heap_left m)%nat ->
  match head (queue_of N m blk) with
  | None => True
  | Some hd => passes_behind ty self hd
  end ->
  exists p m1,
    AK_acquire_lock N blk ty self [] m = Returned (OK, [], m1)
    /\ table_shape N m1 /\ ptr_inv N m1
    /\ (heap_left m <= heap_left m1 + 3)%nat
    /\ queue_of N m1 blk
       = queue_of N m blk ++ [mk_lock p self ty PASS_LOCK_QUEUE]
    /\ (forall blk', blk' <> blk -> queue_of N m1 blk' = queue_of N m blk')
    /\ (forall b, is_Some (record_of N m b) -> is_Some (record_of N m1 b)).
Proof.
  intros Hb Hsh Hinv Hheap Hhead.
  destruct (create_lock_returns N blk ty self m) as [[lock m1] Hc]; try done.
  { by apply table_shape_length. }
  destruct (acquire_lock_queued N blk ty self [] m lock m1 Hinv Hc)
    as (w & Hq & Hw & Ho & Hl & Hinv1 & Hacq).
  assert (w = PASS_LOCK_QUEUE) as ->.
  { apply Hw. by destruct (head (queue_of N m blk)). }
  exists lock, m1. split_and!; try done.
  - by eapply table_shape_create.
  - by eapply create_lock_heap.
  - intros b. apply (step_keeps_record N (Acquire blk ty self)).
    simpl. by rewrite Hc.
Qed.

(** The locks of one command, for a transaction that runs alone. *)
Lemma lock_blocks_alone_returns self k ty addresses blocks st m :
  requested_lock k = Some ty ->
  Forall (fun b => 0 <= b) blocks -> NoDup blocks ->
  table_shape N m -> ptr_inv N m -> (3 * length blocks <= heap_left m)%nat ->
  (forall b hd, b ∈ blocks -> head (queue_of N m b) = Some hd ->
     passes_behind ty self hd) ->
  exists st' m1,
    lock_blocks N self k addresses blocks st [] m
    = Returned (inr (st', [], m1))
    /\ table_shape N m1 /\ ptr_inv N m1
    /\ (heap_left m <= heap_left m1 + 3 * length blocks)%nat
    /\ (forall b, b ∈ blocks ->
          exists p, queue_of N m1 b
                    = queue_of N m b ++ [mk_lock p self ty PASS_LOCK_QUEUE])
    /\ (forall b, b ∉ blocks -> queue_of N m1 b = queue_of N m b)
    /\ (forall b, is_Some (record_of N m b) -> is_Some (record_of N m1 b))
    /\ (forall b, b ∈ blocks -> is_Some (record_of N m1 b)).
Proof.
  intros Hk Hpos Hnd. revert st m.
  induction blocks as [|a blocks IH]; intros st m Hsh Hinv Hheap Hheads.
  - exists st, m. split_and!; try done; try (simpl; lia).
    + intros b Hb. by apply elem_of_nil in Hb.
    + intros b Hb. by apply elem_of_nil in Hb.
  - apply Forall_cons in Hpos as [Ha Hpos].
    apply NoDup_cons in Hnd as [Hna Hnd].
    destruct (acquire_alone_passes a ty self m)
      as (p & m1 & Hacq & Hsh1 & Hinv1 & Hh1 & Hq1 & Ho1 & Hr1); try done.
    { simpl in Hheap. lia. }
    { destruct (head (queue_of N m a)) as [hd|] eqn:Hh; [|done].
      apply (Hheads a hd); [by left|done]. }
    destruct (IH Hpos Hnd OK m1) as (st' & m2 & Hl & Hsh2 & Hinv2 & Hh2 & Hq2 & Ho2 & Hr2 & Hrec2);
      try done.
    { simpl in Hheap. lia. }
    { intros b hd Hb. rewrite Ho1 by (intros ->; done).
      apply Hheads. by right. }
    exists st', m2. cbn [lock_blocks]. rewrite Hk, Hacq, Hl.
    split_and!; try done.
    + simpl length. lia.
    + intros b [->|Hb]%elem_of_cons.
      * exists p. rewrite Ho2 by done. done.
      * destruct (Hq2 b Hb) as [p' Hp']. exists p'. rewrite Hp'.
        rewrite Ho1; [done|]. intros ->. done.
    + intros b Hb. apply not_elem_of_cons in Hb as [Hba Hb].
      rewrite Ho2 by done. by apply Ho1.
    + intros b Hb. by apply Hr2, Hr1.
    + intros b [->|Hb]%elem_of_cons; [|by apply Hrec2].
      apply Hr2. destruct (queue_nonempty_record N m1 a) as (e & He & _).
      * rewrite Hq1. by intros [_ ?]%app_eq_nil.
      * by rewrite He.
Qed.

Lemma get_memory_blocks_returns tbl m :
  (addr tbl).1 <> 0 ->
  (length (block_range (addr tbl).1 (addr tbl).2) <= heap_left m)%nat ->
  exists m1,
    AK_get_memory_blocks addr tbl m
    = Some (OK, block_range (addr tbl).1 (addr tbl).2, m1)
    /\ LockTable m1 = LockTable m /\ next_lock m1 = next_lock m
    /\ heap_left m
       = (heap_left m1 + length (block_range (addr tbl).1 (addr tbl).2))%nat.
Proof.
  intros Hfrom Hheap. unfold AK_get_memory_blocks.
  destruct (addr tbl) as [from to]. simpl in *. rewrite decide_False by done.
  destruct (malloc_nodes_heap _ m Hheap) as (m1 & Hm & Hh).
  rewrite Hm. cbn [mbind option_bind]. exists m1. split; [done|].
  apply malloc_nodes_table in Hm as [? ?]. done.
Qed.

Lemma table_shape_same m m' :
  LockTable m' = LockTable m -> table_shape N m -> table_shape N m'.
Proof. intros H. unfold table_shape. by rewrite H. Qed.

Lemma passes_behind_own ty self p :
  ty = SHARED_LOCK \/ ty = EXCLUSIVE_LOCK ->
  passes_behind ty self (mk_lock p self ty PASS_LOCK_QUEUE).
Proof. intros [-> | ->]; [by left|by right]. Qed.

Lemma requested_lock_kinds k ty :
  requested_lock k = Some ty -> ty = SHARED_LOCK \/ ty = EXCLUSIVE_LOCK.
Proof. destruct k; intros [= <-]; auto. Qed.

(** The commands of a transaction that runs alone and finds heads that
    let it pass. *)
Lemma execute_loop_alone_commits self ty cmds : forall held st m,
  Forall (fun c => requested_lock (id_command c) = Some ty
                   /\ 0 < (addr (tblName c)).1) cmds ->
  table_shape N m -> ptr_inv N m -> heads_pass N ty self m ->
  match held with
  | Some h => forall b, b ∈ h -> is_Some (record_of N m b)
  | None => cmds <> []
  end ->
  (sum_list (map (fun c => 4 * length (blocks_of c))%nat cmds)
   <= heap_left m)%nat ->
  exists m',
    execute_loop N addr self cmds held st [] m
    = Returned (commit_after_release, m').
Proof.
  induction cmds as [|c cmds IH]; intros held st m Hc Hsh Hinv Hpass Hheld Hheap.
  - destruct held as [h|]; [|done]. cbn [execute_loop].
    destruct (release_locks_returns N h self m Hheld) as [m' ->].
    by exists m'.
  - apply Forall_cons in Hc as [[Hk Hfrom] Hc].
    change (sum_list (map (fun c => 4 * length (blocks_of c))%nat (c :: cmds)))
      with (4 * length (blocks_of c)
            + sum_list (map (fun c => 4 * length (blocks_of c))%nat cmds))%nat
      in Hheap.
    destruct (get_memory_blocks_returns (tblName c) m) as (m1 & Hg & HT1 & Hn1 & Hh1);
      [lia|lia|].
    cbn [execute_loop]. rewrite Hg.
    destruct (lock_blocks_alone_returns self (id_command c) ty (blocks_of c)
                (blocks_of c) st m1 Hk)
      as (st' & m2 & Hl & Hsh2 & Hinv2 & Hh2 & Hq2 & Ho2 & Hr2 & Hrec2).
    + apply Forall_forall. intros b Hb%(block_range_elem). lia.
    + apply block_range_NoDup.
    + by apply (table_shape_same m).
    + by apply (ptr_inv_table N m).
    + lia.
    + intros b hd _. rewrite (queue_of_table N m m1) by done. apply Hpass.
    + rewrite Hl.
      apply IH; try done.
      * intros b hd. destruct (decide (b ∈ blocks_of c)) as [Hb|Hb].
        -- destruct (Hq2 b Hb) as [p ->]. rewrite (queue_of_table N m m1) by done.
           destruct (queue_of N m b) as [|x q] eqn:Hq; simpl.
           ++ intros [= <-]. apply passes_behind_own.
              by eapply requested_lock_kinds.
           ++ intros [= <-]. apply (Hpass b). by rewrite Hq.
        -- rewrite Ho2, (queue_of_table N m m1) by done. apply Hpass.
      * lia.
Qed.

(** X9.  A transaction that runs alone on a table with its
    buckets, with commands on tables at a positive address and with four
    allocations left for every block of every command and one more,
    returns [COMMIT] and has waited for no lock, when its commands are
    all [SELECT] and the head of every queue is shared or is its own
    exclusive waiter, and when its commands are all [INSERT], [UPDATE]
    or [DELETE] and the head of every queue is its own exclusive waiter,
    so on a table without waiters. *)
Theorem compatible_transactions_never_wait :
  (forall self cmds m,
      table_shape N m -> ptr_inv N m -> cmds <> [] ->
      (forall blk hd, head (queue_of N m blk) = Some hd ->
         lock_type hd = SHARED_LOCK
         \/ (lock_type hd = EXCLUSIVE_LOCK /\ TransactionId hd = self)) ->
      Forall (fun c => id_command c = SELECT /\ 0 < (addr (tblName c)).1) cmds ->
      (allocations_bound addr cmds <= heap_left m)%nat ->
      exists m',
        AK_execute_commands N addr self cmds [] m
        = Returned (commit_after_release, m'))
  /\ (forall self cmds m,
        table_shape N m -> ptr_inv N m -> cmds <> [] ->
        (forall blk hd, head (queue_of N m blk) = Some hd ->
           lock_type hd = EXCLUSIVE_LOCK /\ TransactionId hd = self) ->
        Forall (fun c => (id_command c = INSERT \/ id_command c = UPDATE
                          \/ id_command c = DELETE)
                         /\ 0 < (addr (tblName c)).1) cmds ->
        (allocations_bound addr cmds <= heap_left m)%nat ->
        exists m',
          AK_execute_commands N addr self cmds [] m
          = Returned (commit_after_release, m')).
Proof.
  assert (Hgen : forall ty self cmds m,
             table_shape N m -> ptr_inv N m -> cmds <> [] ->
             heads_pass N ty self m ->
             Forall (fun c => requested_lock (id_command c) = Some ty
                              /\ 0 < (addr (tblName c)).1) cmds ->
             (allocations_bound addr cmds <= heap_left m)%nat ->
             exists m',
               AK_execute_commands N addr self cmds [] m
               = Returned (commit_after_release, m')).
  { intros ty self cmds m Hsh Hinv Hne Hpass Hc Hheap.
    unfold AK_execute_commands, allocations_bound in *.
    destruct (malloc m) as [m0|] eqn:Hm; [|apply malloc_heap_none in Hm; lia].
    pose proof (malloc_heap _ _ Hm) as Hh0.
    pose proof (malloc_table _ _ Hm) as HT0.
    pose proof (malloc_next _ _ Hm) as Hn0.
    apply (execute_loop_alone_commits self ty); try done.
    - by apply (table_shape_same m).
    - by apply (ptr_inv_table N m).
    - intros blk hd. rewrite (queue_of_table N m m0) by done. apply Hpass.
    - lia. }
  split.
  - intros self cmds m Hsh Hinv Hne Hh Hc Hheap.
    apply (Hgen SHARED_LOCK self); try done.
    + intros blk hd H. destruct (Hh _ _ H) as [?|[? ?]]; [by left|by right].
    + eapply Forall_impl; [exact Hc|]. by intros c [-> ?].
  - intros self cmds m Hsh Hinv Hne Hh Hc Hheap.
    apply (Hgen EXCLUSIVE_LOCK self); try done.
    + intros blk hd H. right. by apply (Hh blk).
    + eapply Forall_impl; [exact Hc|]. by intros c [[->|[->| ->]] ?].
Qed.

(** X10.  A transaction that runs alone, reads a table of one
    block at least with [SELECT] and then writes the same table is left
    waiting in [AK_acquire_lock], when the table has its buckets, the
    queues of the blocks of the table are empty or headed by its own
    shared waiters, and five allocations are left for every block and
    four more: at the end of the queue of the first block its exclusive
    request waits behind its own shared lock, which is granted and which
    is released at commit only. *)
Theorem read_then_write_never_returns (self : pthread_t) (t : string)
    (k : command_kind) (rest : list command) (m : lock_manager) :
  table_shape N m -> ptr_inv N m ->
  0 < (addr t).1 -> (addr t).1 < (addr t).2 ->
  (forall blk hd, blk ∈ block_range (addr t).1 (addr t).2 ->
     head (queue_of N m blk) = Some hd ->
     lock_type hd = SHARED_LOCK /\ TransactionId hd = self) ->
  requested_lock k = Some EXCLUSIVE_LOCK ->
  (5 * length (block_range (addr t).1 (addr t).2) + 4 <= heap_left m)%nat ->
  exists m' p1 p2,
    AK_execute_commands N addr self
      (mk_command SELECT t :: mk_command k t :: rest) [] m
    = Blocked m'
    /\ queue_of N m' (addr t).1
       = queue_of N m (addr t).1
         ++ [mk_lock p1 self SHARED_LOCK PASS_LOCK_QUEUE;
             mk_lock p2 self EXCLUSIVE_LOCK WAIT_FOR_UNLOCK].
Proof.
  intros Hsh Hinv Hfrom Hlt Hheads Hk Hheap.
  set (B := block_range (addr t).1 (addr t).2) in *.
  unfold AK_execute_commands.
  destruct (malloc m) as [m0|] eqn:Hm; [|apply malloc_heap_none in Hm; lia].
  pose proof (malloc_heap _ _ Hm) as Hh0.
  pose proof (malloc_table _ _ Hm) as HT0.
  pose proof (malloc_next _ _ Hm) as Hn0.
  cbn [execute_loop tblName id_command].
  destruct (get_memory_blocks_returns t m0) as (m1 & Hg & HT1 & Hn1 & Hh1);
    [lia|fold B; lia|].
  fold B in Hg, Hh1. rewrite Hg.
  destruct (lock_blocks_alone_returns self SELECT SHARED_LOCK B B NOT_OK m1 eq_refl)
    as (st' & m2 & Hl & Hsh2 & Hinv2 & Hh2 & Hq2 & Ho2 & Hr2 & Hrec2).
  { apply Forall_forall. intros b Hb%(block_range_elem). lia. }
  { apply block_range_NoDup. }
  { apply (table_shape_same m0); [done|]. by apply (table_shape_same m). }
  { apply (ptr_inv_table N m0); [done..|]. by apply (ptr_inv_table N m). }
  { lia. }
  { intros b hd Hb.
    rewrite (queue_of_table N m0 m1), (queue_of_table N m m0) by done.
    intros Hhd. left. split; [|done]. by apply (Hheads b hd). }
  rewrite Hl.
  destruct (get_memory_blocks_returns t m2) as (m3 & Hg3 & HT3 & Hn3 & Hh3);
    [lia|fold B; lia|].
  fold B in Hg3, Hh3. rewrite Hg3.
  destruct (block_range_first _ _ Hlt) as [tl Htl]. fold B in Htl.
  assert (Hin : (addr t).1 ∈ B) by (rewrite Htl; by left).
  destruct (Hq2 _ Hin) as [p1 Hq].
  rewrite (queue_of_table N m0 m1), (queue_of_table N m m0) in Hq by done.
  rewrite Htl. cbn [lock_blocks]. rewrite Hk.
  destruct (create_lock_returns N (addr t).1 EXCLUSIVE_LOCK self m3)
    as [[lock m4] Hc]; try done.
  { lia. }
  { apply table_shape_length. by apply (table_shape_same m2). }
  { lia. }
  destruct (acquire_lock_queued N (addr t).1 EXCLUSIVE_LOCK self [] m3 lock m4)
    as (w & Hq4 & Hw & _ & _ & _ & Hacq); [by apply (ptr_inv_table N m2)|done|].
  rewrite (queue_of_table N m2 m3) in Hq4, Hw by done.
  assert (w = WAIT_FOR_UNLOCK) as ->.
  { destruct w; [done|]. exfalso. rewrite Hq in Hw.
    destruct (queue_of N m (addr t).1) as [|hd q] eqn:Hq0; simpl in Hw.
    - destruct (proj1 Hw eq_refl) as [[_ ?]|[? _]]; done.
    - destruct (Hheads (addr t).1 hd Hin) as [Hty _]; [by rewrite Hq0|].
      destruct (proj1 Hw eq_refl) as [[_ ?]|[? _]]; congruence. }
  rewrite Hacq. cbn [acquire_wait_loop].
  exists m4, p1, lock. split; [done|]. rewrite Hq4, Hq.
  by rewrite <- app_assoc.
Qed.

End Returns.

Lemma init_queue_empty N heap blk : queue_of N (init N heap) blk = [].
Proof. unfold queue_of. by rewrite init_no_record. Qed.

Lemma find_elem_in blk b e : find_elem blk b = Some e -> e ∈ b.
Proof.
  induction b as [|x b IH]; simpl; [done|]. case_decide as Hx.
  - intros [= ->]. by left.
  - intros Hf. right. by apply IH.
Qed.

Lemma queue_of_in_table N m blk l :
  l ∈ queue_of N m blk ->
  exists b e, b ∈ LockTable m /\ e ∈ b /\ l ∈ DLLLocks e.
Proof.
  unfold queue_of, record_of, AK_search_existing_link_for_hook, bucket_at.
  case_decide; [|by intros ?%elem_of_nil].
  destruct (LockTable m !! Z.to_nat (AK_memory_block_hash N blk)) as [b|] eqn:Hb;
    [|by intros ?%elem_of_nil].
  simpl. destruct (find_elem blk b) as [e|] eqn:He; [|by intros ?%elem_of_nil].
  intros Hl. exists b, e. split_and!; [|by eapply find_elem_in|done].
  by eapply list_elem_of_lookup_2.
Qed.

Lemma compatible_transactions_never_wait_witness :
  exists m',
    AK_execute_commands 7 student_only 1 [mk_command SELECT "student"] []
      (mk_manager
         [[]; []; []; []; [];
          [mk_elem 5 SHARED_LOCK [mk_lock 0 2 SHARED_LOCK PASS_LOCK_QUEUE]];
          []] 1 10)
    = Returned (commit_after_release, m').
Proof.
  apply (proj1 (compatible_transactions_never_wait 7 student_only ltac:(lia)) 1
           [mk_command SELECT "student"]).
  - apply (table_shape_run 7 [Acquire 5 SHARED_LOCK 2] (init 7 13));
      [by apply table_shape_init|done].
  - apply (ptr_inv_run 7 [Acquire 5 SHARED_LOCK 2] (init 7 13)); [done|].
    apply ptr_inv_init.
  - discriminate.
  - intros blk hd Hhd. left. apply head_Some_elem_of in Hhd.
    apply queue_of_in_table in Hhd as (b & e & Hb & He & Hl). simpl in Hb.
    repeat (apply elem_of_cons in Hb as [->|Hb]);
      try (by apply elem_of_nil in He); try (by apply elem_of_nil in Hb).
    apply list_elem_of_singleton in He as ->.
    by apply list_elem_of_singleton in Hl as ->.
  - repeat constructor.
  - vm_compute. lia.
Defined.

Lemma read_then_write_never_returns_witness :
  exists m' p1 p2,
    AK_execute_commands 7 student_only 1
      [mk_command SELECT "student"; mk_command UPDATE "student"] []
      (init 7 14)
    = Blocked m'
    /\ queue_of 7 m' 5
       = queue_of 7 (init 7 14) 5
         ++ [mk_lock p1 1 SHARED_LOCK PASS_LOCK_QUEUE;
             mk_lock p2 1 EXCLUSIVE_LOCK WAIT_FOR_UNLOCK].
Proof.
  apply (read_then_write_never_returns 7 student_only ltac:(lia) 1 "student"
           UPDATE [] (init 7 14)).
  - apply table_shape_init.
  - apply ptr_inv_init.
  - reflexivity.
  - reflexivity.
  - intros blk hd _. by rewrite init_queue_empty.
  - reflexivity.
  - vm_compute. lia.
Defined.

Lemma commit_releases_last_command_only_witness :
  exists m',
    AK_execute_commands 7 student_and_course 1
      [mk_command INSERT "student"; mk_command SELECT "course"] [] (init 7 20)
    = Returned (commit_after_release, m')
    /\ holds_lock 7 1 EXCLUSIVE_LOCK 5 m'.
Proof.
  eexists. split; [vm_compute; reflexivity|].
  apply (commit_releases_last_command_only 7 student_and_course 1
           [mk_command INSERT "student"] (mk_command SELECT "course")
           (init 7 20) _ (ptr_inv_init 7 20)
           ltac:(repeat constructor; by eexists)
           ltac:(vm_compute; reflexivity)
           (mk_command INSERT "student") EXCLUSIVE_LOCK 5).
  - apply list_elem_of_singleton. reflexivity.
  - reflexivity.
  - vm_compute. apply elem_of_cons. by left.
  - vm_compute. intros H. apply list_elem_of_singleton in H. discriminate.
Defined.

Lemma one_command_leaves_no_lock_witness :
  exists m',
    AK_execute_commands 7 student_only 1 [mk_command SELECT "student"] []
      (init 7 10)
    = Returned (commit_after_release, m')
    /\ forall blk, queue_of 7 m' blk = queue_of 7 (init 7 10) blk.
Proof.
  eexists. split; [vm_compute; reflexivity|].
  apply (one_command_leaves_no_lock 7 student_only 1
           (mk_command SELECT "student") (init 7 10)).
  - lia.
  - apply ptr_inv_init.
  - by eexists.
  - intros blk _. rewrite init_queue_empty. split; [simpl; lia|constructor].
  - vm_compute. reflexivity.
Defined.

End ExecutorFacts.

(** * The transaction manager *)

Module ManagerFacts.
Import Trans TransFacts.

Lemma scan_slots_first v slots i n k :
  scan_slots v slots i n = Some k ->
  (i <= k < i + n)%nat /\ forall j, (i <= j < k)%nat -> slots !! j <> Some v.
Proof.
  revert i. induction n as [|n IH]; intros i; simpl; [done|].
  destruct (slots !! i) as [x|] eqn:Hx; [|done].
  case_decide as E.
  - intros [= <-]. split; [lia|]. intros j Hj. lia.
  - intros H. apply IH in H as [Hk Hj]. split; [lia|].
    intros j Hij. destruct (decide (j = i)) as [->|Hne].
    + rewrite Hx. congruence.
    + apply Hj. lia.
Qed.

Lemma scan_slots_finds v slots i n k :
  (i <= k < i + n)%nat -> slots !! k = Some v ->
  (forall j, (i <= j < k)%nat -> slots !! j <> Some v) ->
  (forall j, (i <= j < k)%nat -> is_Some (slots !! j)) ->
  scan_slots v slots i n = Some k.
Proof.
  revert i. induction n as [|n IH]; intros i Hk Hv Hj Hs; simpl; [lia|].
  destruct (decide (i = k)) as [->|Hne].
  - rewrite Hv. by rewrite decide_True.
  - destruct (Hs i ltac:(lia)) as [x Hx]. rewrite Hx.
    rewrite decide_False by (intros ->; by apply (Hj i ltac:(lia))).
    apply IH; [lia|done| |]; intros j Hij; [apply Hj|apply Hs]; lia.
Qed.

Lemma scan_slots_full v slots i n :
  v ∉ slots -> scan_slots v slots i n = None.
Proof.
  intros Hv. revert i. induction n as [|n IH]; intros i; simpl; [done|].
  destruct (slots !! i) as [x|] eqn:Hx; [|done].
  rewrite decide_False; [apply IH|].
  intros ->. apply Hv. by eapply list_elem_of_lookup_2.
Qed.



(** X14.  [AK_create_new_transaction_thread] on an array with a
    free slot returns [OK], stores the thread and counts it, and
    [AK_remove_transaction_thread] of that thread then returns [OK] and
    gives back the array and the counter as they were.  Without a free
    slot the creation returns [NOT_OK], and so does the removal of a
    thread that is not in the array; both change nothing. *)
Theorem thread_slot_round_trip :
  (forall t1 s,
      t1 <> 0 -> t1 ∉ activeThreads s ->
      length (activeThreads s) = Z.to_nat MAX_ACTIVE_TRANSACTIONS_COUNT ->
      0 ∈ activeThreads s ->
      exists s1 s2,
        AK_create_new_transaction_thread t1 s = (OK, s1)
        /\ t1 ∈ activeThreads s1
        /\ activeTransactionsCount s1 = activeTransactionsCount s + 1
        /\ AK_remove_transaction_thread t1 s1 = (OK, s2)
        /\ activeThreads s2 = activeThreads s
        /\ activeTransactionsCount s2 = activeTransactionsCount s)
  /\ (forall t1 s,
        0 ∉ activeThreads s ->
        AK_create_new_transaction_thread t1 s = (NOT_OK, s))
  /\ (forall t s,
        t ∉ activeThreads s ->
        AK_remove_transaction_thread t s = (NOT_OK, s)).
Proof.
  split_and!.
  - intros t1 s Ht Hnot Hlen H0.
    unfold AK_create_new_transaction_thread.
    destruct (scan_slots 0 (activeThreads s) 0 _) as [k|] eqn:Hk.
    2:{ apply scan_slots_None in Hk; [|by rewrite Hlen].
        by rewrite drop_0 in Hk. }
    pose proof (scan_slots_Some _ _ _ _ _ Hk) as Hk0.
    apply scan_slots_first in Hk as [Hkr Hfirst].
    eexists _, _. split; [done|].
    cbn [activeThreads activeTransactionsCount].
    assert (Hkl : (k < length (activeThreads s))%nat) by (by eapply lookup_lt_Some).
    split_and!.
    + apply list_elem_of_lookup. exists k. by apply list_lookup_insert_eq.
    + done.
    + unfold AK_remove_transaction_thread. cbn [activeThreads].
      rewrite (scan_slots_finds t1 _ 0 _ k); [done|lia| | |].
      * by apply list_lookup_insert_eq.
      * intros j Hj. rewrite list_lookup_insert_ne by lia.
        intros Hj'. apply Hnot. by eapply list_elem_of_lookup_2.
      * intros j Hj. apply lookup_lt_is_Some. rewrite length_insert. lia.
    + simpl. rewrite list_insert_insert_eq. by apply list_insert_id.
    + simpl. lia.
  - intros t1 s H0. unfold AK_create_new_transaction_thread.
    by rewrite scan_slots_full.
  - intros t s Ht. unfold AK_remove_transaction_thread.
    by rewrite scan_slots_full.
Qed.


Lemma thread_slot_round_trip_witness :
  exists s1 s2,
    AK_create_new_transaction_thread 7 (tx_init true) = (OK, s1)
    /\ 7 ∈ activeThreads s1
    /\ activeTransactionsCount s1 = activeTransactionsCount (tx_init true) + 1
    /\ AK_remove_transaction_thread 7 s1 = (OK, s2)
    /\ activeThreads s2 = activeThreads (tx_init true)
    /\ activeTransactionsCount s2 = activeTransactionsCount (tx_init true).
Proof.
  apply (proj1 thread_slot_round_trip 7 (tx_init true)).
  - discriminate.
  - apply (bool_decide_unpack _). vm_compute. exact I.
  - reflexivity.
  - apply elem_of_cons. by left.
Defined.

End ManagerFacts.

(** * The attribute utilities and the token stream *)

Module AttributeFacts.
Import Opti OptiFacts AttrShapes.
Open Scope nat_scope.

(** ** Tokens and their concatenation *)

Lemma append_nil_l (s : string) : ("" ++ s)%string = s.
Proof. reflexivity. Qed.

Lemma append_cons c (a s : string) :
  (String c a ++ s)%string = String c (a ++ s)%string.
Proof. reflexivity. Qed.

Lemma string_app_nil_r (s : string) : (s ++ "")%string = s.
Proof.
  induction s as [|c s IH]; [done|]. by rewrite append_cons, IH.
Qed.

Lemma split_attr_plain a s :
  holds ATTR_DELIMITER a = false ->
  split_attr (a ++ s) = ((a ++ (split_attr s).1)%string, (split_attr s).2).
Proof.
  induction a as [|c a IH]; cbn [holds].
  - intros _. rewrite !append_nil_l. by destruct (split_attr s).
  - intros [Hc Ha]%orb_false_elim. rewrite !append_cons. cbn [split_attr].
    rewrite IH by done.
    destruct (split_attr s) as [cur rest]. simpl. by rewrite Hc.
Qed.

Lemma tokenize_cons a s :
  attribute_name a ->
  tokenize (a ++ String ATTR_DELIMITER s) = a :: tokenize s.
Proof.
  intros [Hne Ha]. unfold tokenize.
  rewrite split_attr_plain by done. cbn [split_attr].
  destruct (split_attr s) as [cur rest]. simpl.
  rewrite string_app_nil_r. by destruct a.
Qed.

Lemma tokenize_single a : attribute_name a -> tokenize a = [a].
Proof.
  intros [Hne Ha]. unfold tokenize.
  rewrite <- (string_app_nil_r a) at 1. rewrite split_attr_plain by done.
  simpl. rewrite string_app_nil_r. by destruct a.
Qed.

Lemma tokenize_join l : Forall attribute_name l -> tokenize (join_attr l) = l.
Proof.
  induction 1 as [|a l Ha Hl IH]; [done|].
  destruct l as [|b l]; [by apply tokenize_single|].
  change (join_attr (a :: b :: l))
    with (a ++ String ATTR_DELIMITER (join_attr (b :: l)))%string.
  by rewrite tokenize_cons, IH.
Qed.

Lemma split_attr_names s :
  holds ATTR_DELIMITER (split_attr s).1 = false
  /\ Forall attribute_name (split_attr s).2.
Proof.
  induction s as [|c s [IH1 IH2]]; simpl; [by split|].
  destruct (split_attr s) as [cur rest]. simpl in *.
  destruct (Ascii.eqb c ATTR_DELIMITER) eqn:Hc; simpl.
  - split; [done|]. destruct cur; [done|]. by constructor.
  - split; [|done]. by rewrite Hc.
Qed.

Lemma tokenize_names s : Forall attribute_name (tokenize s).
Proof.
  unfold tokenize. pose proof (split_attr_names s) as [H1 H2].
  destruct (split_attr s) as [cur rest]. simpl in *.
  destruct cur; [done|]. by constructor.
Qed.

(** Joining attribute names and cutting the result gives the names
    back; the tokens cut from a string are attribute names. *)
Lemma tokenize_join_round_trip :
  (forall l, Forall attribute_name l -> tokenize (join_attr l) = l)
  /\ (forall s, Forall attribute_name (tokenize s))
  /\ (forall s, tokenize (join_attr (tokenize s)) = tokenize s).
Proof.
  split_and!; [apply tokenize_join|apply tokenize_names|].
  intros s. apply tokenize_join, tokenize_names.
Qed.

Section Tokens.
Variable MAX_TOKENS : nat.
Variable AK_get_header : string -> list string.

Lemma existsb_eqb_elem (t : string) (l : list string) :
  existsb (String.eqb t) l = true <-> t ∈ l.
Proof.
  rewrite existsb_exists. split.
  - intros (x & Hx & E). apply String.eqb_eq in E. subst x.
    by apply list_elem_of_In.
  - intros Ht. exists t. split; [by apply list_elem_of_In|apply String.eqb_refl].
Qed.

Lemma remove_seen_elem seen l x :
  x ∈ remove_seen seen l <-> x ∈ l /\ x ∉ seen.
Proof.
  revert seen. induction l as [|t l IH]; intros seen; simpl.
  - split; [by intros ?%elem_of_nil|by intros [?%elem_of_nil _]].
  - destruct (existsb (String.eqb t) seen) eqn:E.
    + apply existsb_eqb_elem in E. rewrite IH, elem_of_cons, not_elem_of_app.
      split.
      * intros (H1 & H2 & H3). split; [by right|done].
      * intros [[->|H1] H2]; [done|]. split_and!; try done.
        intros ->%list_elem_of_singleton. done.
    + assert (t ∉ seen) as Ht.
      { intros H. apply existsb_eqb_elem in H. congruence. }
      rewrite !elem_of_cons, IH, not_elem_of_app. split.
      * intros [->|(H1 & H2 & H3)]; [by split; [left|]|]. split; [by right|done].
      * intros [[->|H1] H2]; [by left|].
        destruct (decide (x = t)) as [->|Hne]; [by left|right].
        split_and!; try done. by intros ?%list_elem_of_singleton.
Qed.

Lemma remove_seen_NoDup seen l : NoDup (remove_seen seen l).
Proof.
  revert seen. induction l as [|t l IH]; intros seen; simpl; [constructor|].
  destruct (existsb (String.eqb t) seen) eqn:E; [apply IH|].
  constructor; [|apply IH]. rewrite remove_seen_elem, not_elem_of_app.
  intros (_ & _ & H). apply H. by left.
Qed.

Lemma remove_seen_sublist seen l : remove_seen seen l `sublist_of` l.
Proof.
  revert seen. induction l as [|t l IH]; intros seen; simpl; [done|].
  destruct (existsb (String.eqb t) seen);
    [by apply sublist_cons|by apply sublist_skip].
Qed.

Lemma remove_seen_NoDup_id seen l :
  NoDup l -> (forall x, x ∈ l -> x ∉ seen) -> remove_seen seen l = l.
Proof.
  intros Hnd. revert seen. induction Hnd as [|t l Ht Hnd IH]; intros seen Hs;
    simpl; [done|].
  destruct (existsb (String.eqb t) seen) eqn:E.
  - apply existsb_eqb_elem in E. exfalso. by apply (Hs t); [left|].
  - f_equal. apply IH. intros x Hx. rewrite not_elem_of_app. split.
    + apply Hs. by right.
    + intros ->%list_elem_of_singleton. done.
Qed.

Lemma Forall_sublist {A} (P : A -> Prop) (l k : list A) :
  l `sublist_of` k -> Forall P k -> Forall P l.
Proof.
  intros Hs Hk. apply Forall_forall. intros x Hx.
  rewrite Forall_forall in Hk. apply Hk. by eapply elem_of_sublist.
Qed.

Lemma remove_seen_app seen l1 l2 :
  remove_seen seen (l1 ++ l2)
  = remove_seen seen l1 ++ remove_seen (seen ++ l1) l2.
Proof.
  revert seen. induction l1 as [|t l1 IH]; intros seen; simpl.
  - by rewrite app_nil_r.
  - rewrite IH, <- app_assoc. simpl.
    by destruct (existsb (String.eqb t) seen).
Qed.

(** X15.  For an attribute string of fewer than [MAX_TOKENS]
    tokens, the tokens of [AK_rel_eq_remove_duplicates] are the tokens of
    the string without repetition: the same names, in the order of the
    string, each at its first place: where a name stands in the string
    for the first time, the result has in front of it the names that
    the string has in front of it, and behind it names that the string
    has behind it.  A string without repetition keeps its tokens, and
    removing twice is removing once. *)
Theorem remove_duplicates_keeps_first (attribs : string) :
  length (tokenize attribs) < MAX_TOKENS ->
  let out := tokenize (AK_rel_eq_remove_duplicates MAX_TOKENS attribs) in
  NoDup out
  /\ (forall x, x ∈ out <-> x ∈ tokenize attribs)
  /\ out `sublist_of` tokenize attribs
  /\ (forall l1 x l2,
        tokenize attribs = l1 ++ x :: l2 -> x ∉ l1 ->
        exists o1 o2,
          out = o1 ++ x :: o2
          /\ (forall y, y ∈ o1 <-> y ∈ l1)
          /\ o1 `sublist_of` l1 /\ o2 `sublist_of` l2)
  /\ (NoDup (tokenize attribs) -> out = tokenize attribs)
  /\ AK_rel_eq_remove_duplicates MAX_TOKENS
       (AK_rel_eq_remove_duplicates MAX_TOKENS attribs)
     = AK_rel_eq_remove_duplicates MAX_TOKENS attribs.
Proof.
  intros Hlen. unfold AK_rel_eq_remove_duplicates.
  rewrite (stored_tokens_all _ _ Hlen).
  assert (Hout : tokenize (join_attr (remove_seen [] (tokenize attribs)))
                 = remove_seen [] (tokenize attribs)).
  { apply tokenize_join. eapply Forall_sublist; [apply remove_seen_sublist|].
    apply tokenize_names. }
  cbv zeta. rewrite Hout. split_and!.
  - apply remove_seen_NoDup.
  - intros x. rewrite remove_seen_elem. split; [by intros [? _]|].
    intros H. split; [done|apply not_elem_of_nil].
  - apply remove_seen_sublist.
  - intros l1 x l2 -> Hx. rewrite remove_seen_app. simpl.
    assert (existsb (String.eqb x) l1 = false) as ->.
    { destruct (existsb (String.eqb x) l1) eqn:E; [|done].
      by apply existsb_eqb_elem in E. }
    exists (remove_seen [] l1), (remove_seen (l1 ++ [x]) l2).
    split_and!; [done| |apply remove_seen_sublist..].
    intros y. rewrite remove_seen_elem. split; [by intros [? _]|].
    intros H. split; [done|apply not_elem_of_nil].
  - intros Hnd. apply remove_seen_NoDup_id; [done|].
    intros x _. apply not_elem_of_nil.
  - rewrite stored_tokens_all.
    + rewrite Hout. f_equal. apply remove_seen_NoDup_id; [apply remove_seen_NoDup|].
      intros x _. apply not_elem_of_nil.
    + rewrite Hout. eapply Nat.le_lt_trans; [|exact Hlen].
      apply sublist_length, remove_seen_sublist.
Qed.

Lemma filter_eqb_NoDup (header : list string) token :
  NoDup header ->
  List.filter (fun a => String.eqb a token) header
  = if decide (token ∈ header) then [token] else [].
Proof.
  induction 1 as [|a l Ha Hnd IH]; cbn [List.filter].
  - destruct (decide (token ∈ [])) as [H|H]; [by apply elem_of_nil in H|done].
  - rewrite IH. destruct (String.eqb_spec a token) as [->|Hne].
    + rewrite (decide_False (P := token ∈ l)) by done.
      by rewrite decide_True by (by left).
    + destruct (decide (token ∈ l)) as [Hin|Hin].
      * by rewrite decide_True by (by right).
      * rewrite decide_False; [done|]. intros [?|?]%elem_of_cons; congruence.
Qed.

Lemma flat_map_filter_header (header tokens : list string) :
  NoDup header ->
  flat_map (fun token => List.filter (fun a => String.eqb a token) header) tokens
  = filter (fun token => token ∈ header) tokens.
Proof.
  intros Hnd. induction tokens as [|t tokens IH]; [done|].
  cbn [flat_map]. rewrite IH, filter_eqb_NoDup by done.
  rewrite filter_cons. by case_decide.
Qed.

(** X16.  [AK_rel_eq_projection_attributes] returns [NULL] for a
    table without attributes.  For a table whose header names every
    attribute once and a string of fewer than [MAX_TOKENS] tokens, the
    tokens of the result are the tokens of the string that are attributes
    of the table, in the order of the string. *)
Theorem projection_attributes_of_table (attribs tblName : string) :
  (AK_get_header tblName = [] ->
   AK_rel_eq_projection_attributes MAX_TOKENS AK_get_header attribs tblName
   = None)
  /\ (AK_get_header tblName <> [] -> NoDup (AK_get_header tblName) ->
      length (tokenize attribs) < MAX_TOKENS ->
      exists out,
        AK_rel_eq_projection_attributes MAX_TOKENS AK_get_header attribs tblName
        = Some out
        /\ tokenize out
           = filter (fun a => a ∈ AK_get_header tblName) (tokenize attribs)).
Proof.
  unfold AK_rel_eq_projection_attributes. split.
  - by intros ->.
  - intros Hne Hnd Hlen. destruct (AK_get_header tblName) as [|h hs] eqn:Hh; [done|].
    eexists. split; [done|].
    rewrite (stored_tokens_all _ _ Hlen), flat_map_filter_header by done.
    apply tokenize_join. eapply Forall_sublist; [apply sublist_filter|].
    apply tokenize_names.
Qed.

(** X17.  The result of [AK_rel_eq_is_subset] does not depend on
    the order of the attributes in either list, for lists of fewer than
    [MAX_TOKENS] tokens. *)
Theorem is_subset_order_insensitive (A A' B B' : list_node) :
  tokenize (data A) ≡ₚ tokenize (data A') ->
  tokenize (data B) ≡ₚ tokenize (data B') ->
  length (tokenize (data A)) < MAX_TOKENS ->
  length (tokenize (data B)) < MAX_TOKENS ->
  AK_rel_eq_is_subset MAX_TOKENS A B = AK_rel_eq_is_subset MAX_TOKENS A' B'.
Proof.
  intros HA HB HlA HlB. unfold AK_rel_eq_is_subset.
  rewrite !stored_tokens_all; try done.
  - rewrite !(count_matches_perm_set _ _ _ (qsort_perm _)).
    rewrite !(count_matches_perm_subset _ _ _ (qsort_perm _)).
    rewrite (count_matches_perm_set _ _ _ HA).
    rewrite (count_matches_perm_subset _ _ _ HB).
    by rewrite (Permutation_length HA), (Permutation_length HB).
  - by rewrite <- (Permutation_length HB).
  - by rewrite <- (Permutation_length HA).
Qed.

End Tokens.

(** ** Conditions *)

Local Abbreviation chars := list_ascii_of_string.

Lemma chars_app (a b : string) : chars (a ++ b) = chars a ++ chars b.
Proof.
  induction a as [|c a IH]; [done|].
  rewrite append_cons. simpl. by rewrite IH.
Qed.

Lemma chars_length (a : string) : length (chars a) = String.length a.
Proof. induction a as [|c a IH]; simpl; [done|by rewrite IH]. Qed.

Lemma strcspn_plain name rest :
  holds ATTR_ESCAPE name = false ->
  strcspn_escape (chars name ++ ATTR_ESCAPE :: rest) = chars name.
Proof.
  induction name as [|c name IH]; simpl; [done|].
  intros [Hc Hn]%orb_false_elim. rewrite Hc. by rewrite IH.
Qed.

Section Commute.
Variable tokens : list string.

Lemma commute_plain plain cond prefix rest rounds tc :
  holds ATTR_ESCAPE plain = false ->
  cond = prefix ++ chars plain ++ rest ->
  String.length plain <= rounds ->
  can_commute_loop rounds tokens cond (length prefix) tc
  = can_commute_loop (rounds - String.length plain) tokens cond
      (length prefix + String.length plain) tc.
Proof.
  revert prefix rounds. induction plain as [|c plain IH]; intros prefix rounds.
  - intros _ _ _. simpl. by rewrite Nat.sub_0_r, Nat.add_0_r.
  - cbn [holds]. intros [Hc Hp]%orb_false_elim Hcond Hr.
    destruct rounds as [|r]; [simpl in Hr; lia|].
    cbn [can_commute_loop].
    assert ((length prefix <? S (length cond)) = true) as ->.
    { apply Nat.ltb_lt. rewrite Hcond, length_app. lia. }
    assert (nth (length prefix) cond zero = c) as ->.
    { rewrite Hcond. simpl. rewrite app_nth2 by lia.
      by rewrite Nat.sub_diag. }
    rewrite Hc.
    replace (S (length prefix)) with (length (prefix ++ [c]))
      by (rewrite length_app; simpl; lia).
    rewrite (IH (prefix ++ [c]) r); try done.
    + rewrite length_app. simpl. f_equal. lia.
    + rewrite Hcond. simpl. by rewrite <- app_assoc.
    + simpl in Hr. lia.
Qed.

Lemma commute_name name cond prefix rest r tc :
  holds ATTR_ESCAPE name = false ->
  cond = prefix ++ ATTR_ESCAPE :: chars name ++ ATTR_ESCAPE :: rest ->
  can_commute_loop (S r) tokens cond (length prefix) tc
  = if existsb
         (String.eqb (string_of_list_ascii
                        (chars name ++ drop (String.length name) tc)))
         tokens
    then can_commute_loop r tokens cond
           (length prefix
            + (length (chars name ++ drop (String.length name) tc) + 1) + 1)
           (chars name ++ drop (String.length name) tc)
    else EXIT_FAILURE.
Proof.
  intros Hn Hcond. cbn [can_commute_loop].
  assert ((length prefix <? S (length cond)) = true) as ->.
  { apply Nat.ltb_lt. rewrite Hcond, length_app. lia. }
  assert (nth (length prefix) cond zero = ATTR_ESCAPE) as ->.
  { rewrite Hcond. rewrite app_nth2 by lia. by rewrite Nat.sub_diag. }
  assert (drop (S (length prefix)) cond = chars name ++ ATTR_ESCAPE :: rest) as ->.
  { rewrite Hcond. rewrite drop_app_ge by lia.
    replace (S (length prefix) - length prefix) with 1 by lia. done. }
  rewrite strcspn_plain by done. rewrite chars_length. done.
Qed.

Lemma commute_end cond rounds tc :
  can_commute_loop rounds tokens cond (length cond) tc = EXIT_SUCCESS.
Proof.
  destruct rounds as [|r]; [done|]. cbn [can_commute_loop].
  assert ((length cond <? S (length cond)) = true) as -> by (apply Nat.ltb_lt; lia).
  rewrite nth_overflow by lia. simpl.
  destruct r as [|r]; [done|]. cbn [can_commute_loop].
  by assert ((S (length cond) <? S (length cond)) = false) as ->
    by (apply Nat.ltb_ge; lia).
Qed.

Lemma chars_quoted_cons name sep items :
  chars (quoted ((name, sep) :: items))
  = ATTR_ESCAPE :: chars name ++ ATTR_ESCAPE :: chars sep ++ chars (quoted items).
Proof.
  change (quoted ((name, sep) :: items))
    with (String ATTR_ESCAPE name ++ String ATTR_ESCAPE sep ++ quoted items)%string.
  rewrite chars_app. cbn [list_ascii_of_string]. rewrite chars_app.
  cbn [list_ascii_of_string]. done.
Qed.

Lemma string_of_chars (s : string) : string_of_list_ascii (chars s) = s.
Proof. apply string_of_list_ascii_of_string. Qed.

Lemma commute_items items cond prefix rounds tc :
  Forall (fun item => holds ATTR_ESCAPE item.1 = false
                      /\ holds ATTR_ESCAPE item.2 = false) items ->
  lengths_ascend items ->
  match items with
  | [] => True
  | (name, _) :: _ => length tc <= String.length name
  end ->
  cond = prefix ++ chars (quoted items) ->
  length cond - length prefix < rounds ->
  can_commute_loop rounds tokens cond (length prefix) tc
  = if forallb (fun item => existsb (String.eqb item.1) tokens) items
    then EXIT_SUCCESS else EXIT_FAILURE.
Proof.
  intros Hitems. revert prefix rounds tc.
  induction Hitems as [|[name sep] items [Hn Hs] _ IH];
    intros prefix rounds tc Hasc Htc Hcond Hr.
  - simpl in Hcond. rewrite app_nil_r in Hcond. subst prefix.
    apply commute_end.
  - simpl in Hn, Hs. rewrite chars_quoted_cons in Hcond.
    destruct rounds as [|r]; [lia|].
    rewrite (commute_name name cond prefix _ r tc Hn Hcond).
    rewrite drop_ge by lia. rewrite app_nil_r, string_of_chars, chars_length.
    cbn [forallb fst].
    destruct (existsb (String.eqb name) tokens); [|done]. cbn [andb].
    assert (Hlen : length cond = length prefix + String.length name
                   + String.length sep + 2 + length (chars (quoted items))).
    { rewrite Hcond. rewrite length_app. cbn [length]. rewrite length_app.
      cbn [length]. rewrite length_app, !chars_length. lia. }
    replace (length prefix + (String.length name + 1) + 1)
      with (length (prefix ++ ATTR_ESCAPE :: chars name ++ [ATTR_ESCAPE])).
    2:{ rewrite length_app. cbn [length]. rewrite length_app, chars_length.
        simpl. lia. }
    rewrite (commute_plain sep cond _ (chars (quoted items)) r (chars name) Hs).
    2:{ rewrite Hcond. rewrite <- !app_assoc. simpl. by rewrite <- !app_assoc. }
    2:{ lia. }
    replace (length (prefix ++ ATTR_ESCAPE :: chars name ++ [ATTR_ESCAPE])
             + String.length sep)
      with (length ((prefix ++ ATTR_ESCAPE :: chars name ++ [ATTR_ESCAPE])
                    ++ chars sep))
      by (by rewrite (length_app _ (chars sep)), chars_length).
    apply IH.
    + by destruct Hasc.
    + destruct items as [|[name' sep'] items']; [done|].
      rewrite chars_length. by destruct Hasc.
    + rewrite Hcond. rewrite <- !app_assoc. simpl. by rewrite <- !app_assoc.
    + rewrite !length_app. cbn [length]. rewrite !length_app, !chars_length.
      simpl. lia.
Qed.

End Commute.

Section CommuteFacts.
Variable MAX_TOKENS : nat.

Lemma can_commute_unfold attribs ty pre items :
  holds ATTR_ESCAPE pre = false ->
  AK_rel_eq_can_commute MAX_TOKENS attribs (mk_node ty (pre ++ quoted items))
  = can_commute_loop (S (length (chars (pre ++ quoted items))) - String.length pre)
      (stored_tokens MAX_TOKENS (data attribs))
      (chars (pre ++ quoted items)) (String.length pre) [].
Proof.
  intros Hpre. unfold AK_rel_eq_can_commute. cbn [data].
  rewrite (commute_plain _ pre _ [] (chars (quoted items))); try done.
  - by rewrite chars_app.
  - rewrite chars_app, length_app, chars_length. lia.
Qed.

(** X18.  For a condition whose quoted names are not longer than
    the names that follow them, [AK_rel_eq_can_commute] returns
    [EXIT_SUCCESS] exactly when every quoted name is one of the stored
    tokens of the attribute list. *)
Theorem can_commute_ascending_names (attribs : list_node) (ty : node_type)
    (pre : string) (items : list (string * string)) :
  holds ATTR_ESCAPE pre = false ->
  Forall (fun item => holds ATTR_ESCAPE item.1 = false
                      /\ holds ATTR_ESCAPE item.2 = false) items ->
  lengths_ascend items ->
  AK_rel_eq_can_commute MAX_TOKENS attribs (mk_node ty (pre ++ quoted items))
  = EXIT_SUCCESS
  <-> Forall (fun item => item.1 ∈ stored_tokens MAX_TOKENS (data attribs)) items.
Proof.
  intros Hpre Hitems Hasc. rewrite can_commute_unfold by done.
  rewrite <- (chars_length pre).
  rewrite (commute_items _ items _ (chars pre)); try done.
  - destruct (forallb _ items) eqn:E.
    + split; [|done]. intros _. rewrite forallb_forall in E.
      apply Forall_forall. intros item Hin. apply existsb_eqb_elem, E.
      by apply list_elem_of_In.
    + split; [done|]. intros HF. exfalso.
      assert (forallb (fun item => existsb (String.eqb item.1)
                         (stored_tokens MAX_TOKENS (data attribs))) items = true);
        [|congruence].
      apply forallb_forall. intros item Hin. apply existsb_eqb_elem.
      rewrite Forall_forall in HF. apply HF. by apply list_elem_of_In.
  - destruct items as [|[name sep] items']; simpl; [done|lia].
  - by rewrite chars_app.
  - rewrite chars_app, length_app. lia.
Qed.

(** X19.  [temp_cond] is never cleared: a name that follows a
    longer one is compared with its own characters followed by the rest
    of the longer name.  When that text is no stored token of the
    attribute list, [AK_rel_eq_can_commute] returns [EXIT_FAILURE], also
    when both names are tokens of the list. *)
Theorem can_commute_reads_stale_name (attribs : list_node) (ty : node_type)
    (pre n1 s1 n2 s2 : string) (items : list (string * string)) :
  holds ATTR_ESCAPE pre = false ->
  holds ATTR_ESCAPE n1 = false -> holds ATTR_ESCAPE s1 = false ->
  holds ATTR_ESCAPE n2 = false ->
  n1 ∈ stored_tokens MAX_TOKENS (data attribs) ->
  copied_over n2 n1 ∉ stored_tokens MAX_TOKENS (data attribs) ->
  AK_rel_eq_can_commute MAX_TOKENS attribs
    (mk_node ty (pre ++ quoted ((n1, s1) :: (n2, s2) :: items)))
  = EXIT_FAILURE.
Proof.
  intros Hpre Hn1 Hs1 Hn2 Hin Hout. rewrite can_commute_unfold by done.
  set (tokens := stored_tokens MAX_TOKENS (data attribs)) in *.
  set (cond := chars (pre ++ quoted ((n1, s1) :: (n2, s2) :: items))).
  assert (Hcond : cond = chars pre ++ ATTR_ESCAPE :: chars n1 ++ ATTR_ESCAPE
                         :: chars s1 ++ ATTR_ESCAPE :: chars n2 ++ ATTR_ESCAPE
                         :: chars s2 ++ chars (quoted items)).
  { unfold cond. by rewrite chars_app, !chars_quoted_cons. }
  assert (Hlen : length cond = String.length pre + String.length n1
                 + String.length s1 + String.length n2 + String.length s2
                 + 4 + length (chars (quoted items))).
  { rewrite Hcond. repeat (rewrite length_app || cbn [length]).
    rewrite !chars_length. lia. }
  rewrite <- (chars_length pre).
  destruct (S (length cond) - length (chars pre)) as [|r] eqn:Hr;
    [rewrite chars_length in Hr; lia|].
  rewrite (commute_name tokens n1 cond (chars pre) _ r [] Hn1 Hcond).
  rewrite drop_nil, app_nil_r, string_of_chars.
  rewrite (proj2 (existsb_eqb_elem n1 tokens) Hin).
  rewrite (chars_length n1).
  replace (length (chars pre) + (String.length n1 + 1) + 1)
    with (length (chars pre ++ ATTR_ESCAPE :: chars n1 ++ [ATTR_ESCAPE])).
  2:{ rewrite length_app. cbn [length]. rewrite length_app, !chars_length.
      simpl. lia. }
  rewrite (commute_plain tokens s1 cond _
             (ATTR_ESCAPE :: chars n2 ++ ATTR_ESCAPE
              :: chars s2 ++ chars (quoted items)) r (chars n1) Hs1).
  2:{ rewrite Hcond. rewrite <- !app_assoc. simpl. by rewrite <- !app_assoc. }
  2:{ rewrite chars_length in Hr. lia. }
  replace (length (chars pre ++ ATTR_ESCAPE :: chars n1 ++ [ATTR_ESCAPE])
           + String.length s1)
    with (length ((chars pre ++ ATTR_ESCAPE :: chars n1 ++ [ATTR_ESCAPE])
                  ++ chars s1))
    by (by rewrite (length_app _ (chars s1)), chars_length).
  destruct (r - String.length s1) as [|r'] eqn:Hr'.
  { rewrite chars_length in Hr. lia. }
  rewrite (commute_name tokens n2 cond _ (chars s2 ++ chars (quoted items))
             r' (chars n1) Hn2).
  2:{ rewrite Hcond. rewrite <- !app_assoc. simpl. by rewrite <- !app_assoc. }
  fold (copied_over n2 n1).
  destruct (existsb (String.eqb (copied_over n2 n1)) tokens) eqn:E; [|done].
  apply existsb_eqb_elem in E. done.
Qed.

End CommuteFacts.

Lemma collect_inside plain rest attr :
  holds ATTR_ESCAPE plain = false ->
  collect_loop (chars plain ++ rest) true attr
  = collect_loop rest true (attr ++ chars plain).
Proof.
  revert attr. induction plain as [|c plain IH]; intros attr; cbn [holds].
  - intros _. simpl. by rewrite app_nil_r.
  - intros [Hc Hp]%orb_false_elim. simpl. rewrite Hc, IH by done.
    by rewrite <- app_assoc.
Qed.

Lemma collect_outside plain rest attr :
  holds ATTR_ESCAPE plain = false ->
  collect_loop (chars plain ++ rest) false attr = collect_loop rest false attr.
Proof.
  induction plain as [|c plain IH]; cbn [holds]; [done|].
  intros [Hc Hp]%orb_false_elim. simpl. by rewrite Hc, IH.
Qed.

Lemma collect_items items attr :
  Forall (fun item => quoted_name item.1) items -> separated items ->
  collect_loop (chars (quoted items) ++ [zero]) false attr
  = add_names attr (map fst items).
Proof.
  intros Hitems. revert attr.
  induction Hitems as [|[name sep] items (Hne & Hn & _) _ IH]; intros attr Hsep.
  - done.
  - destruct Hsep as (Hs & Hlast & Hsep). simpl in Hne, Hn.
    rewrite chars_quoted_cons. cbn [map fst add_names fold_left].
    destruct name as [|c0 name]; [done|].
    cbn [holds] in Hn. apply orb_false_elim in Hn as [Hc0 Hn].
    cbn [list_ascii_of_string app collect_loop]. rewrite Ascii.eqb_refl.
    rewrite <- !app_assoc. rewrite collect_inside by done.
    cbn [app collect_loop]. rewrite Ascii.eqb_refl.
    destruct sep as [|c1 sep].
    + destruct Hlast as [->|?]; [|done]. simpl.
      by rewrite <- !app_assoc.
    + cbn [holds] in Hs. apply orb_false_elim in Hs as [Hc1 Hs].
      cbn [list_ascii_of_string app]. rewrite <- app_assoc.
      rewrite collect_outside by done. rewrite IH by done.
      unfold add_names. simpl. by rewrite <- !app_assoc.
Qed.

Lemma add_names_nonempty attr names :
  attr <> [] ->
  add_names attr names
  = attr ++ concat (map (fun n => ATTR_DELIMITER :: chars n) names).
Proof.
  revert attr. induction names as [|n names IH]; intros attr Hne.
  - simpl. by rewrite app_nil_r.
  - unfold add_names. cbn [fold_left]. fold (add_names
      ((match attr with [] => [] | _ => attr ++ [ATTR_DELIMITER] end) ++ chars n)
      names).
    destruct attr as [|a attr]; [done|].
    rewrite IH by done. simpl. rewrite <- !app_assoc. done.
Qed.

Lemma chars_join names :
  Forall (fun n => n <> EmptyString) names ->
  chars (join_attr names)
  = match names with
    | [] => []
    | n :: names' =>
        chars n ++ concat (map (fun n => ATTR_DELIMITER :: chars n) names')
    end.
Proof.
  induction 1 as [|n names Hn Hnames IH]; [done|].
  destruct names as [|n' names'].
  - simpl. by rewrite app_nil_r.
  - change (join_attr (n :: n' :: names'))
      with (n ++ String ATTR_DELIMITER (join_attr (n' :: names')))%string.
    rewrite chars_app. cbn [list_ascii_of_string]. rewrite IH. done.
Qed.

Lemma add_names_join names :
  Forall (fun n => n <> EmptyString) names ->
  add_names [] names = chars (join_attr names).
Proof.
  intros Hn. rewrite chars_join by done.
  destruct Hn as [|n names Hn Hnames]; [done|].
  unfold add_names. cbn [fold_left app].
  fold (add_names (chars n) names).
  apply add_names_nonempty. by destruct n.
Qed.

Lemma c_string_chars (s : string) :
  holds zero s = false -> c_string (chars s) = s.
Proof.
  induction s as [|c s IH]; cbn [holds]; [done|].
  intros [Hc Hs]%orb_false_elim. simpl. rewrite Hc. by rewrite IH.
Qed.

Lemma holds_app c (a b : string) :
  holds c (a ++ b) = holds c a || holds c b.
Proof.
  induction a as [|x a IH]; [done|].
  rewrite append_cons. cbn [holds]. by rewrite IH, orb_assoc.
Qed.

Lemma holds_join c names :
  c <> ATTR_DELIMITER ->
  Forall (fun n => holds c n = false) names -> holds c (join_attr names) = false.
Proof.
  intros Hc. induction 1 as [|n names Hn Hnames IH]; [done|].
  destruct names as [|n' names']; [done|].
  change (join_attr (n :: n' :: names'))
    with (n ++ String ATTR_DELIMITER (join_attr (n' :: names')))%string.
  rewrite holds_app, Hn. cbn [holds]. rewrite IH.
  destruct (Ascii.eqb_spec ATTR_DELIMITER c); [congruence|done].
Qed.

(** X20.  For a condition in which every quoted name is followed
    by some text before the next escape, the result of
    [AK_rel_eq_collect_cond_attributes] is the quoted names in their
    order, joined by [ATTR_DELIMITER]. *)
Theorem collect_quoted_names (ty : node_type) (pre : string)
    (items : list (string * string)) :
  holds ATTR_ESCAPE pre = false ->
  Forall (fun item => quoted_name item.1) items -> separated items ->
  AK_rel_eq_collect_cond_attributes (mk_node ty (pre ++ quoted items))
  = join_attr (map fst items).
Proof.
  intros Hpre Hitems Hsep. unfold AK_rel_eq_collect_cond_attributes.
  cbn [data]. rewrite chars_app, <- app_assoc.
  rewrite collect_outside, collect_items by done.
  assert (Hne : Forall (fun n => n <> EmptyString) (map fst items)).
  { apply Forall_fmap. eapply Forall_impl; [exact Hitems|].
    by intros item (H & _). }
  rewrite add_names_join by done. apply c_string_chars.
  apply holds_join; [done|].
  apply Forall_fmap. eapply Forall_impl; [exact Hitems|].
  by intros item (_ & _ & H).
Qed.

Lemma remove_duplicates_keeps_first_witness :
  AK_rel_eq_remove_duplicates 64 "a;b;a;c;b" = "a;b;c"%string
  /\ exists o1 o2,
       tokenize (AK_rel_eq_remove_duplicates 64 "a;b;a;c;b")
       = o1 ++ "c"%string :: o2
       /\ (forall y, y ∈ o1 <-> y ∈ ["a"; "b"; "a"]%string)
       /\ o1 `sublist_of` ["a"; "b"; "a"]%string
       /\ o2 `sublist_of` ["b"]%string.
Proof.
  split; [reflexivity|].
  apply (proj1 (proj2 (proj2 (proj2
           (remove_duplicates_keeps_first 64 "a;b;a;c;b" ltac:(vm_compute; lia)))))
           ["a"; "b"; "a"]%string "c"%string ["b"]%string).
  - reflexivity.
  - apply (bool_decide_unpack _). vm_compute. exact I.
Defined.

Lemma projection_attributes_of_table_witness :
  exists out,
    AK_rel_eq_projection_attributes 64 student_header "year;grade;id" "student"
    = Some out
    /\ tokenize out
       = filter (fun a => a ∈ student_header "student") (tokenize "year;grade;id").
Proof.
  apply (proj2 (projection_attributes_of_table 64 student_header
                  "year;grade;id" "student")).
  - discriminate.
  - apply (bool_decide_unpack _). vm_compute. exact I.
  - vm_compute. lia.
Defined.

Lemma is_subset_order_insensitive_witness :
  AK_rel_eq_is_subset 64 (mk_node TYPE_ATTRIBS "a;b") (mk_node TYPE_ATTRIBS "b")
  = AK_rel_eq_is_subset 64 (mk_node TYPE_ATTRIBS "b;a") (mk_node TYPE_ATTRIBS "b").
Proof.
  apply (is_subset_order_insensitive 64).
  - change (["a"; "b"] ≡ₚ ["b"; "a"])%string. apply perm_swap.
  - reflexivity.
  - vm_compute. lia.
  - vm_compute. lia.
Defined.

Lemma can_commute_ascending_names_witness :
  AK_rel_eq_can_commute 64 (mk_node TYPE_ATTRIBS "id;year")
    (mk_node TYPE_CONDITION "`id` 5 > `year` 2000 <")
  = EXIT_SUCCESS.
Proof.
  apply (proj2 (can_commute_ascending_names 64 (mk_node TYPE_ATTRIBS "id;year")
                  TYPE_CONDITION ""
                  [("id", " 5 > "); ("year", " 2000 <")]%string
                  eq_refl
                  ltac:(repeat constructor)
                  ltac:(simpl; lia))).
  repeat constructor; apply (bool_decide_unpack _); vm_compute; exact I.
Defined.

Lemma can_commute_reads_stale_name_witness :
  AK_rel_eq_can_commute 64 (mk_node TYPE_ATTRIBS "year;id")
    (mk_node TYPE_CONDITION "`year` 2000 < `id` 5 >")
  = EXIT_FAILURE.
Proof.
  apply (can_commute_reads_stale_name 64 (mk_node TYPE_ATTRIBS "year;id")
           TYPE_CONDITION "" "year" " 2000 < " "id" " 5 >" []); try reflexivity.
  - apply (bool_decide_unpack _). vm_compute. exact I.
  - apply (bool_decide_unpack _). vm_compute. exact I.
Defined.

Lemma collect_quoted_names_witness :
  AK_rel_eq_collect_cond_attributes
    (mk_node TYPE_CONDITION "`id` 5 > `year` 2000 <")
  = "id;year"%string.
Proof.
  apply (collect_quoted_names TYPE_CONDITION ""
           [("id", " 5 > "); ("year", " 2000 <")]%string).
  - reflexivity.
  - repeat constructor; discriminate.
  - simpl. repeat split; try reflexivity; try discriminate.
    + right. discriminate.
    + by left.
Defined.

End AttributeFacts.

Module StreamFacts.
Import Opti OptiFacts AttrShapes.
Open Scope nat_scope.

Section Stream.
Variable MAX_TOKENS : nat.
Variable AK_get_header : string -> list string.
Variable root : list_node.

Local Abbreviation rewrite_operator :=
  (Opti.rewrite_operator MAX_TOKENS AK_get_header root).
Local Abbreviation rewrite_loop :=
  (Opti.rewrite_loop MAX_TOKENS AK_get_header root).

Lemma rewrite_operator_consumes temp n next temp' b :
  type n = TYPE_OPERATOR ->
  rewrite_operator temp n next = Some (temp', b) -> b = takes_argument n.
Proof.
  intros Hty. unfold Opti.rewrite_operator, takes_argument. rewrite Hty.
  destruct (Ascii.eqb (first_char (data n)) RO_PROJECTION) eqn:Ep.
  { destruct next as [a|]; simpl; [|done].
    repeat case_match; by intros [= <- <-]. }
  destruct (Ascii.eqb (first_char (data n)) RO_SELECTION) eqn:Es.
  { destruct next as [a|]; simpl; [|done].
    destruct (from_end _ _ _); simpl; [|done]. by intros [= <- <-]. }
  destruct (Ascii.eqb (first_char (data n)) RO_UNION
            || Ascii.eqb (first_char (data n)) RO_INTERSECT) eqn:Eu.
  { destruct (from_end _ _ _); simpl; [|done]. intros [= <- <-].
    apply Ascii.eqb_neq in Ep, Es.
    destruct (Ascii.eqb_spec (first_char (data n)) RO_NAT_JOIN) as [E|E];
      destruct (Ascii.eqb_spec (first_char (data n)) RO_THETA_JOIN) as [E'|E'];
      try done; apply orb_true_iff in Eu as [Eu|Eu]; apply Ascii.eqb_eq in Eu;
      rewrite Eu in *; done. }
  destruct (Ascii.eqb (first_char (data n)) RO_NAT_JOIN) eqn:Ej.
  { destruct next as [a|]; simpl; [|done]. by intros [= <- <-]. }
  destruct (Ascii.eqb (first_char (data n)) RO_THETA_JOIN) eqn:Et.
  { destruct next as [a|]; simpl; [|done].
    destruct (from_end _ _ _); simpl; [|done]. by intros [= <- <-]. }
  destruct (Ascii.eqb (first_char (data n)) RO_EXCEPT) eqn:Ee.
  { by intros [= <- <-]. }
  destruct (Ascii.eqb (first_char (data n)) RO_RENAME) eqn:Er.
  { by intros [= <- <-]. }
  by intros [= <- <-].
Qed.




End Stream.

End StreamFacts.

(** * The operands of a rewritten expression *)

Module OperandFacts.
Import Opti OptiFacts AttrShapes StreamFacts.
Open Scope nat_scope.

Lemma paired_tail a l : paired (a :: l) -> paired l.
Proof. by intros [_ H]. Qed.

Lemma paired_app_r l1 l2 : paired (l1 ++ l2) -> paired l2.
Proof.
  induction l1 as [|a l1 IH]; [done|]. intros H. apply IH.
  by eapply paired_tail.
Qed.

Lemma paired_splice l1 l2 y l2' :
  paired (l1 ++ l2) -> paired (y :: l2') -> is_operand y = false ->
  paired (l1 ++ y :: l2').
Proof.
  intros H Hy Hop. induction l1 as [|a l1 IH]; [exact Hy|].
  change (paired (a :: (l1 ++ l2))) in H.
  change (paired (a :: (l1 ++ y :: l2'))).
  destruct H as [Ha H]. split; [|by apply IH].
  destruct l1 as [|b l1]; [by intros _|exact Ha].
Qed.

Lemma paired_app l1 l2 : paired l1 -> paired l2 -> paired (l1 ++ l2).
Proof.
  intros H1 H2. induction l1 as [|a l1 IH]; [exact H2|].
  change (paired (a :: (l1 ++ l2))).
  destruct H1 as [Ha H1]. split; [|by apply IH].
  destruct l1 as [|b l1]; [|exact Ha]. simpl in *.
  destruct l2 as [|c l2]; [done|]. intros Hp. congruence.
Qed.

Lemma paired_adjacent l1 a b l2 :
  paired (l1 ++ a :: b :: l2) -> is_projection a = true -> is_operand b = false.
Proof.
  intros H. apply paired_app_r in H. by destruct H as [H _].
Qed.

Lemma projection_not_operand a : is_projection a = true -> is_operand a = false.
Proof.
  unfold is_projection, is_operand. destruct (type a); try done.
  by rewrite andb_false_r.
Qed.

Lemma operand_not_projection a :
  is_operand_or_attribs a = true -> is_projection a = false.
Proof.
  unfold is_projection, is_operand_or_attribs.
  destruct (type a); try done; by rewrite andb_false_r.
Qed.

Lemma argument_not_projection a : is_argument a = true -> is_projection a = false.
Proof.
  unfold is_projection, is_argument.
  destruct (type a); try done; by rewrite andb_false_r.
Qed.

Lemma argument_not_operand a : is_argument a = true -> is_operand a = false.
Proof. unfold is_operand, is_argument. by destruct (type a). Qed.

Lemma operator_not_operand a : type a = TYPE_OPERATOR -> is_operand a = false.
Proof. unfold is_operand. by intros ->. Qed.

Lemma same_type_projection a b :
  type b = type a -> is_operand_or_attribs a = true -> is_projection b = false.
Proof.
  intros Hty Ha. unfold is_projection, is_operand_or_attribs in *. rewrite Hty.
  destruct (type a); try done; by rewrite andb_false_r.
Qed.

Lemma same_type_operand a b : type b = type a -> is_operand b = is_operand a.
Proof. unfold is_operand. by intros ->. Qed.

Lemma operands_app l1 l2 : operands (l1 ++ l2) = operands l1 ++ operands l2.
Proof. apply List.filter_app. Qed.

Lemma operands_cons_false a l : is_operand a = false -> operands (a :: l) = operands l.
Proof. intros H. unfold operands. simpl. by rewrite H. Qed.

Lemma insert_after_operand_Some l new1 new2 l' :
  insert_after_operand l new1 new2 = Some l' ->
  exists l1 tmp l2,
    l = l1 ++ tmp :: l2 /\ is_operand tmp = true
    /\ l' = l1 ++ tmp :: new1 :: new2 :: l2.
Proof.
  revert l'. induction l as [|x l IH]; intros l'; simpl; [done|].
  destruct (is_operand x) eqn:Hx.
  - intros [= <-]. by exists [], x, l.
  - destruct (insert_after_operand l new1 new2) as [l''|]; simpl; [|done].
    intros [= <-]. destruct (IH l'' eq_refl) as (l1 & tmp & l2 & -> & Ht & ->).
    by exists (x :: l1), tmp, l2.
Qed.

(** Two tokens, the first a projection operator or the second not a
    projection, spliced in behind an operand. *)
Lemma insert_after_operand_keeps front l new1 new2 l' :
  insert_after_operand l new1 new2 = Some l' ->
  paired (front ++ l) ->
  is_operand new1 = false -> is_operand new2 = false ->
  is_projection new2 = false ->
  paired (front ++ l') /\ operands (front ++ l') = operands (front ++ l).
Proof.
  intros Hins Hp H1 H2 H3.
  apply insert_after_operand_Some in Hins as (l1 & tmp & l2 & -> & Ht & ->).
  split.
  - replace (front ++ l1 ++ tmp :: new1 :: new2 :: l2)
      with ((front ++ l1 ++ [tmp]) ++ new1 :: new2 :: l2)
      by (by rewrite <- !app_assoc).
    apply (paired_splice _ l2); [|split|done].
    + by rewrite <- !app_assoc.
    + by intros _.
    + rewrite app_assoc in Hp. apply paired_app_r, paired_tail in Hp.
      split; [|done]. destruct l2; [done|]. intros ?. congruence.
  - rewrite !operands_app. f_equal. f_equal. unfold operands. simpl.
    by rewrite Ht, H1, H2.
Qed.

Section Walks.
Variable MAX_TOKENS : nat.
Variable AK_get_header : string -> list string.
Variable root : list_node.
Hypothesis root_plain : is_projection root = false.

Lemma zipper_step (before : list list_node) p temp_elem after :
  rev (p :: before) ++ temp_elem :: after = rev before ++ p :: temp_elem :: after.
Proof. simpl. by rewrite <- app_assoc. Qed.

Local Ltac zip H := simpl in H; rewrite <- ?app_assoc in H; simpl in H.

Lemma union_walk_keeps before temp_elem after step O :
  union_walk root before temp_elem after step = Some O ->
  paired (rev before ++ temp_elem :: after) ->
  paired O /\ operands O = operands (rev before ++ temp_elem :: after).
Proof.
  revert temp_elem after step.
  induction before as [|p before IH]; intros temp_elem after step;
    cbn [union_walk]; destruct (is_operand_or_attribs temp_elem) eqn:Hoa;
    try (by intros [= <-]); cbn [List.hd].
  - rewrite root_plain. destruct (is_operand_or_attribs root); [done|].
    by intros [= <-].
  - destruct (is_projection p) eqn:Hp.
    + destruct (1 <? step + 1)%Z; [|by intros [= <-]].
      destruct (insert_after_operand (temp_elem :: after) p temp_elem)
        as [l|] eqn:Hins; simpl; [|done].
      intros [= <-] Hpair.
      eapply insert_after_operand_keeps; try done.
      * by apply projection_not_operand.
      * zip Hpair. by eapply paired_adjacent.
      * by apply operand_not_projection.
    + rewrite zipper_step. apply IH.
Qed.

Lemma selection_walk_keeps before temp_elem after list_elem list_elem_next O :
  type list_elem = TYPE_OPERATOR -> is_projection list_elem = false ->
  is_argument list_elem_next = true ->
  selection_walk MAX_TOKENS root before temp_elem after list_elem list_elem_next
  = Some O ->
  paired (rev before ++ temp_elem :: after) ->
  paired O /\ operands O = operands (rev before ++ temp_elem :: after).
Proof.
  intros Hty Hnp Harg.
  assert (Hend : forall temp, paired temp ->
            paired (temp ++ [list_elem; list_elem_next])
            /\ operands (temp ++ [list_elem; list_elem_next]) = operands temp).
  { intros temp Hpair. split.
    - apply paired_app; [done|]. split; [|split; [|done]].
      + intros _. by apply argument_not_operand.
      + by apply argument_not_projection.
    - rewrite operands_app. unfold operands at 2. simpl.
      rewrite (operator_not_operand _ Hty), (argument_not_operand _ Harg).
      by rewrite app_nil_r. }
  revert temp_elem after.
  induction before as [|p before IH]; intros temp_elem after;
    cbn [selection_walk]; destruct (is_operand_or_attribs temp_elem) eqn:Hoa;
    try (intros [= <-]; by apply Hend); cbn [List.hd].
  - rewrite root_plain, andb_false_r.
    destruct (is_operand_or_attribs root); [done|]. intros [= <-]. by apply Hend.
  - destruct (is_attribs temp_elem
              && is_failure (AK_rel_eq_can_commute MAX_TOKENS temp_elem list_elem_next)
              && is_projection p) eqn:E.
    { intros [= <-]. by apply Hend. }
    destruct (is_projection p) eqn:Hp.
    + intros [= <-] Hpair. rewrite zipper_step in Hpair. split.
      * cbn [app]. apply (paired_splice _ (p :: temp_elem :: after)); [done| |].
        -- split; [intros _; by apply argument_not_operand|].
           split; [intros Hc; by rewrite (argument_not_projection _ Harg) in Hc|].
           by apply paired_app_r in Hpair.
        -- by apply operator_not_operand.
      * rewrite zipper_step, !operands_app. f_equal. cbn [app].
        rewrite (operands_cons_false list_elem) by (by apply operator_not_operand).
        by rewrite (operands_cons_false list_elem_next)
          by (by apply argument_not_operand).
    + rewrite zipper_step. apply IH.
Qed.

Lemma theta_rewrite_keeps front p temp_elem after list_elem_next l :
  theta_rewrite MAX_TOKENS AK_get_header p temp_elem after list_elem_next
  = Some l ->
  is_projection p = true -> is_operand_or_attribs temp_elem = true ->
  is_operand temp_elem = false ->
  paired (front ++ temp_elem :: after) ->
  paired (front ++ l)
  /\ operands (front ++ l) = operands (front ++ temp_elem :: after).
Proof.
  intros Hth Hp Hoa Hop Hpair. unfold theta_rewrite in Hth.
  destruct (head after) as [temp_elem_next|]; cbn [mbind option_bind] in Hth; [|done].
  destruct (head (tail after)) as [operand2|]; cbn [mbind option_bind] in Hth; [|done].
  destruct (AK_rel_eq_projection_attributes _ _ (data temp_elem) (data temp_elem_next))
    as [data1|]; [|by injection Hth as <-].
  destruct (AK_rel_eq_projection_attributes _ _ (data temp_elem) (data operand2))
    as [data2|]; [|by injection Hth as <-].
  pose proof (projection_not_operand _ Hp) as Hpo.
  assert (Hnode : forall d, is_operand (mk_node (type temp_elem) d) = false
                            /\ is_projection (mk_node (type temp_elem) d) = false).
  { intros d. split.
    - by rewrite (same_type_operand temp_elem).
    - by apply (same_type_projection temp_elem). }
  assert (Htail : forall x, is_projection x = false -> paired (x :: after)).
  { intros x Hx. apply paired_app_r in Hpair. destruct Hpair as [_ Hafter].
    split; [|done]. destruct after; [done|]. intros ?. congruence. }
  destruct (AK_rel_eq_can_commute MAX_TOKENS temp_elem list_elem_next).
  - destruct (Hnode data1) as [Ho1 Hp1]. destruct (Hnode data2) as [Ho2 Hp2].
    assert (Hpair1 : paired (front ++ mk_node (type temp_elem) data1 :: after)).
    { apply (paired_splice _ (temp_elem :: after)); [done| |done]. by apply Htail. }
    destruct (insert_after_operand_keeps front _ _ _ _ Hth Hpair1) as [H1 H2];
      try done.
    split; [done|]. rewrite H2, !operands_app. f_equal.
    by rewrite !operands_cons_false.
  - destruct (AK_rel_eq_projection_attributes _ _ _ (data temp_elem_next))
      as [cond1|]; cbn [mbind option_bind] in Hth; [|done].
    set (node1 := mk_node (type temp_elem) _) in Hth.
    destruct (after_operand _) as [r|]; cbn [mbind option_bind] in Hth; [|done].
    destruct r as [tmp_next|]; cbn [mbind option_bind] in Hth; [|done].
    destruct (AK_rel_eq_projection_attributes _ _ _ (data tmp_next))
      as [cond2|]; cbn [mbind option_bind] in Hth; [|done].
    set (node2 := mk_node (type temp_elem) _) in Hth.
    destruct (Hnode (data node1)) as [Ho1 Hp1].
    destruct (Hnode (data node2)) as [Ho2 Hp2].
    assert (Hpair1 : paired (front ++ temp_elem :: p :: node1 :: after)).
    { replace (front ++ temp_elem :: p :: node1 :: after)
        with ((front ++ [temp_elem]) ++ p :: node1 :: after)
        by (by rewrite <- app_assoc).
      apply (paired_splice _ after); [by rewrite <- app_assoc| |done].
      split; [by intros _|]. by apply Htail. }
    destruct (insert_after_operand_keeps front _ _ _ _ Hth Hpair1) as [H1 H2];
      try done.
    split; [done|]. rewrite H2, !operands_app. f_equal.
    rewrite (operands_cons_false temp_elem) by done.
    rewrite (operands_cons_false p) by done.
    rewrite (operands_cons_false node1) by done.
    by rewrite (operands_cons_false temp_elem).
Qed.

Lemma theta_walk_keeps before temp_elem after step list_elem_next O :
  theta_walk MAX_TOKENS AK_get_header root before temp_elem after step
    list_elem_next = Some O ->
  paired (rev before ++ temp_elem :: after) ->
  paired O /\ operands O = operands (rev before ++ temp_elem :: after).
Proof.
  revert temp_elem after step.
  induction before as [|p before IH]; intros temp_elem after step;
    cbn [theta_walk]; destruct (is_operand_or_attribs temp_elem) eqn:Hoa;
    try (by intros [= <-]); cbn [List.hd].
  - rewrite root_plain. destruct (is_operand_or_attribs root); [done|].
    by intros [= <-].
  - destruct (is_projection p) eqn:Hp.
    + destruct (1 <? step + 1)%Z; [|by intros [= <-]].
      destruct (theta_rewrite _ _ p temp_elem after list_elem_next)
        as [l|] eqn:Hth; simpl; [|done].
      intros [= <-] Hpair.
      eapply theta_rewrite_keeps; try done.
      zip Hpair. by eapply paired_adjacent.
    + rewrite zipper_step. apply IH.
Qed.

Lemma from_end_keeps temp walk otherwise O :
  from_end temp walk otherwise = Some O ->
  paired temp ->
  (forall before temp_elem after O',
      walk before temp_elem after = Some O' ->
      paired (rev before ++ temp_elem :: after) ->
      paired O' /\ operands O' = operands (rev before ++ temp_elem :: after)) ->
  (otherwise = Some O -> temp = [] ->
   paired O /\ operands O = operands temp) ->
  paired O /\ operands O = operands temp.
Proof.
  unfold from_end. intros H Hpair Hwalk Hother.
  destruct (rev temp) as [|temp_elem before] eqn:Hrev.
  - apply Hother; [done|]. apply (f_equal (@rev _)) in Hrev.
    by rewrite rev_involutive in Hrev.
  - assert (temp = rev before ++ [temp_elem]) as Htemp.
    { apply (f_equal (@rev _)) in Hrev. by rewrite rev_involutive in Hrev. }
    rewrite Htemp in *. by apply Hwalk.
Qed.

Lemma append_pair_keeps temp op arg :
  type op = TYPE_OPERATOR -> is_argument arg = true -> paired temp ->
  paired (temp ++ [op; arg]) /\ operands (temp ++ [op; arg]) = operands temp.
Proof.
  intros Hty Harg Hpair. split.
  - apply paired_app; [done|]. split; [|split; [|done]].
    + intros _. by apply argument_not_operand.
    + by apply argument_not_projection.
  - rewrite operands_app. unfold operands at 2. simpl.
    rewrite (operator_not_operand _ Hty), (argument_not_operand _ Harg).
    by rewrite app_nil_r.
Qed.

Lemma append_operator_keeps temp op :
  type op = TYPE_OPERATOR -> is_projection op = false -> paired temp ->
  paired (temp ++ [op]) /\ operands (temp ++ [op]) = operands temp.
Proof.
  intros Hty Hp Hpair. split.
  - by apply paired_app.
  - rewrite operands_app. unfold operands at 2. simpl.
    rewrite (operator_not_operand _ Hty). by rewrite app_nil_r.
Qed.

Lemma not_projection_char n :
  Ascii.eqb (first_char (data n)) RO_PROJECTION = false -> is_projection n = false.
Proof. unfold is_projection. by intros ->. Qed.

Lemma rewrite_operator_keeps temp n next temp' b :
  type n = TYPE_OPERATOR ->
  (takes_argument n = true -> forall a, next = Some a -> is_argument a = true) ->
  rewrite_operator MAX_TOKENS AK_get_header root temp n next = Some (temp', b) ->
  paired temp ->
  paired temp' /\ operands temp' = operands temp.
Proof.
  intros Hty Harg. unfold rewrite_operator, takes_argument in *.
  rewrite Hty in Harg.
  destruct (Ascii.eqb (first_char (data n)) RO_PROJECTION) eqn:Ep.
  { destruct next as [a|]; cbn [mbind option_bind]; [|done].
    specialize (Harg eq_refl a eq_refl).
    destruct (last temp) as [temp_elem|].
    - destruct (is_attribs temp_elem).
      + destruct (is_failure _); intros [= <- <-] Hpair; [|done].
        by apply append_pair_keeps.
      + intros [= <- <-] Hpair. by apply append_pair_keeps.
    - intros [= <- <-] Hpair. by apply append_pair_keeps. }
  pose proof (not_projection_char _ Ep) as Hnp.
  destruct (Ascii.eqb (first_char (data n)) RO_SELECTION) eqn:Es.
  { destruct next as [a|]; cbn [mbind option_bind]; [|done].
    specialize (Harg eq_refl a eq_refl).
    destruct (from_end temp _ _) as [O|] eqn:Hfe; cbn [mbind option_bind]; [|done].
    intros [= <- <-] Hpair. eapply from_end_keeps; try done.
    - intros before temp_elem after O'. by apply selection_walk_keeps.
    - intros [= <-] _. by apply append_pair_keeps. }
  destruct (Ascii.eqb (first_char (data n)) RO_UNION
            || Ascii.eqb (first_char (data n)) RO_INTERSECT) eqn:Eu.
  { destruct (from_end temp _ _) as [O|] eqn:Hfe; cbn [mbind option_bind]; [|done].
    intros [= <- <-] Hpair.
    assert (paired O /\ operands O = operands temp) as [H1 H2].
    { eapply from_end_keeps; try done.
      - intros before temp_elem after O'. by apply union_walk_keeps.
      - by intros [= <-] _. }
    rewrite <- H2. by apply append_operator_keeps. }
  destruct (Ascii.eqb (first_char (data n)) RO_NAT_JOIN) eqn:Ej.
  { destruct next as [a|]; cbn [mbind option_bind]; [|done].
    rewrite !orb_true_r in Harg. specialize (Harg eq_refl a eq_refl).
    intros [= <- <-] Hpair. by apply append_pair_keeps. }
  destruct (Ascii.eqb (first_char (data n)) RO_THETA_JOIN) eqn:Et.
  { destruct next as [a|]; cbn [mbind option_bind]; [|done].
    rewrite !orb_true_r in Harg. specialize (Harg eq_refl a eq_refl).
    destruct (from_end temp _ _) as [O|] eqn:Hfe; cbn [mbind option_bind]; [|done].
    intros [= <- <-] Hpair.
    assert (paired O /\ operands O = operands temp) as [H1 H2].
    { eapply from_end_keeps; try done.
      - intros before temp_elem after O'. by apply theta_walk_keeps.
      - by intros [= <-] _. }
    rewrite <- H2. by apply append_pair_keeps. }
  destruct (Ascii.eqb (first_char (data n)) RO_EXCEPT) eqn:Ee.
  { intros [= <- <-] Hpair. by apply append_operator_keeps. }
  destruct (Ascii.eqb (first_char (data n)) RO_RENAME) eqn:Er.
  { intros [= <- <-] Hpair. by apply append_operator_keeps. }
  by intros [= <- <-].
Qed.

Lemma rewrite_loop_keeps l temp O :
  arguments_tagged l = true ->
  rewrite_loop MAX_TOKENS AK_get_header root temp l = Some O ->
  paired temp ->
  paired O /\ operands O = operands temp ++ operands l.
Proof.
  revert temp. induction l as [l IH] using (induction_ltof1 _ (@length _)).
  unfold ltof in IH. intros temp. destruct l as [|n rest].
  - intros _ [= <-] Hpair. by rewrite app_nil_r.
  - cbn [arguments_tagged rewrite_loop].
    destruct (type n) eqn:Hty.
    + intros Htag.
      destruct (rewrite_operator _ _ _ temp n (head rest)) as [[temp' b]|] eqn:Ho;
        [|done].
      pose proof (rewrite_operator_consumes _ _ _ _ _ _ _ _ Hty Ho) as Hb.
      assert (Hkeep : paired temp -> paired temp' /\ operands temp' = operands temp).
      { apply (rewrite_operator_keeps temp n (head rest) temp' b); try done.
        intros Hta a Ha. rewrite Hta in Htag.
        destruct rest as [|a' rest']; [done|]. injection Ha as <-.
        by apply andb_true_iff in Htag as [? _]. }
      rewrite (operands_cons_false n) by (by apply operator_not_operand).
      destruct b.
      * destruct rest as [|a rest']; [done|]. intros Hl Hpair.
        destruct (Hkeep Hpair) as [Hp' Ho'].
        rewrite <- Hb in Htag. apply andb_true_iff in Htag as [Ha Htag].
        rewrite (operands_cons_false a) by (by apply argument_not_operand).
        rewrite <- Ho'. apply IH; [simpl; lia|done..].
      * intros Hl Hpair. destruct (Hkeep Hpair) as [Hp' Ho'].
        rewrite <- Hb in Htag. rewrite <- Ho'. apply IH; [simpl; lia|done..].
    + assert (takes_argument n = false) as -> by (unfold takes_argument; by rewrite Hty).
      intros Htag Hl Hpair. rewrite operands_cons_false
        by (unfold is_operand; by rewrite Hty).
      apply IH; [simpl; lia|done..].
    + assert (takes_argument n = false) as -> by (unfold takes_argument; by rewrite Hty).
      intros Htag Hl Hpair. rewrite operands_cons_false
        by (unfold is_operand; by rewrite Hty).
      apply IH; [simpl; lia|done..].
    + assert (takes_argument n = false) as -> by (unfold takes_argument; by rewrite Hty).
      intros Htag Hl Hpair.
      assert (Hn : is_operand n = true) by (unfold is_operand; by rewrite Hty).
      destruct (IH rest ltac:(simpl; lia) (temp ++ [n]) Htag Hl) as [H1 H2].
      { apply paired_app; [done|]. split; [|done].
        unfold is_projection. rewrite Hty. by rewrite andb_false_r. }
      split; [done|]. rewrite H2, operands_app, <- app_assoc. f_equal.
      unfold operands. simpl. by rewrite Hn.
    + assert (takes_argument n = false) as -> by (unfold takes_argument; by rewrite Hty).
      intros Htag Hl Hpair. rewrite operands_cons_false
        by (unfold is_operand; by rewrite Hty).
      apply IH; [simpl; lia|done..].
Qed.

(** X22.  On a stream in which the token behind every operator
    with an argument is an attribute list or a condition, and with a root
    node that does not read as a projection operator, the output of
    [AK_rel_eq_projection] holds the operands of the input, each as often
    as the input and in the same order: the rewriter drops, copies and
    moves operators and arguments only. *)
Theorem rewriter_keeps_operands (list_rel_eq O : list list_node) :
  arguments_tagged list_rel_eq = true ->
  AK_rel_eq_projection MAX_TOKENS AK_get_header root list_rel_eq = Some O ->
  operands O = operands list_rel_eq.
Proof.
  intros Htag HO. by destruct (rewrite_loop_keeps _ [] O Htag HO).
Qed.

End Walks.
Lemma rewriter_keeps_operands_witness :
  exists O,
    AK_rel_eq_projection 64 student_header zeroed_root
      [mk_node TYPE_OPERATOR "p"; mk_node TYPE_ATTRIBS "id;year";
       mk_node TYPE_OPERAND "student"; mk_node TYPE_OPERAND "student";
       mk_node TYPE_OPERATOR "u"] = Some O
    /\ operands O
       = [mk_node TYPE_OPERAND "student"; mk_node TYPE_OPERAND "student"].
Proof.
  eexists. split; [vm_compute; reflexivity|].
  apply (rewriter_keeps_operands 64 student_header zeroed_root eq_refl
           [mk_node TYPE_OPERATOR "p"; mk_node TYPE_ATTRIBS "id;year";
            mk_node TYPE_OPERAND "student"; mk_node TYPE_OPERAND "student";
            mk_node TYPE_OPERATOR "u"]).
  - reflexivity.
  - vm_compute. reflexivity.
Defined.

End OperandFacts.

(** * The list utilities *)

Module AuxiFacts.
Import Auxi.

(** ** The digits of a number *)

Lemma chars_num_loop_digits base fuel number len :
  2 <= base -> 0 < number -> (Z.to_nat number <= fuel)%nat ->
  exists d,
    chars_num_loop fuel number base len = Some (len + d)
    /\ 1 <= d /\ base ^ (d - 1) <= number < base ^ d.
Proof.
  intros Hb. revert number len.
  induction fuel as [|fuel IH]; intros number len Hn Hf; [lia|].
  cbn [chars_num_loop]. rewrite decide_False by lia.
  rewrite Z.quot_div_nonneg by lia.
  pose proof (Z.div_mod number base ltac:(lia)) as Hdm.
  pose proof (Z.mod_pos_bound number base ltac:(lia)) as Hmod.
  assert (0 <= number / base) by (apply Z.div_pos; lia).
  destruct (decide (0 < number / base)) as [Hq|Hq].
  - destruct (IH (number / base) (len + 1) Hq) as (d & -> & Hd & Hlo & Hhi).
    { assert (number / base < number) by (apply Z.div_lt; lia). lia. }
    exists (d + 1). split; [f_equal; lia|]. split; [lia|].
    replace (d + 1 - 1) with (Z.succ (d - 1)) by lia.
    replace (d + 1) with (Z.succ d) by lia.
    rewrite !Z.pow_succ_r by lia. nia.
  - exists 1. split; [done|]. split; [lia|].
    assert (number / base = 0) as Hz by lia. rewrite Hz in Hdm.
    change (base ^ (1 - 1)) with 1. rewrite Z.pow_1_r. lia.
Qed.

Lemma chars_num_loop_base_one fuel number len :
  0 < number -> chars_num_loop fuel number 1 len = None.
Proof.
  revert len. induction fuel as [|fuel IH]; intros len Hn; [done|].
  cbn [chars_num_loop]. rewrite decide_False by lia.
  rewrite Z.quot_1_r. rewrite decide_True by done. by apply IH.
Qed.

Lemma quot_nonpos a b : a <= 0 -> 0 < b -> a ÷ b <= 0.
Proof.
  intros Ha Hb. rewrite <- (Z.opp_involutive a). rewrite Z.quot_opp_l by lia.
  assert (0 <= (- a) ÷ b) by (apply Z.quot_pos; lia). lia.
Qed.

Lemma quot_nonpos_neg a b : 0 <= a -> b < 0 -> a ÷ b <= 0.
Proof.
  intros Ha Hb. rewrite <- (Z.opp_involutive b). rewrite Z.quot_opp_r by lia.
  assert (0 <= a ÷ (- b)) by (apply Z.quot_pos; lia). lia.
Qed.

(** X23.  For [number > 0] and [base >= 2],
    [AK_chars_num_from_number] returns the number of digits of [number]
    in that base.  It returns 1 for every [number <= 0] with a positive
    base, and 1 or 2 with a negative base.  With [base = 1] and
    [number > 0] the loop never ends, and [base = 0] divides by zero. *)
Theorem digits_of_number :
  (forall number base,
      2 <= base -> 0 < number ->
      exists len,
        AK_chars_num_from_number number base = Some len
        /\ 1 <= len /\ base ^ (len - 1) <= number < base ^ len)
  /\ (forall number base,
        0 < base -> number <= 0 ->
        AK_chars_num_from_number number base = Some 1)
  /\ (forall number base,
        base < 0 -> - 2 ^ 31 < number ->
        AK_chars_num_from_number number base
        = Some (if decide (0 < number ÷ base) then 2 else 1))
  /\ (forall number fuel len,
        0 < number -> chars_num_loop fuel number 1 len = None)
  /\ (forall number, AK_chars_num_from_number number 0 = None).
Proof.
  split_and!.
  - intros number base Hb Hn. unfold AK_chars_num_from_number.
    destruct (chars_num_loop_digits base (S (S (Z.to_nat (Z.abs number))))
                number 0 Hb Hn) as (d & Hd & H1 & H2); [lia|].
    exists d. by rewrite Hd.
  - intros number base Hb Hn. unfold AK_chars_num_from_number.
    cbn [chars_num_loop]. rewrite decide_False by lia.
    rewrite decide_False; [done|].
    pose proof (quot_nonpos number base Hn Hb). lia.
  - intros number base Hb Hn. unfold AK_chars_num_from_number.
    cbn [chars_num_loop]. rewrite decide_False by lia.
    destruct (decide (0 < number ÷ base)) as [Hq|Hq]; [|done].
    rewrite decide_False by lia. rewrite decide_False; [done|].
    pose proof (quot_nonpos_neg (number ÷ base) base ltac:(lia) Hb). lia.
  - intros number fuel len. apply chars_num_loop_base_one.
  - intros number. unfold AK_chars_num_from_number. cbn [chars_num_loop].
    by rewrite decide_True by (by left).
Qed.

(** ** The heap *)

Lemma load_lt h a e : load h (Some a) = Some e -> (a < length (cells h))%nat.
Proof.
  unfold load; simpl. destruct (cells h !! a) as [c|] eqn:E; [|done].
  intros _. by apply lookup_lt_Some in E.
Qed.

Lemma load_store_eq h a e :
  (a < length (cells h))%nat -> load (store h a e) (Some a) = Some e.
Proof. intros H. unfold load, store; simpl. by rewrite list_lookup_insert_eq. Qed.

Lemma load_store_ne h a b e :
  a <> b -> load (store h a e) (Some b) = load h (Some b).
Proof. intros H. unfold load, store; simpl. by rewrite list_lookup_insert_ne. Qed.

Lemma load_free_eq h a : load (free h a) (Some a) = None.
Proof.
  unfold load, free; simpl.
  destruct (decide (a < length (cells h))%nat).
  - by rewrite list_lookup_insert_eq.
  - rewrite lookup_ge_None_2; [done|]. rewrite length_insert. lia.
Qed.

Lemma load_free_ne h a b :
  a <> b -> load (free h a) (Some b) = load h (Some b).
Proof. intros H. unfold load, free; simpl. by rewrite list_lookup_insert_ne. Qed.

Lemma load_grow_old h c n a :
  (a < length (cells h))%nat ->
  load (mk_memory (cells h ++ [c]) n) (Some a) = load h (Some a).
Proof. intros. unfold load; simpl. by rewrite lookup_app_l. Qed.

Lemma load_grow_new h e n :
  load (mk_memory (cells h ++ [Some e]) n) (Some (length (cells h))) = Some e.
Proof. unfold load; simpl. by rewrite list_lookup_middle. Qed.

(** ** List segments *)

Lemma lseg_frame h h' addrs : forall p q,
  (forall a, a ∈ addrs -> load h' (Some a) = load h (Some a)) ->
  lseg h p addrs q -> lseg h' p addrs q.
Proof.
  induction addrs as [|a rest IH]; intros p q Hfr; cbn [lseg]; [done|].
  intros [-> (e & He & Hrest)]. split; [done|]. exists e. split.
  - rewrite Hfr; [done|]. apply elem_of_cons. by left.
  - apply IH; [|done]. intros b Hb. apply Hfr. apply elem_of_cons. by right.
Qed.

Lemma lseg_app h l1 l2 : forall p q,
  lseg h p (l1 ++ l2) q <-> exists m, lseg h p l1 m /\ lseg h m l2 q.
Proof.
  induction l1 as [|a l1 IH]; intros p q; cbn [lseg app].
  - split; [intros H; by exists p|by intros (m & -> & H)].
  - split.
    + intros [-> (e & He & Hrest)]. apply IH in Hrest as (m & H1 & H2).
      exists m. split; [|done]. split; [done|]. by exists e.
    + intros (m & [-> (e & He & H1)] & H2). split; [done|]. exists e.
      split; [done|]. apply IH. by exists m.
Qed.

Lemma lseg_lt h addrs : forall p q,
  lseg h p addrs q -> Forall (fun a => (a < length (cells h))%nat) addrs.
Proof.
  induction addrs as [|a rest IH]; intros p q; cbn [lseg]; [by constructor|].
  intros [-> (e & He & Hrest)]. constructor; [by eapply load_lt|by eapply IH].
Qed.

Lemma NoDup_below (l : list nat) n :
  NoDup l -> Forall (fun a => (a < n)%nat) l -> (length l <= n)%nat.
Proof.
  intros Hnd Hlt.
  assert (length l <= length (seq 0 n))%nat as H; [|by rewrite length_seq in H].
  apply submseteq_length, NoDup_submseteq; [done|].
  intros x Hx. apply elem_of_seq. rewrite Forall_forall in Hlt.
  specialize (Hlt x Hx). lia.
Qed.

Lemma is_list_bound h L r addrs :
  is_list h L r addrs -> (length addrs < length (cells h))%nat.
Proof.
  intros (-> & Hseg & Hnd).
  pose proof (NoDup_below _ _ Hnd (lseg_lt _ _ _ _ Hseg)) as H.
  simpl in H. lia.
Qed.

Lemma is_list_root h L r addrs :
  is_list h L r addrs ->
  exists root, load h L = Some root /\ lseg h (next root) addrs None.
Proof. intros (-> & [_ (e & He & Hseg)] & _). by exists e. Qed.

Lemma lseg_None_nil h addrs q : lseg h None addrs q -> addrs = [].
Proof. destruct addrs; [done|]. by intros [? _]. Qed.

Lemma lseg_set_next h h' n1 x ex' p q0 q :
  lseg h p (n1 ++ [x]) q0 ->
  (forall a, a ∈ n1 -> load h' (Some a) = load h (Some a)) ->
  load h' (Some x) = Some ex' -> next ex' = q ->
  lseg h' p (n1 ++ [x]) q.
Proof.
  intros Hseg Hfr Hx Hq. apply lseg_app in Hseg as (m & H1 & [-> _]).
  apply lseg_app. exists (Some x). split; [by eapply lseg_frame|].
  split; [done|]. by exists ex'.
Qed.

Lemma NoDup_insert_fresh (pre post : list nat) x :
  NoDup (pre ++ x :: post) <-> (x ∉ pre ++ post) /\ NoDup (pre ++ post).
Proof. rewrite <- Permutation_middle. apply NoDup_cons. Qed.

Lemma payload_load h h' b :
  (forall e, load h (Some b) = Some e ->
     exists e', load h' (Some b) = Some e'
       /\ type e' = type e /\ size e' = size e /\ data e' = data e) ->
  is_Some (load h (Some b)) -> payload h' b = payload h b.
Proof.
  intros H [e He]. destruct (H e He) as (e' & He' & Ht & Hs & Hd).
  unfold payload. rewrite He, He'. cbn [mbind option_bind]. congruence.
Qed.

(** The heap after [new_elem] is allocated behind the element at [x]. *)
Lemma splice_new h p pre x post q0 q ex newe n :
  lseg h p (pre ++ [x]) q0 -> lseg h q post None ->
  NoDup (pre ++ x :: post) ->
  load h (Some x) = Some ex -> next newe = q ->
  lseg (store (mk_memory (cells h ++ [Some newe]) n) x
          (mk_list_elem (type ex) (size ex) (data ex)
             (Some (length (cells h)))))
       p (pre ++ x :: length (cells h) :: post) None
  /\ NoDup (pre ++ x :: length (cells h) :: post).
Proof.
  intros Hpre Hpost Hnd Hx Hq.
  set (new := length (cells h)).
  set (h1 := mk_memory (cells h ++ [Some newe]) n).
  pose proof (lseg_lt _ _ _ _ Hpre) as Hlt1.
  pose proof (lseg_lt _ _ _ _ Hpost) as Hlt2.
  rewrite Forall_forall in Hlt1, Hlt2.
  assert (x < new)%nat as Hxn by (by eapply load_lt).
  apply NoDup_insert_fresh in Hnd as Hnd'. destruct Hnd' as [Hxn' Hnd'].
  split.
  - change (pre ++ x :: new :: post) with (pre ++ [x] ++ new :: post).
    rewrite app_assoc. apply lseg_app. exists (Some new). split.
    + eapply lseg_set_next; [exact Hpre| |apply load_store_eq|done].
      * intros b Hb. rewrite load_store_ne.
        -- apply load_grow_old. apply Hlt1, elem_of_app. by left.
        -- intros ->. apply Hxn', elem_of_app. by left.
      * unfold h1; simpl. rewrite length_app; simpl. lia.
    + split; [done|]. exists newe. split.
      * rewrite load_store_ne by lia. apply load_grow_new.
      * rewrite Hq. eapply lseg_frame; [|exact Hpost].
        intros b Hb. rewrite load_store_ne.
        -- apply load_grow_old. by apply Hlt2.
        -- intros ->. apply Hxn', elem_of_app. by right.
  - change (pre ++ x :: new :: post) with (pre ++ [x] ++ new :: post).
    rewrite app_assoc. apply NoDup_insert_fresh.
    split; [|by rewrite <- app_assoc]. intros [Hin|Hin]%elem_of_app.
    + apply Hlt1 in Hin. unfold new in Hin. lia.
    + apply Hlt2 in Hin. unfold new in Hin. lia.
Qed.

Lemma set_next_Some h x ex q :
  load h (Some x) = Some ex ->
  set_next h (Some x) q
  = Some (store h x (mk_list_elem (type ex) (size ex) (data ex) q)).
Proof. intros H. unfold set_next. cbn [mbind option_bind]. by rewrite H. Qed.

(** [x->next = new_elem], for a [new_elem] just allocated with the
    elements [post] behind it. *)
Lemma link_new h L r pre x post q0 ex newe n addrs' :
  L = Some r -> lseg h L (pre ++ [x]) q0 -> lseg h (next newe) post None ->
  NoDup (pre ++ x :: post) -> load h (Some x) = Some ex ->
  allocations_left h = S n ->
  r :: addrs' = pre ++ x :: length (cells h) :: post ->
  exists h',
    set_next (mk_memory (cells h ++ [Some newe]) n) (Some x)
      (Some (length (cells h))) = Some h'
    /\ is_list h' L r addrs'
    /\ payload h' (length (cells h)) = Some (type newe, size newe, data newe)
    /\ (forall b, is_Some (load h (Some b)) -> payload h' b = payload h b)
    /\ allocations_left h = S (allocations_left h').
Proof.
  intros HL Hpre Hpost Hnd Hx Hn Haddrs.
  pose proof (load_lt _ _ _ Hx) as Hxlt.
  eexists. split.
  { apply set_next_Some. rewrite load_grow_old; done. }
  destruct (splice_new h L pre x post q0 (next newe) ex newe n)
    as [Hseg Hnd']; try done.
  split_and!.
  - split; [done|]. rewrite Haddrs. by split.
  - unfold payload. rewrite load_store_ne by lia. by rewrite load_grow_new.
  - intros b Hb. apply payload_load; [|done]. intros e He.
    pose proof (load_lt _ _ _ He) as Hblt.
    destruct (decide (x = b)) as [<-|Hne].
    + eexists. split; [apply load_store_eq|].
      * simpl. rewrite length_app. simpl. lia.
      * assert (e = ex) as -> by congruence. done.
    + exists e. split; [|done]. rewrite load_store_ne by done.
      by rewrite load_grow_old.
  - done.
Qed.

(** [x->next = a->next; free(a)], for the element [a] behind [x]. *)
Lemma unlink h L r pre x a post ea addrs' :
  L = Some r -> lseg h L (pre ++ x :: a :: post) None ->
  NoDup (pre ++ x :: a :: post) -> load h (Some a) = Some ea ->
  r :: addrs' = pre ++ x :: post ->
  exists h1,
    set_next h (Some x) (next ea) = Some h1
    /\ is_list (free h1 a) L r addrs'
    /\ removes_element h (free h1 a) a.
Proof.
  intros HL Hseg Hnd Ha Haddrs.
  change (pre ++ x :: a :: post) with (pre ++ [x] ++ a :: post) in Hseg, Hnd.
  rewrite app_assoc in Hseg, Hnd.
  apply NoDup_insert_fresh in Hnd as [Hfresh Hnd].
  apply lseg_app in Hseg as (m & Hpre & [-> (ea' & Ha' & Hpost)]).
  assert (ea' = ea) as -> by congruence.
  pose proof Hpre as Hpre'.
  apply lseg_app in Hpre' as (m & _ & [-> (ex & Hx & _)]).
  assert (x <> a) as Hxa.
  { intros ->. apply Hfresh. apply elem_of_app. left. apply elem_of_app.
    right. by apply list_elem_of_singleton. }
  eexists. split; [by apply set_next_Some|]. unfold removes_element.
  split_and!.
  - split; [done|]. rewrite Haddrs. split.
    + change (pre ++ x :: post) with (pre ++ [x] ++ post). rewrite app_assoc.
      apply lseg_app. exists (next ea). split.
      * eapply lseg_set_next; [exact Hpre| | |].
        -- intros b Hb. rewrite load_free_ne, load_store_ne; [done| |].
           ++ intros ->. apply NoDup_app in Hnd as [Hnd _].
              apply NoDup_app in Hnd as (_ & Hnd & _).
              apply (Hnd b Hb). by apply list_elem_of_singleton.
           ++ intros ->. apply Hfresh. apply elem_of_app. left.
              apply elem_of_app. by left.
        -- rewrite load_free_ne by done. apply load_store_eq.
           by eapply load_lt.
        -- done.
      * eapply lseg_frame; [|exact Hpost]. intros b Hb.
        rewrite load_free_ne, load_store_ne; [done| |].
        -- intros ->. apply NoDup_app in Hnd as (_ & Hnd & _).
           apply (Hnd b); [|done]. apply elem_of_app. right.
           by apply list_elem_of_singleton.
        -- intros ->. apply Hfresh. apply elem_of_app. by right.
    + change (pre ++ x :: post) with (pre ++ [x] ++ post).
      by rewrite app_assoc.
  - apply load_free_eq.
  - intros b Hb. unfold payload. rewrite load_free_ne by done.
    destruct (decide (x = b)) as [<-|Hne].
    + rewrite load_store_eq by (by eapply load_lt). by rewrite Hx.
    + by rewrite load_store_ne.
  - simpl. by rewrite !length_insert.
  - done.
Qed.

Lemma previous_loop_finds h c n1 x : forall fuel p,
  lseg h p (n1 ++ [x]) (Some c) -> c ∉ n1 ++ [x] -> (length n1 < fuel)%nat ->
  previous_loop fuel h p (Some c) = Some (Some x).
Proof.
  induction n1 as [|a n1 IH]; intros fuel p Hseg Hc Hf;
    (destruct fuel as [|fuel]; [simpl in Hf; lia|]); cbn [previous_loop];
    destruct Hseg as [-> (e & He & Hrest)]; rewrite He;
    cbn [mbind option_bind].
  - simpl in Hrest. by rewrite decide_True.
  - rewrite decide_False.
    + apply IH; [done| |simpl in Hf; lia].
      intros Hin. apply Hc. apply elem_of_cons. by right.
    + intros Hn. rewrite Hn in Hrest.
      destruct (n1 ++ [x]) as [|b k] eqn:E; [by destruct n1|].
      destruct Hrest as [[= ->] _]. apply Hc. rewrite <- app_comm_cons, E.
      apply elem_of_cons. right. apply elem_of_cons. by left.
Qed.

Lemma previous_loop_stranger h c nodes : forall fuel p,
  lseg h p nodes None -> c ∉ nodes ->
  previous_loop fuel h p (Some c) = None.
Proof.
  induction nodes as [|a nodes IH]; intros fuel p Hseg Hc;
    (destruct fuel as [|fuel]; [done|]); cbn [previous_loop].
  - simpl in Hseg. by subst p.
  - destruct Hseg as [-> (e & He & Hrest)]. rewrite He.
    cbn [mbind option_bind]. rewrite decide_False.
    + apply IH; [done|]. intros Hin. apply Hc. apply elem_of_cons. by right.
    + intros Hn. rewrite Hn in Hrest. destruct nodes as [|b k]; [done|].
      destruct Hrest as [[= ->] _]. apply Hc. apply elem_of_cons. right.
      apply elem_of_cons. by left.
Qed.

Lemma snoc_cases {A} (r : A) l : exists pre x, r :: l = pre ++ [x].
Proof.
  destruct l as [|y l _] using rev_ind.
  - by exists [], r.
  - by exists (r :: l), y.
Qed.

Section ListFacts.

Variable MAX_VARCHAR_LENGTH : Z.

(** ** Reading a list *)

Lemma size_loop_spec h addrs : forall fuel p s,
  lseg h p addrs None -> (length addrs < fuel)%nat ->
  size_loop fuel h p s = Some (s + Z.of_nat (length addrs)).
Proof.
  induction addrs as [|a rest IH]; intros fuel p s Hseg Hf;
    (destruct fuel as [|fuel]; [simpl in Hf; lia|]).
  - simpl in Hseg. subst p. simpl. f_equal. lia.
  - destruct Hseg as [-> (e & He & Hrest)]. cbn [size_loop Ak_Next_L].
    rewrite He. cbn [mbind option_bind]. rewrite (IH fuel); [|done|simpl in Hf; lia].
    f_equal. simpl length. lia.
Qed.

Lemma end_loop_spec h rest : forall fuel c,
  lseg h (Some c) (c :: rest) None -> (length rest < fuel)%nat ->
  end_loop fuel h c = last (c :: rest).
Proof.
  induction rest as [|a rest IH]; intros fuel c [_ (e & He & Hrest)] Hf;
    (destruct fuel as [|fuel]; [simpl in Hf; lia|]); cbn [end_loop];
    rewrite He; cbn [mbind option_bind].
  - simpl in Hrest. by rewrite Hrest.
  - pose proof Hrest as [Hn _]. rewrite Hn.
    by rewrite (IH fuel a); [|by rewrite Hn in Hrest|simpl in Hf; lia].
Qed.

Lemma get_nth_loop_spec h addrs : forall fuel p pos i,
  lseg h p addrs None -> (length addrs < fuel)%nat ->
  get_nth_loop fuel h pos i p
  = Some (if decide (i <= pos) then addrs !! Z.to_nat (pos - i) else None).
Proof.
  induction addrs as [|a rest IH]; intros fuel p pos i Hseg Hf;
    (destruct fuel as [|fuel]; [simpl in Hf; lia|]); cbn [get_nth_loop].
  - simpl in Hseg. subst p. destruct (decide (pos = i)) as [->|Hne].
    + by rewrite decide_True by lia.
    + simpl. by destruct (decide (i <= pos)).
  - destruct Hseg as [-> (e & He & Hrest)].
    destruct (decide (pos = i)) as [->|Hne].
    + rewrite decide_True by lia. by rewrite Z.sub_diag.
    + cbn [Ak_Next_L]. rewrite He. cbn [mbind option_bind].
      destruct (next e) as [n|] eqn:En.
      * rewrite (IH fuel); [|done|simpl in Hf; lia].
        f_equal. destruct (decide (i <= pos)).
        -- rewrite decide_True by lia.
           replace (Z.to_nat (pos - i)) with (S (Z.to_nat (pos - (i + 1)))) by lia.
           done.
        -- by rewrite decide_False by lia.
      * apply lseg_None_nil in Hrest as ->. f_equal.
        destruct (decide (i <= pos)); [|done].
        replace (Z.to_nat (pos - i)) with (S (Z.to_nat (pos - (i + 1)))) by lia.
        done.
Qed.

(** X24.  On a list of the elements at [addrs], [Ak_Size_L]
    returns their number, [Ak_IsEmpty_L] returns 1 exactly for the empty
    list, [Ak_First_L] and [Ak_End_L] return the first and the last
    element ([NULL] for the empty list) and [Ak_GetNth_L] returns the
    element at position [pos], counted from 0, and [NULL] for a negative
    position or one behind the end. *)
Theorem list_reads h L r addrs :
  is_list h L r addrs ->
  Ak_Size_L L h = Some (Z.of_nat (length addrs))
  /\ Ak_IsEmpty_L L h = Some (if decide (addrs = []) then 1 else 0)
  /\ Ak_First_L L h = Some (head addrs)
  /\ Ak_End_L L h = Some (last addrs)
  /\ forall pos,
       Ak_GetNth_L pos L h
       = Some (if decide (0 <= pos) then addrs !! Z.to_nat pos else None).
Proof.
  intros Hl. pose proof (is_list_bound _ _ _ _ Hl) as Hb.
  destruct (is_list_root _ _ _ _ Hl) as (root & Hroot & Hseg).
  assert (next root = head addrs) as Hhead.
  { destruct addrs; [done|]. by destruct Hseg as [-> _]. }
  unfold Ak_Size_L, Ak_IsEmpty_L, Ak_End_L, Ak_GetNth_L, Ak_First_L.
  rewrite Hroot. cbn [mbind option_bind]. split_and!.
  - rewrite (size_loop_spec h addrs); [done|done|lia].
  - rewrite Hhead. by destruct addrs.
  - by rewrite Hhead.
  - rewrite Hhead. destruct addrs as [|a rest]; [done|]. cbn [head].
    rewrite (end_loop_spec h rest); [|by rewrite Hhead in Hseg|simpl in Hb; lia].
    destruct (last (a :: rest)) eqn:E; [done|]. by apply last_None in E.
  - intros pos. rewrite (get_nth_loop_spec h addrs); [|done|lia].
    by rewrite Z.sub_0_r.
Qed.

(** ** Inserting *)

Lemma malloc_elem_fits ty bytes sz nx h :
  fits MAX_VARCHAR_LENGTH h sz bytes ->
  exists n,
    allocations_left h = S n
    /\ malloc_elem ty bytes sz nx h
       = Some (length (cells h),
               mk_memory
                 (cells h
                  ++ [Some (mk_list_elem ty sz (take (Z.to_nat sz) bytes) nx)])
                 n).
Proof.
  intros (Ha & Hs & Hd). unfold malloc_elem.
  destruct (allocations_left h) as [|n]; [lia|]. by exists n.
Qed.

Lemma malloc_elem_none ty bytes sz nx h :
  allocations_left h = 0%nat -> malloc_elem ty bytes sz nx h = None.
Proof. intros H. unfold malloc_elem. by rewrite H. Qed.

Lemma is_list_split h L r l1 a l2 :
  is_list h L r (l1 ++ a :: l2) ->
  exists ea,
    load h (Some a) = Some ea
    /\ lseg h L ((r :: l1) ++ [a]) (next ea)
    /\ lseg h (next ea) l2 None
    /\ lseg h L (r :: l1) (Some a)
    /\ lseg h (Some a) (a :: l2) None
    /\ NoDup ((r :: l1) ++ a :: l2).
Proof.
  intros (HL & Hseg & Hnd).
  change (r :: l1 ++ a :: l2) with ((r :: l1) ++ [a] ++ l2) in Hseg.
  pose proof Hseg as Hseg'.
  apply lseg_app in Hseg' as (m & H1 & H2).
  pose proof H2 as [-> (ea & Ha & H3)].
  exists ea. split_and!; try done.
  rewrite app_assoc in Hseg. apply lseg_app in Hseg as (m & H4 & H5).
  apply lseg_app in H4 as H6. destruct H6 as (m' & _ & [-> (ea' & Ha' & H7)]).
  simpl in H7. assert (ea' = ea) as -> by congruence. by subst m.
Qed.

Lemma insert_after_in h L r l1 a l2 ty bytes sz :
  is_list h L r (l1 ++ a :: l2) -> fits MAX_VARCHAR_LENGTH h sz bytes ->
  exists h',
    Ak_InsertAfter_L ty bytes sz (Some a) L h = Some h'
    /\ is_list h' L r (l1 ++ a :: length (cells h) :: l2)
    /\ adds_element h h' ty sz bytes.
Proof.
  intros Hl Hfit. pose proof Hl as (HL & _ & _).
  destruct (is_list_split _ _ _ _ _ _ Hl) as (ea & Ha & H1 & H2 & _ & _ & Hnd).
  destruct (malloc_elem_fits ty bytes sz (next ea) h Hfit) as (n & Hn & Hm).
  cbn [Ak_InsertAfter_L]. rewrite Ha. cbn [mbind option_bind]. rewrite Hm.
  cbn [mbind option_bind].
  destruct (link_new h L r (r :: l1) a l2 (next ea) ea
              (mk_list_elem ty sz (take (Z.to_nat sz) bytes) (next ea)) n
              (l1 ++ a :: length (cells h) :: l2))
    as (h' & Hset & Hlist & Hp); try done.
  by exists h'.
Qed.

Lemma insert_before_in h L r l1 a l2 ty bytes sz :
  is_list h L r (l1 ++ a :: l2) -> fits MAX_VARCHAR_LENGTH h sz bytes ->
  exists h',
    Ak_InsertBefore_L ty bytes sz (Some a) L h = Some h'
    /\ is_list h' L r (l1 ++ length (cells h) :: a :: l2)
    /\ adds_element h h' ty sz bytes.
Proof.
  intros Hl Hfit. pose proof Hl as (HL & _ & _).
  destruct (is_list_split _ _ _ _ _ _ Hl) as (ea & Ha & _ & _ & H1 & H2 & Hnd).
  destruct (malloc_elem_fits ty bytes sz (Some a) h Hfit) as (n & Hn & Hm).
  destruct (snoc_cases r l1) as (pre & x & Hpre). rewrite Hpre in H1, Hnd.
  cbn [Ak_InsertBefore_L]. rewrite Hm. cbn [mbind option_bind].
  assert (a ∉ pre ++ [x]) as Hfresh.
  { apply NoDup_insert_fresh in Hnd as [Hf _]. intros Hin.
    apply Hf, elem_of_app. by left. }
  pose proof (lseg_lt _ _ _ _ H1) as Hlt. rewrite Forall_forall in Hlt.
  unfold Ak_Previous_L. rewrite decide_False.
  2:{ intros [?|E]; [done|]. rewrite HL in E. injection E as ->.
      apply Hfresh. rewrite <- Hpre. apply elem_of_cons. by left. }
  rewrite (previous_loop_finds _ a pre x); [|
    eapply lseg_frame; [|exact H1]; intros b Hb; apply load_grow_old;
    by apply Hlt | done |].
  2:{ simpl. rewrite length_app. simpl.
      pose proof (is_list_bound _ _ _ _ Hl) as Hb.
      apply (f_equal length) in Hpre. simpl in Hpre.
      rewrite !length_app in *. simpl in *. lia. }
  cbn [mbind option_bind].
  pose proof H1 as Hx. apply lseg_app in Hx as (m & _ & [-> (ex & Hx & _)]).
  destruct (link_new h L r pre x (a :: l2) (Some a) ex
              (mk_list_elem ty sz (take (Z.to_nat sz) bytes) (Some a)) n
              (l1 ++ length (cells h) :: a :: l2))
    as (h' & Hset & Hlist & Hp); try done.
  - change (pre ++ x :: a :: l2) with (pre ++ [x] ++ a :: l2).
    by rewrite app_assoc.
  - change (pre ++ x :: length (cells h) :: a :: l2)
      with (pre ++ [x] ++ length (cells h) :: a :: l2).
    by rewrite app_assoc, <- Hpre.
  - by exists h'.
Qed.

Lemma insert_at_null h L r addrs ty bytes sz :
  is_list h L r addrs -> fits MAX_VARCHAR_LENGTH h sz bytes ->
  exists h',
    Ak_InsertAfter_L ty bytes sz None L h = Some h'
    /\ Ak_InsertBefore_L ty bytes sz None L h = Some h'
    /\ is_list h' L r [length (cells h)]
    /\ adds_element h h' ty sz bytes.
Proof.
  intros (HL & Hseg & Hnd) Hfit.
  destruct (malloc_elem_fits ty bytes sz None h Hfit) as (n & Hn & Hm).
  cbn [Ak_InsertAfter_L Ak_InsertBefore_L]. rewrite Hm.
  cbn [mbind option_bind].
  pose proof Hseg as [_ (root & Hroot & _)].
  destruct (link_new h L r [] r [] (next root) root
              (mk_list_elem ty sz (take (Z.to_nat sz) bytes) None) n
              [length (cells h)])
    as (h' & Hset & Hlist & Hp); try done;
    try apply NoDup_singleton; try (split; [done|]; by exists root).
  subst L. by exists h'.
Qed.

Lemma first_is_head h L r addrs :
  is_list h L r addrs -> Ak_First_L L h = Some (head addrs).
Proof.
  intros Hl. destruct (is_list_root _ _ _ _ Hl) as (root & Hroot & Hseg).
  unfold Ak_First_L. rewrite Hroot. cbn [mbind option_bind]. f_equal.
  destruct addrs; [done|]. by destruct Hseg as [-> _].
Qed.

Lemma end_is_last h L r addrs :
  is_list h L r addrs -> Ak_End_L L h = Some (last addrs).
Proof.
  intros Hl. pose proof (is_list_bound _ _ _ _ Hl) as Hb.
  destruct (is_list_root _ _ _ _ Hl) as (root & Hroot & Hseg).
  unfold Ak_End_L. rewrite (first_is_head _ _ _ _ Hl).
  cbn [mbind option_bind]. destruct addrs as [|a rest]; [done|]. cbn [head].
  rewrite (end_loop_spec h rest); [| |simpl in Hb; lia].
  - destruct (last (a :: rest)) eqn:E; [done|]. by apply last_None in E.
  - destruct Hseg as [_ He]. by split.
Qed.

(** X25.  With an allocation left and [size] bytes that can be
    read from [data] and fit an element, [Ak_InsertAfter_L] and
    [Ak_InsertBefore_L] place the new element right behind and right in
    front of an element of the list, [Ak_InsertAtEnd_L] behind the last
    and [Ak_InsertAtBegin_L] in front of the first element.  The new
    element carries the type, the size and the first [size] bytes of
    [data]; the other elements keep their order and their content. *)
Theorem insert_places_element h L r addrs ty bytes sz :
  is_list h L r addrs -> fits MAX_VARCHAR_LENGTH h sz bytes ->
  (forall l1 a l2,
      addrs = l1 ++ a :: l2 ->
      (exists h',
         Ak_InsertAfter_L ty bytes sz (Some a) L h = Some h'
         /\ is_list h' L r (l1 ++ a :: length (cells h) :: l2)
         /\ adds_element h h' ty sz bytes)
      /\ (exists h',
            Ak_InsertBefore_L ty bytes sz (Some a) L h
            = Some h'
            /\ is_list h' L r (l1 ++ length (cells h) :: a :: l2)
            /\ adds_element h h' ty sz bytes))
  /\ (exists h',
        Ak_InsertAtEnd_L ty bytes sz L h = Some h'
        /\ is_list h' L r (addrs ++ [length (cells h)])
        /\ adds_element h h' ty sz bytes)
  /\ (exists h',
        Ak_InsertAtBegin_L ty bytes sz L h = Some h'
        /\ is_list h' L r (length (cells h) :: addrs)
        /\ adds_element h h' ty sz bytes).
Proof.
  intros Hl Hfit. split_and!.
  - intros l1 a l2 ->.
    split; [by apply insert_after_in|by apply insert_before_in].
  - unfold Ak_InsertAtEnd_L. rewrite (end_is_last _ _ _ _ Hl).
    cbn [mbind option_bind].
    destruct addrs as [|y l _] using rev_ind.
    + destruct (insert_at_null h L r [] ty bytes sz Hl Hfit)
        as (h' & H1 & _ & H2 & H3). by exists h'.
    + rewrite last_snoc.
      destruct (insert_after_in h L r l y [] ty bytes sz Hl Hfit)
        as (h' & H1 & H2 & H3).
      exists h'. split; [done|]. split; [|done]. by rewrite <- app_assoc.
  - unfold Ak_InsertAtBegin_L. rewrite (first_is_head _ _ _ _ Hl).
    cbn [mbind option_bind].
    destruct addrs as [|y l].
    + destruct (insert_at_null h L r [] ty bytes sz Hl Hfit)
        as (h' & _ & H1 & H2 & H3). by exists h'.
    + cbn [head].
      destruct (insert_before_in h L r [] y l ty bytes sz Hl Hfit)
        as (h' & H1 & H2 & H3). by exists h'.
Qed.

(** X26.  [Ak_InsertAfter_L] and [Ak_InsertBefore_L] with a
    [NULL] current element on a list that is not empty make the new
    element the only element of the list: the size becomes 1, and the
    former elements stay allocated with their content, no longer
    reachable from the root. *)
Theorem insert_at_null_forgets_list h L r a addrs ty bytes sz :
  is_list h L r (a :: addrs) -> fits MAX_VARCHAR_LENGTH h sz bytes ->
  exists h',
    Ak_InsertAfter_L ty bytes sz None L h = Some h'
    /\ Ak_InsertBefore_L ty bytes sz None L h = Some h'
    /\ is_list h' L r [length (cells h)]
    /\ Ak_Size_L L h' = Some 1
    /\ forall b, b ∈ a :: addrs -> payload h' b = payload h b
                                  /\ is_Some (load h' (Some b)).
Proof.
  intros Hl Hfit.
  destruct (insert_at_null h L r (a :: addrs) ty bytes sz Hl Hfit)
    as (h' & H1 & H2 & H3 & H4 & H5 & H6).
  exists h'. split_and!; try done.
  - destruct (is_list_root _ _ _ _ H3) as (root & Hroot & Hseg).
    unfold Ak_Size_L, Ak_First_L. rewrite Hroot. cbn [mbind option_bind].
    rewrite (size_loop_spec h' [length (cells h)]); [done|done|].
    pose proof (is_list_bound _ _ _ _ H3). simpl in *. lia.
  - intros b Hb. destruct Hl as (_ & Hseg & _).
    assert (is_Some (load h (Some b))) as Hsome.
    { change (r :: a :: addrs) with ([r] ++ a :: addrs) in Hseg.
      apply lseg_app in Hseg as (m & _ & Hseg).
      apply list_elem_of_lookup in Hb as [i Hi].
      apply take_drop_middle in Hi. rewrite <- Hi in Hseg.
      apply lseg_app in Hseg as (m' & _ & [_ (e & He & _)]). by exists e. }
    pose proof (H5 b Hsome) as Hp. split; [done|].
    destruct Hsome as [e He]. unfold payload in Hp. rewrite He in Hp.
    destruct (load h' (Some b)); [done|discriminate].
Qed.

(** ** Deleting *)

Lemma delete_in h L r l1 a l2 :
  is_list h L r (l1 ++ a :: l2) ->
  exists h',
    Ak_Delete_L (Some a) L h = Some h'
    /\ is_list h' L r (l1 ++ l2) /\ removes_element h h' a.
Proof.
  intros Hl. pose proof Hl as (HL & Hseg & Hnd').
  destruct (is_list_split _ _ _ _ _ _ Hl) as (ea & Ha & _ & _ & H1 & H2 & Hnd).
  destruct (snoc_cases r l1) as (pre & x & Hpre). rewrite Hpre in H1, Hnd.
  assert (a ∉ pre ++ [x]) as Hfresh.
  { apply NoDup_insert_fresh in Hnd as [Hf _]. intros Hin.
    apply Hf, elem_of_app. by left. }
  cbn [Ak_Delete_L]. unfold Ak_Previous_L. rewrite decide_False.
  2:{ intros [?|E]; [done|]. rewrite HL in E. injection E as ->.
      apply Hfresh. rewrite <- Hpre. apply elem_of_cons. by left. }
  rewrite (previous_loop_finds _ a pre x); [|done|done|].
  2:{ pose proof (is_list_bound _ _ _ _ Hl) as Hb.
      apply (f_equal length) in Hpre. simpl in Hpre.
      rewrite !length_app in *. simpl in *. lia. }
  cbn [mbind option_bind]. rewrite Ha. cbn [mbind option_bind].
  destruct (unlink h L r pre x a l2 ea (l1 ++ l2)) as (h1 & Hset & Hlist & Hrm);
    try done.
  - change (pre ++ x :: a :: l2) with (pre ++ [x] ++ a :: l2).
    rewrite app_assoc, <- Hpre. done.
  - change (pre ++ x :: a :: l2) with (pre ++ [x] ++ a :: l2).
    by rewrite app_assoc.
  - change (pre ++ x :: l2) with (pre ++ [x] ++ l2).
    by rewrite app_assoc, <- Hpre.
  - rewrite Hset. cbn [mbind option_bind]. by eexists.
Qed.

(** X27.  [Ak_Delete_L] of an element of the list gives the list
    without it, the other elements in their order and with their content,
    frees the element and makes the size one less; with a [NULL] element
    it changes nothing. *)
Theorem delete_unlinks_element h L r l1 a l2 :
  is_list h L r (l1 ++ a :: l2) ->
  (exists h',
     Ak_Delete_L (Some a) L h = Some h'
     /\ is_list h' L r (l1 ++ l2) /\ removes_element h h' a
     /\ Ak_Size_L L h' = Some (Z.of_nat (length (l1 ++ a :: l2)) - 1))
  /\ Ak_Delete_L None L h = Some h.
Proof.
  intros Hl. split; [|done].
  destruct (delete_in _ _ _ _ _ _ Hl) as (h' & H1 & H2 & H3).
  exists h'. split_and!; try done.
  destruct (is_list_root _ _ _ _ H2) as (root & Hroot & Hseg).
  unfold Ak_Size_L, Ak_First_L. rewrite Hroot. cbn [mbind option_bind].
  rewrite (size_loop_spec h' (l1 ++ l2)); [|done|].
  - f_equal. rewrite !length_app. simpl. lia.
  - pose proof (is_list_bound _ _ _ _ H2). lia.
Qed.

Lemma delete_all_loop_spec addrs : forall fuel h L r,
  is_list h L r addrs -> (length addrs < fuel)%nat ->
  exists h',
    delete_all_loop fuel L h = Some h'
    /\ is_list h' L r []
    /\ (forall a, a ∈ addrs -> load h' (Some a) = None)
    /\ (forall b, b ∉ addrs -> payload h' b = payload h b)
    /\ length (cells h') = length (cells h)
    /\ allocations_left h' = allocations_left h.
Proof.
  induction addrs as [|a rest IH]; intros fuel h L r Hl Hf;
    (destruct fuel as [|fuel]; [simpl in Hf; lia|]); cbn [delete_all_loop];
    rewrite (first_is_head _ _ _ _ Hl); cbn [mbind option_bind head].
  - exists h. split_and!; try done. by intros a Ha%elem_of_nil.
  - pose proof Hl as (HL & Hseg & Hnd).
    pose proof Hseg as [_ (root & Hroot & [_ (ea & Ha & _)])].
    rewrite Ha. cbn [mbind option_bind].
    destruct (unlink h L r [] r a rest ea rest) as (h1 & Hset & Hlist & Hrm);
      try done.
    rewrite HL, Hset. cbn [mbind option_bind].
    destruct Hrm as (Hfree & Hkeep & Hlen & Hal).
    destruct (IH fuel (free h1 a) (Some r) r) as (h' & H1 & H2 & H3 & H4 & H5 & H6).
    { by rewrite <- HL. }
    { simpl in Hf. lia. }
    exists h'. split_and!; try done; try congruence.
    + intros b [->|Hb]%elem_of_cons; [|by apply H3].
      assert (a ∉ rest) as Hno.
      { apply NoDup_cons in Hnd as [_ Hnd]. by apply NoDup_cons in Hnd as [? _]. }
      pose proof (H4 a Hno) as Hp. unfold payload in Hp. rewrite Hfree in Hp.
      by destruct (load h' (Some a)).
    + intros b Hb. rewrite H4.
      * apply Hkeep. intros ->. apply Hb. apply elem_of_cons. by left.
      * intros Hin. apply Hb. apply elem_of_cons. by right.
Qed.

(** X28.  [Ak_DeleteAll_L] returns on every list, leaves the
    empty list at the root, frees every element of the list and touches
    no other element. *)
Theorem delete_all_empties h L r addrs :
  is_list h L r addrs ->
  exists h',
    Ak_DeleteAll_L L h = Some h'
    /\ is_list h' L r []
    /\ Ak_IsEmpty_L L h' = Some 1
    /\ (forall a, a ∈ addrs -> load h' (Some a) = None)
    /\ (forall b, b ∉ addrs -> payload h' b = payload h b)
    /\ allocations_left h' = allocations_left h.
Proof.
  intros Hl.
  destruct (delete_all_loop_spec addrs (S (length (cells h))) h L r Hl)
    as (h' & H1 & H2 & H3 & H4 & H5 & H6).
  { pose proof (is_list_bound _ _ _ _ Hl). lia. }
  exists h'. split_and!; try done.
  unfold Ak_IsEmpty_L. by rewrite (first_is_head _ _ _ _ H2).
Qed.

(** ** Positions *)

Lemma position_loop_member h a rest : forall fuel c k i,
  lseg h (Some c) (c :: rest) None -> NoDup (c :: rest) ->
  (c :: rest) !! k = Some a -> (length rest < fuel)%nat ->
  position_loop fuel h (Some c) (Some a) i = Some (i + Z.of_nat k).
Proof.
  induction rest as [|b rest IH]; intros fuel c k i [_ (e & He & Hrest)] Hnd Hk Hf;
    (destruct fuel as [|fuel]; [simpl in Hf; lia|]); cbn [position_loop];
    rewrite He; cbn [mbind option_bind].
  - simpl in Hrest. rewrite Hrest. rewrite decide_False by (by intros [? _]).
    destruct k as [|k]; [f_equal; lia|]. by destruct k.
  - pose proof Hrest as [Hn _]. rewrite Hn.
    destruct (decide (c = a)) as [->|Hne].
    + rewrite decide_False by (by intros [_ ?]).
      assert (k = 0%nat) as ->; [|f_equal; lia].
      by apply (NoDup_lookup (a :: b :: rest) k 0%nat a).
    + rewrite decide_True by (split; congruence).
      destruct k as [|k]; [simpl in Hk; congruence|].
      rewrite (IH fuel b k); [f_equal; lia| | |done|simpl in Hf; lia].
      * by rewrite Hn in Hrest.
      * by apply NoDup_cons in Hnd as [_ ?].
Qed.

Lemma position_loop_stranger h S rest : forall fuel c i,
  lseg h (Some c) (c :: rest) None ->
  (forall a, a ∈ c :: rest -> S <> Some a) -> (length rest < fuel)%nat ->
  position_loop fuel h (Some c) S i = Some (i + Z.of_nat (length rest)).
Proof.
  induction rest as [|b rest IH]; intros fuel c i [_ (e & He & Hrest)] HS Hf;
    (destruct fuel as [|fuel]; [simpl in Hf; lia|]); cbn [position_loop];
    rewrite He; cbn [mbind option_bind].
  - simpl in Hrest. rewrite Hrest. rewrite decide_False by (by intros [? _]).
    f_equal. simpl. lia.
  - pose proof Hrest as [Hn _]. rewrite Hn. rewrite decide_True.
    + rewrite (IH fuel b); [f_equal; simpl length; lia| | |simpl in Hf; lia].
      * by rewrite Hn in Hrest.
      * intros a Ha. apply HS. apply elem_of_cons. by right.
    + split; [done|]. intros E. apply (HS c); [|done]. apply elem_of_cons.
      by left.
Qed.

(** X29.  [Ak_Get_Position_Of_Element] returns the position of an
    element of the list counted from 1, and 0 for the root.  For [NULL]
    and for every pointer that is no element of the list it returns the
    size of the list, which is the position of the last element. *)
Theorem position_of_element h L r addrs :
  is_list h L r addrs ->
  (forall k a,
      addrs !! k = Some a ->
      Ak_Get_Position_Of_Element (Some a) L h = Some (Z.of_nat k + 1))
  /\ Ak_Get_Position_Of_Element L L h = Some 0
  /\ (forall SearchedElement,
        SearchedElement <> L ->
        (forall a, a ∈ addrs -> SearchedElement <> Some a) ->
        Ak_Get_Position_Of_Element SearchedElement L h
        = Some (Z.of_nat (length addrs))).
Proof.
  intros Hl. pose proof (is_list_bound _ _ _ _ Hl) as Hb.
  destruct Hl as (-> & Hseg & Hnd). unfold Ak_Get_Position_Of_Element.
  split_and!.
  - intros k a Hk.
    rewrite (position_loop_member h a addrs _ r (S k)); [f_equal; lia|done..|lia].
  - by rewrite (position_loop_member h r addrs _ r 0%nat); [|done..|lia].
  - intros SearchedElement HL HS.
    rewrite (position_loop_stranger h SearchedElement addrs); [done|done| |lia].
    intros a [->|Ha]%elem_of_cons; [done|by apply HS].
Qed.

(** ** What the list functions do not check *)

(** X30.  [Ak_Delete_L] and [Ak_InsertBefore_L] at a pointer that
    is no element of the list, the root included, dereference [NULL].
    When [malloc] returns [NULL], every insertion writes through
    [NULL]. *)
Theorem list_calls_that_fault h L r addrs :
  is_list h L r addrs ->
  (forall c ty bytes sz,
      c ∉ addrs ->
      Ak_Delete_L (Some c) L h = None
      /\ Ak_InsertBefore_L ty bytes sz (Some c) L h = None)
  /\ (allocations_left h = 0%nat ->
      forall current ty bytes sz,
        Ak_InsertAfter_L ty bytes sz current L h = None
        /\ Ak_InsertBefore_L ty bytes sz current L h = None
        /\ Ak_InsertAtEnd_L ty bytes sz L h = None
        /\ Ak_InsertAtBegin_L ty bytes sz L h = None).
Proof.
  intros Hl. split.
  - intros c ty bytes sz Hc. pose proof Hl as (HL & Hseg & Hnd).
    assert (forall h1,
               (forall b, b ∈ r :: addrs -> load h1 (Some b) = load h (Some b)) ->
               Ak_Previous_L (Some c) L h1 = Some None
               \/ Ak_Previous_L (Some c) L h1 = None) as Hprev.
    { intros h1 Hfr. unfold Ak_Previous_L.
      case_decide as Hne; [by left|].
      right. apply (previous_loop_stranger _ c (r :: addrs)).
      - by eapply lseg_frame.
      - intros [->|Hin]%elem_of_cons; [|done]. apply Hne. by right. }
    split.
    + cbn [Ak_Delete_L]. destruct (Hprev h) as [-> | ->]; [done| |done].
      cbn [mbind option_bind]. by destruct (load h (Some c)).
    + cbn [Ak_InsertBefore_L].
      destruct (malloc_elem ty bytes sz (Some c) h)
        as [[new_elem h1]|] eqn:Hm; [|done].
      cbn [mbind option_bind].
      destruct (Hprev h1) as [-> | ->]; [|done..].
      intros b Hb. unfold malloc_elem in Hm.
      destruct (allocations_left h); [done|].
      injection Hm as <- <-. apply load_grow_old.
      pose proof (lseg_lt _ _ _ _ Hseg) as Hlt. rewrite Forall_forall in Hlt.
      by apply Hlt.
  - intros Hno current ty bytes sz.
    unfold Ak_InsertAtEnd_L, Ak_InsertAtBegin_L.
    rewrite (end_is_last _ _ _ _ Hl), (first_is_head _ _ _ _ Hl).
    cbn [mbind option_bind].
    assert (forall cur, Ak_InsertAfter_L ty bytes sz cur L h = None)
      as Hafter.
    { intros [a|]; cbn [Ak_InsertAfter_L].
      - destruct (load h (Some a)); [|done]. cbn [mbind option_bind].
        by rewrite malloc_elem_none.
      - by rewrite malloc_elem_none. }
    assert (forall cur, Ak_InsertBefore_L ty bytes sz cur L h = None)
      as Hbefore.
    { intros [a|]; cbn [Ak_InsertBefore_L]; by rewrite malloc_elem_none. }
    by rewrite !Hafter, !Hbefore.
Qed.

End ListFacts.

Lemma row_heap_is_list : is_list row_heap (Some 0%nat) 0 [1; 2]%nat.
Proof.
  split; [done|]. split.
  - repeat (split; [done|]; eexists; split; [reflexivity|]). done.
  - apply (bool_decide_unpack _). vm_compute. exact I.
Qed.

Lemma row_heap_fits : fits 16 row_heap 1 ["z"]%char.
Proof. unfold fits. simpl. lia. Qed.

Lemma digits_of_number_witness :
  exists len,
    AK_chars_num_from_number 255 10 = Some len
    /\ 1 <= len /\ 10 ^ (len - 1) <= 255 < 10 ^ len.
Proof. apply (proj1 digits_of_number 255 10); lia. Defined.

Lemma list_reads_witness :
  Ak_Size_L (Some 0%nat) row_heap = Some 2
  /\ Ak_IsEmpty_L (Some 0%nat) row_heap = Some 0
  /\ Ak_First_L (Some 0%nat) row_heap = Some (Some 1%nat)
  /\ Ak_End_L (Some 0%nat) row_heap = Some (Some 2%nat)
  /\ forall pos,
       Ak_GetNth_L pos (Some 0%nat) row_heap
       = Some (if decide (0 <= pos) then [1; 2]%nat !! Z.to_nat pos else None).
Proof. apply (list_reads row_heap (Some 0%nat) 0 [1; 2]%nat row_heap_is_list). Defined.

Lemma insert_places_element_witness :
  exists h',
    Ak_InsertAtEnd_L 7 ["z"]%char 1 (Some 0%nat) row_heap = Some h'
    /\ is_list h' (Some 0%nat) 0 [1; 2; 3]%nat
    /\ adds_element row_heap h' 7 1 ["z"]%char.
Proof.
  apply (proj1 (proj2 (insert_places_element 16 row_heap (Some 0%nat) 0
                         [1; 2]%nat 7 ["z"]%char 1
                         row_heap_is_list row_heap_fits))).
Defined.

Lemma insert_at_null_forgets_list_witness :
  exists h',
    Ak_InsertAfter_L 7 ["z"]%char 1 None (Some 0%nat) row_heap = Some h'
    /\ Ak_InsertBefore_L 7 ["z"]%char 1 None (Some 0%nat) row_heap = Some h'
    /\ is_list h' (Some 0%nat) 0 [3]%nat
    /\ Ak_Size_L (Some 0%nat) h' = Some 1
    /\ forall b, b ∈ [1; 2]%nat -> payload h' b = payload row_heap b
                                   /\ is_Some (load h' (Some b)).
Proof.
  apply (insert_at_null_forgets_list 16 row_heap (Some 0%nat) 0 1%nat [2]%nat
           7 ["z"]%char 1 row_heap_is_list row_heap_fits).
Defined.

Lemma delete_unlinks_element_witness :
  exists h',
    Ak_Delete_L (Some 1%nat) (Some 0%nat) row_heap = Some h'
    /\ is_list h' (Some 0%nat) 0 [2]%nat /\ removes_element row_heap h' 1
    /\ Ak_Size_L (Some 0%nat) h' = Some 1.
Proof.
  apply (proj1 (delete_unlinks_element row_heap (Some 0%nat) 0 [] 1%nat [2]%nat
                  row_heap_is_list)).
Defined.

Lemma delete_all_empties_witness :
  exists h',
    Ak_DeleteAll_L (Some 0%nat) row_heap = Some h'
    /\ is_list h' (Some 0%nat) 0 []
    /\ Ak_IsEmpty_L (Some 0%nat) h' = Some 1
    /\ (forall a, a ∈ [1; 2]%nat -> load h' (Some a) = None)
    /\ (forall b, b ∉ [1; 2]%nat -> payload h' b = payload row_heap b)
    /\ allocations_left h' = allocations_left row_heap.
Proof.
  apply (delete_all_empties row_heap (Some 0%nat) 0 [1; 2]%nat row_heap_is_list).
Defined.

Lemma position_of_element_witness :
  Ak_Get_Position_Of_Element (Some 2%nat) (Some 0%nat) row_heap = Some 2
  /\ Ak_Get_Position_Of_Element None (Some 0%nat) row_heap = Some 2.
Proof.
  destruct (position_of_element row_heap (Some 0%nat) 0 [1; 2]%nat
              row_heap_is_list) as (Hin & _ & Hout).
  split.
  - apply (Hin 1%nat 2%nat). reflexivity.
  - apply (Hout None); [discriminate|]. intros a _. discriminate.
Defined.

Lemma list_calls_that_fault_witness :
  (Ak_Delete_L (Some 0%nat) (Some 0%nat) row_heap = None
   /\ Ak_InsertBefore_L 7 ["z"]%char 1 (Some 0%nat) (Some 0%nat) row_heap
      = None)
  /\ Ak_InsertAtEnd_L 7 ["z"]%char 1 (Some 0%nat)
       (mk_memory (cells row_heap) 0)
     = None.
Proof.
  split.
  - apply (proj1 (list_calls_that_fault row_heap (Some 0%nat) 0 [1; 2]%nat
                    row_heap_is_list) 0%nat 7 ["z"]%char 1).
    apply (bool_decide_unpack _). vm_compute. exact I.
  - assert (is_list (mk_memory (cells row_heap) 0) (Some 0%nat) 0 [1; 2]%nat)
      as Hl.
    { split; [done|]. split.
      - repeat (split; [done|]; eexists; split; [reflexivity|]). done.
      - apply (bool_decide_unpack _). vm_compute. exact I. }
    apply (proj2 (list_calls_that_fault (mk_memory (cells row_heap) 0)
                    (Some 0%nat) 0 [1; 2]%nat Hl)
             eq_refl None 7 ["z"]%char 1).
Defined.

End AuxiFacts.
